(** * Tempo and key analysis of [audio-analyzer.ts]: a shallow embedding

    The analysis core of the repository is one TypeScript module: an in-place
    radix-2 FFT, a Hann-windowed magnitude spectrum, a chroma/key-profile
    correlator ([detectKey]) and a spectral-flux/autocorrelation tempo
    estimator ([detectBPM]).  A second version of the module, which
    post-processes the answers of Essentia, and the two functions of the
    components that consume the result ([allBPMs] of [BPMRadar], [formatKey]
    of [KeyRadar]) are embedded as well.

    Numbers.  A JavaScript [number] is modelled by a real ([R]): arithmetic
    is exact, [Float32Array] stores do not round, and [Math.cos], [Math.sin],
    [Math.sqrt], [Math.log2] are the real functions.  Values that the source
    produces with [Math.round] or [Math.floor], and loop counters, array
    lengths and indices, are integers ([Z], [nat]).  Arrays are lists; a typed
    array has a fixed length, so a store is stdpp's list insert (which leaves
    the list alone out of range, as a [Float32Array] does).  The shifts
    [n >> 1] and [len << 1] work on 32-bit integers in JavaScript; they are
    modelled by halving and doubling, which is what they do on the array
    lengths below [2 ^ 30].

    Loops.  Every [for] loop of the source is an instance of [for_loop]
    below, with the source's condition, increment and body.  The bound on
    the number of iterations that Rocq needs is shown, further down, to be
    large enough for every loop: no loop of the model stops early. *)

From Stdlib Require Import Reals Lra Lia ZArith List String Permutation Sorted.
From stdpp Require Import list.

(* ===================================================================== *)
(** * Part I: the program                                                 *)
(* ===================================================================== *)

(** ** Loops *)

(** [for (i = i0; cond i; i = step i) s = body i s], cut after [fuel]
    iterations. *)
Fixpoint for_loop {St : Type} (fuel : nat) (cond : nat -> bool)
  (step : nat -> nat) (body : nat -> St -> St) (i : nat) (s : St) : St :=
  match fuel with
  | O => s
  | S fuel' =>
      if cond i then for_loop fuel' cond step body (step i) (body i s) else s
  end.

(** The counter values for which the body of that loop runs, in order. *)
Fixpoint for_trace (fuel : nat) (cond : nat -> bool) (step : nat -> nat)
  (i : nat) : list nat :=
  match fuel with
  | O => []
  | S fuel' => if cond i then i :: for_trace fuel' cond step (step i) else []
  end.

(** [exits cond step fuel i]: the loop started at [i] leaves through its
    condition within [fuel] iterations. *)
Fixpoint exits (cond : nat -> bool) (step : nat -> nat) (fuel : nat)
  (i : nat) : Prop :=
  match fuel with
  | O => cond i = false
  | S fuel' => cond i = true -> exits cond step fuel' (step i)
  end.

(** ** The JavaScript primitives the module uses *)

Definition Rltb (x y : R) : bool := if Rlt_dec x y then true else false.
Definition Rleb (x y : R) : bool := if Rle_dec x y then true else false.
Definition Reqb (x y : R) : bool := if Req_dec_T x y then true else false.

(** [Math.floor] and [Math.round] (nearest integer, halves upwards). *)
Definition Math_floor (x : R) : Z := Zfloor x.
Definition Math_round (x : R) : Z := Zfloor (x + 1 / 2).

Definition Math_log2 (x : R) : R := (ln x / ln 2)%R.

(** [Math.max(...l)].  On no argument JavaScript answers [-Infinity], which
    is not a real; every call of the module passes a non-empty array
    ([chroma] has 12 entries, [spectralFlux] at least 100, [correlations]
    at least 3 once a peak exists), so the first branch is never taken. *)
Definition Math_max (l : list R) : R :=
  match l with
  | [] => 0%R
  | x :: t => fold_left Rmax t x
  end.

(** [x || d] on numbers: [d] when [x] is [0]. *)
Definition or_default (x d : R) : R := if Reqb x 0 then d else x.

(** [a.slice(from, to)] for [0 <= from <= to]. *)
Definition slice {A : Type} (a : list A) (from to : nat) : list A :=
  take (to - from) (drop from a).

(** [Array.prototype.sort(cmp)] is stable, and for a comparator that is
    consistent (here always a difference of two numbers) its result is the
    stable sorted arrangement whatever algorithm the engine uses.  [gt x y]
    stands for [cmp(x, y) > 0]: [x] must come after [y].  Insertion from
    the right keeps equal elements in their original order. *)
Fixpoint sort_insert {A : Type} (gt : A -> A -> bool) (x : A) (l : list A)
  : list A :=
  match l with
  | [] => [x]
  | y :: l' => if gt x y then y :: sort_insert gt x l' else x :: y :: l'
  end.

Definition js_sort {A : Type} (gt : A -> A -> bool) (l : list A) : list A :=
  fold_right (sort_insert gt) [] l.

(** [Set<number>] in insertion order: [add], [delete], [Array.from]. *)
Definition set_add (x : Z) (s : list Z) : list Z :=
  if existsb (Z.eqb x) s then s else s ++ [x].

Definition set_delete (x : Z) (s : list Z) : list Z :=
  List.filter (fun y => negb (Z.eqb y x)) s.

(** ** [fft]: in-place radix-2 Cooley-Tukey transform *)

Local Open Scope R_scope.

(** [[a[i], a[j]] = [a[j], a[i]]] *)
Definition swap (a : list R) (i j : nat) : list R :=
  <[j := nth i a 0]> (<[i := nth j a 0]> a).

(** [while (m >= 1 && j >= m) { j -= m; m >>= 1; }], giving [(m, j)]. *)
Fixpoint carry (fuel m j : nat) : nat * nat :=
  match fuel with
  | O => (m, j)
  | S fuel' =>
      if (1 <=? m) && (m <=? j) then carry fuel' (m / 2)%nat (j - m)%nat
      else (m, j)
  end.

(** Body of the bit-reversal loop; the state is [(real, imag, j)]. *)
Definition bitrev_body (n i : nat) (st : list R * list R * nat)
  : list R * list R * nat :=
  let '(real, imag, j) := st in
  let '(real, imag) :=
    if i <? j then (swap real i j, swap imag i j) else (real, imag) in
  let '(m, j) := carry n (n / 2)%nat j in
  (real, imag, (j + m)%nat).

(** Body of the innermost loop: one butterfly, then the twiddle factor is
    advanced.  The state is [(real, imag, curReal, curImag)]. *)
Definition butterfly (i halfLen : nat) (wReal wImag : R) (j : nat)
  (st : list R * list R * R * R) : list R * list R * R * R :=
  let '(real, imag, curReal, curImag) := st in
  let uReal := nth (i + j) real 0 in
  let uImag := nth (i + j) imag 0 in
  let tReal := curReal * nth (i + j + halfLen) real 0
               - curImag * nth (i + j + halfLen) imag 0 in
  let tImag := curReal * nth (i + j + halfLen) imag 0
               + curImag * nth (i + j + halfLen) real 0 in
  let real := <[(i + j)%nat := uReal + tReal]> real in
  let imag := <[(i + j)%nat := uImag + tImag]> imag in
  let real := <[(i + j + halfLen)%nat := uReal - tReal]> real in
  let imag := <[(i + j + halfLen)%nat := uImag - tImag]> imag in
  let nextReal := curReal * wReal - curImag * wImag in
  let curImag := curReal * wImag + curImag * wReal in
  (real, imag, nextReal, curImag).

(** Body of the loop over blocks [i = 0, len, 2 len, ...]. *)
Definition fft_block (halfLen : nat) (wReal wImag : R) (i : nat)
  (st : list R * list R) : list R * list R :=
  let '(real, imag) := st in
  let '(real, imag, _, _) :=
    for_loop halfLen (fun j => j <? halfLen) S
      (butterfly i halfLen wReal wImag) 0%nat (real, imag, 1, 0) in
  (real, imag).

(** Body of the loop over stages [len = 2, 4, 8, ...]. *)
Definition fft_stage (n len : nat) (st : list R * list R)
  : list R * list R :=
  let halfLen := (len / 2)%nat in
  let angle := (-2 * PI) / INR len in
  let wReal := cos angle in
  let wImag := sin angle in
  for_loop n (fun i => i <? n) (fun i => (i + len)%nat)
    (fft_block halfLen wReal wImag) 0%nat st.

Definition fft (real imag : list R) : list R * list R :=
  let n := length real in
  if n <=? 1 then (real, imag)
  else
    let '(real, imag, _) :=
      for_loop n (fun i => i <? n) S (bitrev_body n) 0%nat
        (real, imag, 0%nat) in
    for_loop n (fun len => len <=? n) (fun len => (len * 2)%nat)
      (fft_stage n) 2%nat (real, imag).

(** ** [getMagnitudeSpectrum] *)

Definition hann (fftSize i : nat) : R :=
  0.5 * (1 - cos ((2 * PI * INR i) / (INR fftSize - 1))).

(** Body of the windowing loop: [samples[i] || 0] is [0] past the end. *)
Definition window_body (samples : list R) (fftSize : nat) (i : nat)
  (st : list R * list R) : list R * list R :=
  let '(real, imag) := st in
  let window := hann fftSize i in
  (<[i := nth i samples 0 * window]> real, <[i := 0]> imag).

Definition magnitude_body (real imag : list R) (i : nat)
  (magnitude : list R) : list R :=
  <[i := sqrt (nth i real 0 * nth i real 0 + nth i imag 0 * nth i imag 0)]>
    magnitude.

(** Lines 82-88: the magnitudes of the first [fftSize / 2] bins.  The array
    is [new Float32Array(fftSize / 2)]; the test [i < fftSize / 2] is on
    real numbers. *)
Definition magnitudeOf (real imag : list R) (fftSize : nat) : list R :=
  let magnitude := repeat 0 (fftSize / 2)%nat in
  for_loop fftSize (fun i => (2 * i <? fftSize)%nat) S (magnitude_body real imag)
    0%nat magnitude.

Definition getMagnitudeSpectrum (samples : list R) (fftSize : nat) : list R :=
  let real := repeat 0 fftSize in
  let imag := repeat 0 fftSize in
  let '(real, imag) :=
    for_loop fftSize (fun i => i <? fftSize) S (window_body samples fftSize)
      0%nat (real, imag) in
  let '(real, imag) := fft real imag in
  magnitudeOf real imag fftSize.

(** ** Data of the module *)

Inductive Mode : Type := major | minor.

Module KeyCandidate.
Record t : Type := mk { key : string; mode : Mode; confidence : R }.
End KeyCandidate.

(** An entry of the local array [candidates] of [detectKey]. *)
Module Scored.
Record t : Type := mk { key : string; mode : Mode; correlation : R }.
End Scored.

Module BPMResult.
Record t : Type := mk { bpm : Z; confidence : R; alternatives : list Z }.
End BPMResult.

(** An entry of the local array [peaks] of [detectBPM]. *)
Module Peak.
Record t : Type := mk { lag : Z; value : R; bpm : Z }.
End Peak.

Module AnalysisResult.
Record t : Type := mk {
  bpm : Z;
  bpmConfidence : R;
  bpmAlternatives : list Z;
  keyCandidates : list KeyCandidate.t
}.
End AnalysisResult.

(** What the module reads of a Web Audio [AudioBuffer]: its sample rate and
    the samples of channel 0. *)
Module AudioBuffer.
Record t : Type := mk { sampleRate : R; channelData : list R }.
End AudioBuffer.

Definition MAJOR_PROFILE : list R :=
  [6.35; 2.23; 3.48; 2.33; 4.38; 4.09; 2.52; 5.19; 2.39; 3.66; 2.29; 2.88].
Definition MINOR_PROFILE : list R :=
  [6.33; 2.68; 3.52; 5.38; 2.60; 3.53; 2.54; 4.75; 3.98; 2.69; 3.34; 3.17].

Definition KEY_NAMES : list string :=
  ["C"; "C#"; "D"; "D#"; "E"; "F"; "F#"; "G"; "G#"; "A"; "A#"; "B"]%string.

(** ** [pearsonCorrelation] *)

Definition pearson_body (a b : list R) (i : nat) (st : R * R * R * R * R)
  : R * R * R * R * R :=
  let '(sumA, sumB, sumAB, sumA2, sumB2) := st in
  (sumA + nth i a 0,
   sumB + nth i b 0,
   sumAB + nth i a 0 * nth i b 0,
   sumA2 + nth i a 0 * nth i a 0,
   sumB2 + nth i b 0 * nth i b 0).

Definition pearsonCorrelation (a b : list R) : R :=
  let n := length a in
  let '(sumA, sumB, sumAB, sumA2, sumB2) :=
    for_loop n (fun i => i <? n) S (pearson_body a b) 0%nat (0, 0, 0, 0, 0) in
  let num := INR n * sumAB - sumA * sumB in
  let den :=
    sqrt ((INR n * sumA2 - sumA * sumA) * (INR n * sumB2 - sumB * sumB)) in
  if Reqb den 0 then 0 else num / den.

(** ** [detectKey] *)

(** Body of the loop over the bins of one spectrum (lines 122-132). *)
Definition chroma_bin (sampleRate : R) (fftSize : nat) (magnitude : list R)
  (bin : nat) (chroma : list R) : list R :=
  let freq := (INR bin * sampleRate) / INR fftSize in
  if Rltb freq 60 || Rltb 2000 freq then chroma
  else
    let midiNote := 12 * Math_log2 (freq / 440) + 69 in
    let pitchClass := Z.rem (Math_round midiNote) 12 in
    let normalizedPitch := Z.to_nat (Z.rem (Z.rem pitchClass 12 + 12) 12) in
    <[normalizedPitch :=
        nth normalizedPitch chroma 0 + nth bin magnitude 0 * nth bin magnitude 0]>
      chroma.

(** Body of the loop over the frames (lines 117-133). *)
Definition chroma_frame (sampleRate : R) (data : list R) (fftSize : nat)
  (start : nat) (chroma : list R) : list R :=
  let segment := slice data start (start + fftSize) in
  let magnitude := getMagnitudeSpectrum segment fftSize in
  for_loop (length magnitude) (fun bin => bin <? length magnitude) S
    (chroma_bin sampleRate fftSize magnitude) 1%nat chroma.

Definition accumulateChroma (sampleRate : R) (data : list R)
  (fftSize hopSize : nat) : list R :=
  for_loop (length data) (fun start => start + fftSize <? length data)
    (fun start => (start + hopSize)%nat)
    (chroma_frame sampleRate data fftSize) 0%nat (repeat 0 12).

(** Lines 135-141. *)
Definition normalizeChroma (chroma : list R) : list R :=
  let maxChroma := Math_max chroma in
  if Rltb 0 maxChroma then
    for_loop 12 (fun i => i <? 12) S
      (fun i chroma => <[i := nth i chroma 0 / maxChroma]> chroma) 0%nat chroma
  else chroma.

Definition shiftChroma (chroma : list R) (shift : nat) : list R :=
  for_loop 12 (fun i => i <? 12) S
    (fun i shiftedChroma =>
       shiftedChroma ++ [nth ((i + shift) mod 12) chroma 0])
    0%nat [].

(** Body of the loop over the 12 rotations (lines 146-157). *)
Definition score_body (chroma : list R) (shift : nat)
  (candidates : list Scored.t) : list Scored.t :=
  let shiftedChroma := shiftChroma chroma shift in
  let majorCorr := pearsonCorrelation MAJOR_PROFILE shiftedChroma in
  let minorCorr := pearsonCorrelation MINOR_PROFILE shiftedChroma in
  candidates
    ++ [Scored.mk (nth shift KEY_NAMES ""%string) major majorCorr]
    ++ [Scored.mk (nth shift KEY_NAMES ""%string) minor minorCorr].

Definition keyCorrelations (chroma : list R) : list Scored.t :=
  for_loop 12 (fun shift => shift <? 12) S (score_body chroma) 0%nat [].

(** [l[i].correlation]; the arrays this is applied to are never empty. *)
Definition correlation_at (l : list Scored.t) (i : nat) : R :=
  match l !! i with
  | Some c => Scored.correlation c
  | None => 0
  end.

(** [(a, b) => b.correlation - a.correlation] is positive. *)
Definition by_correlation_desc (a b : Scored.t) : bool :=
  Rltb 0 (Scored.correlation b - Scored.correlation a).

(** Lines 159-172: sort, keep 6, rescale. *)
Definition rankCandidates (candidates : list Scored.t)
  : list KeyCandidate.t :=
  let candidates := js_sort by_correlation_desc candidates in
  let topCandidates := slice candidates 0 6 in
  let maxCorr := correlation_at topCandidates 0 in
  let minCorr := correlation_at topCandidates (length topCandidates - 1) in
  let range := or_default (maxCorr - minCorr) 1 in
  map (fun c =>
         KeyCandidate.mk (Scored.key c) (Scored.mode c)
           ((Scored.correlation c - minCorr) / range))
    topCandidates.

Definition detectKeyWith (fftSize hopSize : nat) (audioBuffer : AudioBuffer.t)
  : list KeyCandidate.t :=
  let sampleRate := AudioBuffer.sampleRate audioBuffer in
  let data := AudioBuffer.channelData audioBuffer in
  let chroma := accumulateChroma sampleRate data fftSize hopSize in
  let chroma := normalizeChroma chroma in
  rankCandidates (keyCorrelations chroma).

Definition detectKey : AudioBuffer.t -> list KeyCandidate.t :=
  detectKeyWith 8192 4096.

(** ** [detectBPM] *)

(** The fallback of lines 210 and 251. *)
Definition degenerate : BPMResult.t := BPMResult.mk 120 0 [].

(** Body of the loop over bins (lines 199-202): half-wave rectification. *)
Definition flux_bin (magnitude prevMagnitude : list R) (i : nat) (flux : R)
  : R :=
  let diff := nth i magnitude 0 - nth i prevMagnitude 0 in
  flux + (if Rltb 0 diff then diff else 0).

(** Body of the loop over frames (lines 193-207); the state is
    [(prevMagnitude, spectralFlux)]. *)
Definition flux_frame (data : list R) (fftSize : nat) (start : nat)
  (st : option (list R) * list R) : option (list R) * list R :=
  let '(prevMagnitude, spectralFlux) := st in
  let segment := slice data start (start + fftSize) in
  let magnitude := getMagnitudeSpectrum segment fftSize in
  let spectralFlux :=
    match prevMagnitude with
    | Some prevMagnitude =>
        let flux :=
          for_loop (length magnitude) (fun i => i <? length magnitude) S
            (flux_bin magnitude prevMagnitude) 0%nat 0 in
        spectralFlux ++ [flux]
    | None => spectralFlux
    end in
  (Some magnitude, spectralFlux).

Definition computeSpectralFlux (data : list R) (fftSize hopSize : nat)
  : list R :=
  snd (for_loop (length data) (fun start => start + fftSize <? length data)
         (fun start => (start + hopSize)%nat)
         (flux_frame data fftSize) 0%nat (None, [])).

(** Lines 213-219. *)
Definition normalizeFlux (spectralFlux : list R) : list R :=
  let maxFlux := Math_max spectralFlux in
  if Rltb 0 maxFlux then
    for_loop (length spectralFlux) (fun i => i <? length spectralFlux) S
      (fun i spectralFlux => <[i := nth i spectralFlux 0 / maxFlux]> spectralFlux)
      0%nat spectralFlux
  else spectralFlux.

Definition minBPM : R := 60.
Definition maxBPM : R := 180.

Definition framesPerSecond (sampleRate : R) (hopSize : nat) : R :=
  sampleRate / INR hopSize.
Definition minLag (sampleRate : R) (hopSize : nat) : Z :=
  Math_floor ((60 / maxBPM) * framesPerSecond sampleRate hopSize).
Definition maxLag (sampleRate : R) (hopSize : nat) : Z :=
  Math_floor ((60 / minBPM) * framesPerSecond sampleRate hopSize).

(** Body of the loop over lags (lines 229-235). *)
Definition correlation_body (spectralFlux : list R) (lag : nat)
  (correlations : list R) : list R :=
  let sum :=
    for_loop (length spectralFlux)
      (fun i => i <? length spectralFlux - lag) S
      (fun i sum => sum + nth i spectralFlux 0 * nth (i + lag) spectralFlux 0)
      0%nat 0 in
  correlations ++ [sum / (INR (length spectralFlux) - INR lag)].

(** The sample rate of an [AudioBuffer] is positive, so [minLag] is not
    negative and the loop counter is a natural number. *)
Definition autocorrelation (sampleRate : R) (hopSize : nat)
  (spectralFlux : list R) : list R :=
  for_loop (length spectralFlux)
    (fun lag => (Z.of_nat lag <=? maxLag sampleRate hopSize)%Z
                && Rltb (INR lag) (INR (length spectralFlux) / 2))
    S (correlation_body spectralFlux)
    (Z.to_nat (minLag sampleRate hopSize)) [].

(** Body of the peak scan (lines 239-245). *)
Definition peak_body (sampleRate : R) (hopSize : nat) (correlations : list R)
  (i : nat) (peaks : list Peak.t) : list Peak.t :=
  if Rltb (nth (i - 1) correlations 0) (nth i correlations 0)
     && Rltb (nth (i + 1) correlations 0) (nth i correlations 0)
  then
    let lag := (minLag sampleRate hopSize + Z.of_nat i)%Z in
    let bpm := (60 * framesPerSecond sampleRate hopSize) / IZR lag in
    peaks ++ [Peak.mk lag (nth i correlations 0) (Math_round bpm)]
  else peaks.

Definition findPeaks (sampleRate : R) (hopSize : nat) (correlations : list R)
  : list Peak.t :=
  for_loop (length correlations) (fun i => i <? length correlations - 1) S
    (peak_body sampleRate hopSize correlations) 1%nat [].

(** [(a, b) => b.value - a.value] is positive. *)
Definition by_value_desc (a b : Peak.t) : bool :=
  Rltb 0 (Peak.value b - Peak.value a).

(** Line 257: [correlations.reduce((a, b) => a + b, 0) / correlations.length]. *)
Definition average (correlations : list R) : R :=
  fold_left Rplus correlations 0 / INR (length correlations).

(** Line 258. *)
Definition peakConfidence (bestPeak : Peak.t) (correlations : list R) : R :=
  let maxCorr := Math_max correlations in
  let avgCorr := average correlations in
  Rmin 1 (Rmax 0 ((Peak.value bestPeak - avgCorr) / (maxCorr - avgCorr + 0.001))).

(** Lines 263-270: the primary tempo is folded towards 80-140. *)
Definition foldPrimary (bpm : Z) : Z :=
  if (140 <? bpm)%Z then
    let halfBPM := Math_round (IZR bpm / 2) in
    if (60 <=? halfBPM)%Z then halfBPM else bpm
  else if (bpm <? 80)%Z then
    let doubleBPM := (bpm * 2)%Z in
    if (doubleBPM <=? 180)%Z then doubleBPM else bpm
  else bpm.

(** Lines 281-283: the fold applied to each other peak. *)
Definition foldAlternative (altBpm : Z) : Z :=
  if (140 <? altBpm)%Z && Rleb 60 (IZR altBpm / 2)
  then Math_round (IZR altBpm / 2)
  else if (altBpm <? 80)%Z && (altBpm * 2 <=? 180)%Z then (altBpm * 2)%Z
  else altBpm.

(** Body of the loop over [peaks.slice(1, 4)] (lines 280-288). *)
Definition alternative_body (bpm : Z) (alternatives : list Z) (peak : Peak.t)
  : list Z :=
  let altBpm := foldAlternative (Peak.bpm peak) in
  if (5 <? Z.abs (altBpm - bpm))%Z then set_add altBpm alternatives
  else alternatives.

(** [(a, b) => a - b] is positive. *)
Definition ascending (a b : Z) : bool := (0 <? a - b)%Z.

(** Lines 273-288: the [Set] of alternatives, in insertion order, before
    the primary tempo is deleted from it. *)
Definition alternativeSet (bpm : Z) (peaks : list Peak.t) : list Z :=
  let alternatives : list Z := [] in
  let alternatives :=
    if (bpm * 2 <=? 200)%Z then set_add (bpm * 2)%Z alternatives
    else alternatives in
  let alternatives :=
    if Rleb 50 (IZR bpm / 2) then set_add (Math_round (IZR bpm / 2)) alternatives
    else alternatives in
  fold_left (alternative_body bpm) (slice peaks 1 4) alternatives.

(** Lines 290-296: [alternatives.delete(bpm)], then
    [Array.from(alternatives).slice(0, 3).sort((a, b) => a - b)]. *)
Definition collectAlternatives (bpm : Z) (peaks : list Peak.t) : list Z :=
  let alternatives := set_delete bpm (alternativeSet bpm peaks) in
  js_sort ascending (slice alternatives 0 3).

(** Lines 250-297: the result, given the correlations and the sorted
    peaks. *)
Definition resultFromPeaks (correlations : list R) (peaks : list Peak.t)
  : BPMResult.t :=
  match peaks with
  | [] => degenerate
  | bestPeak :: _ =>
      let confidence := peakConfidence bestPeak correlations in
      let bpm := foldPrimary (Peak.bpm bestPeak) in
      BPMResult.mk bpm confidence (collectAlternatives bpm peaks)
  end.

(** Lines 209-297: from the spectral flux to the result. *)
Definition tempoFromFlux (sampleRate : R) (hopSize : nat)
  (spectralFlux : list R) : BPMResult.t :=
  if length spectralFlux <? 100 then degenerate
  else
    let spectralFlux := normalizeFlux spectralFlux in
    let correlations := autocorrelation sampleRate hopSize spectralFlux in
    let peaks := findPeaks sampleRate hopSize correlations in
    let peaks := js_sort by_value_desc peaks in
    resultFromPeaks correlations peaks.

Definition detectBPMWith (fftSize hopSize : nat) (audioBuffer : AudioBuffer.t)
  : BPMResult.t :=
  let sampleRate := AudioBuffer.sampleRate audioBuffer in
  let data := AudioBuffer.channelData audioBuffer in
  tempoFromFlux sampleRate hopSize (computeSpectralFlux data fftSize hopSize).

Definition detectBPM : AudioBuffer.t -> BPMResult.t := detectBPMWith 2048 512.

(** ** [analyzeAudio], once the file is decoded *)

Definition analyze (audioBuffer : AudioBuffer.t) : AnalysisResult.t :=
  let bpmResult := detectBPM audioBuffer in
  let keyCandidates := detectKey audioBuffer in
  AnalysisResult.mk (BPMResult.bpm bpmResult) (BPMResult.confidence bpmResult)
    (BPMResult.alternatives bpmResult) keyCandidates.

(** The counter values of the two frame loops (lines 117 and 193): the
    positions at which a frame is read. *)
Definition frameStarts (fftSize hopSize len : nat) : list nat :=
  for_trace len (fun start => start + fftSize <? len)
    (fun start => (start + hopSize)%nat) 0%nat.

(** ** [analyzeAudio], Essentia variant (lines 364-488)

    The second version of the module hands the samples to Essentia's
    [RhythmExtractor2013] and [KeyExtractor] and post-processes what they
    return.  The two calls are inputs here: [Some] of the record Essentia
    returns (typed as in [essentia.d.ts]), or [None] when the call throws
    and the [catch] branch runs. *)

Module Rhythm.
Record t : Type := mk { bpm : R; confidence : R; bpmIntervals : list R }.
End Rhythm.

Module KeyResult.
Record t : Type := mk { key : string; scale : string; strength : R }.
End KeyResult.

(** A key candidate of this version: at run time [mode] is whatever
    [scale.toLowerCase()] gives. *)
Module NamedCandidate.
Record t : Type := mk { key : string; mode : string; confidence : R }.
End NamedCandidate.

(** [KEY_MAP] (lines 334-342) as the list of its own properties. *)
Definition KEY_MAP : list (string * string) :=
  [("C", "C"); ("C#", "C#"); ("Db", "C#");
   ("D", "D"); ("D#", "D#"); ("Eb", "D#");
   ("E", "E"); ("Fb", "E");
   ("F", "F"); ("F#", "F#"); ("Gb", "F#");
   ("G", "G"); ("G#", "G#"); ("Ab", "G#");
   ("A", "A"); ("A#", "A#"); ("Bb", "A#");
   ("B", "B"); ("Cb", "B")]%string.

Definition ALL_KEYS : list string :=
  ["C"; "C#"; "D"; "D#"; "E"; "F"; "F#"; "G"; "G#"; "A"; "A#"; "B"]%string.

(** [table[key]] on an object literal whose values are strings: the value
    of the own property [key], if there is one.  (Properties inherited from
    [Object.prototype] are left out: the keys looked up are note names.) *)
Fixpoint property (key : string) (table : list (string * string))
  : option string :=
  match table with
  | [] => None
  | (k, v) :: table' => if String.eqb key k then Some v else property key table'
  end.

(** [table[key] || key] *)
Definition property_or_key (key : string) (table : list (string * string))
  : string :=
  match property key table with
  | Some v => v
  | None => key
  end.

(** [l.indexOf(x)] *)
Fixpoint indexOf (x : string) (l : list string) : Z :=
  match l with
  | [] => (-1)%Z
  | y :: l' =>
      if String.eqb x y then 0%Z
      else let r := indexOf x l' in if (r <? 0)%Z then (-1)%Z else (r + 1)%Z
  end.

(** [ALL_KEYS[(keyIndex + offset) % 12]] *)
Definition keyAt (keyIndex offset : Z) : string :=
  nth (Z.to_nat (Z.rem (keyIndex + offset) 12)) ALL_KEYS ""%string.

(** [l.includes(x)] *)
Definition includes (x : Z) (l : list Z) : bool := existsb (Z.eqb x) l.

(** [[...new Set(estimates.map((b) => Math.round(b)))]] *)
Definition uniqueRounded (estimates : list R) : list Z :=
  fold_left (fun s b => set_add b s) (map Math_round estimates) [].

(** The filter of line 401. *)
Definition keepEstimate (bpm b : Z) : bool :=
  (5 <? Z.abs (b - bpm))%Z && (60 <=? b)%Z && (b <=? 200)%Z.

(** Lines 397-412. *)
Definition essentiaAlternatives (bpm : Z) (bpmIntervals : list R) : list Z :=
  let bpmAlternatives :=
    if (0 <? length bpmIntervals)%nat
    then slice (List.filter (keepEstimate bpm) (uniqueRounded bpmIntervals)) 0 3
    else [] in
  let bpmAlternatives :=
    if (bpm * 2 <=? 200)%Z && negb (includes (bpm * 2) bpmAlternatives)
    then bpmAlternatives ++ [(bpm * 2)%Z]
    else bpmAlternatives in
  let bpmAlternatives :=
    if Rleb 60 (IZR bpm / 2)
       && negb (includes (Math_round (IZR bpm / 2)) bpmAlternatives)
    then bpmAlternatives ++ [Math_round (IZR bpm / 2)]
    else bpmAlternatives in
  js_sort ascending (slice bpmAlternatives 0 3).

(** Lines 386-415: [bpm], [bpmConfidence] and [bpmAlternatives]. *)
Definition essentiaTempo (rhythm : option Rhythm.t) : BPMResult.t :=
  match rhythm with
  | None => BPMResult.mk 120 0.5 []
  | Some rhythm =>
      let bpm := Math_round (Rhythm.bpm rhythm) in
      let bpmConfidence := or_default (Rhythm.confidence rhythm) 0.5 in
      BPMResult.mk bpm bpmConfidence
        (essentiaAlternatives bpm (Rhythm.bpmIntervals rhythm))
  end.

(** The fallback of lines 473-477. *)
Definition fallbackKeys : list NamedCandidate.t :=
  imap (fun i key => NamedCandidate.mk key "major" (1 - INR i * 0.15))
    (slice ALL_KEYS 0 5).

Section EssentiaKeys.

(** [String.prototype.toLowerCase], left abstract. *)
Variable toLowerCase : string -> string.

(** Lines 417-478: [keyCandidates]. *)
Definition essentiaKeys (keyResult : option KeyResult.t)
  : list NamedCandidate.t :=
  match keyResult with
  | None => fallbackKeys
  | Some keyResult =>
      let detectedKey := property_or_key (KeyResult.key keyResult) KEY_MAP in
      let detectedMode := toLowerCase (KeyResult.scale keyResult) in
      let strength := or_default (KeyResult.strength keyResult) 0.8 in
      let otherMode :=
        if String.eqb detectedMode "minor" then "major"%string
        else "minor"%string in
      let keyIndex := indexOf detectedKey ALL_KEYS in
      let relativeKey :=
        if String.eqb detectedMode "minor" then keyAt keyIndex 3
        else keyAt keyIndex 9 in
      let halfStepUp := keyAt keyIndex 1 in
      let halfStepDown := keyAt keyIndex 11 in
      [NamedCandidate.mk detectedKey detectedMode strength;
       NamedCandidate.mk relativeKey otherMode (strength * 0.7);
       NamedCandidate.mk detectedKey otherMode (strength * 0.5);
       NamedCandidate.mk halfStepDown detectedMode (strength * 0.4);
       NamedCandidate.mk halfStepUp detectedMode (strength * 0.35)]
  end.

End EssentiaKeys.

(** ** [BPMRadar]: the tempo options (BPMRadar.tsx, lines 30-54)

    The component receives [bpm] and [alternatives] from the analysis
    result, where they are integers. *)

Module BPMOption.
Record t : Type := mk { value : Z; confidence : R; isMain : bool }.
End BPMOption.

(** [bpms.some(b => b.value === x)] *)
Definition hasValue (x : Z) (bpms : list BPMOption.t) : bool :=
  existsb (fun b => Z.eqb (BPMOption.value b) x) bpms.

Definition allBPMs (bpm : Z) (alternatives : list Z) : list BPMOption.t :=
  let bpms :=
    BPMOption.mk bpm 1 true
    :: imap (fun i alt => BPMOption.mk alt (0.7 - INR i * 0.15) false)
         alternatives in
  let bpms :=
    if (length bpms <? 4)%nat then
      let bpms :=
        if (bpm * 2 <=? 200)%Z && negb (hasValue (bpm * 2) bpms)
        then bpms ++ [BPMOption.mk (bpm * 2) 0.4 false]
        else bpms in
      if Rleb 50 (IZR bpm / 2)
         && negb (hasValue (Math_round (IZR bpm / 2)) bpms)
      then bpms ++ [BPMOption.mk (Math_round (IZR bpm / 2)) 0.4 false]
      else bpms
    else bpms in
  let bpms := bpms ++ repeat (BPMOption.mk 0 0 false) (6 - length bpms) in
  slice bpms 0 6.

(** The options that are drawn and can be clicked ([item.value] is not 0). *)
Definition shownValues (bpms : list BPMOption.t) : list Z :=
  List.filter (fun v => negb (Z.eqb v 0)) (map BPMOption.value bpms).

(** ** [KeyRadar]: the spelling of a key (KeyRadar.tsx, lines 13-19 and 37-42) *)

Definition SHARP_TO_FLAT : list (string * string) :=
  [("C#", "Db"); ("D#", "Eb"); ("F#", "Gb"); ("G#", "Ab"); ("A#", "Bb")]%string.

Definition formatKey (useFlats : bool) (key : string) : string :=
  if useFlats then
    match property key SHARP_TO_FLAT with
    | Some flat => flat
    | None => key
    end
  else key.

(** ** Vocabulary of the statements *)

(** The 24 scored tuples of [detectKey], before they are ranked. *)
Definition keyScores (fftSize hopSize : nat) (audioBuffer : AudioBuffer.t)
  : list Scored.t :=
  keyCorrelations
    (normalizeChroma
       (accumulateChroma (AudioBuffer.sampleRate audioBuffer)
          (AudioBuffer.channelData audioBuffer) fftSize hopSize)).

(** The tuples [detectKey] retains: [topCandidates]. *)
Definition topSix (candidates : list Scored.t) : list Scored.t :=
  slice (js_sort by_correlation_desc candidates) 0 6.

(** The tuples it drops. *)
Definition belowTopSix (candidates : list Scored.t) : list Scored.t :=
  drop 6 (js_sort by_correlation_desc candidates).

Definition correlations_of (l : list Scored.t) : list R :=
  map Scored.correlation l.

(** [a] may stand before [b] in the ranking. *)
Definition corr_ge (a b : Scored.t) : Prop :=
  (Scored.correlation b <= Scored.correlation a)%R.

(** The two tuples pushed for one rotation (lines 152-156). *)
Definition scores_of_shift (chroma : list R) (shift : nat) : list Scored.t :=
  [Scored.mk (nth shift KEY_NAMES ""%string) major
     (pearsonCorrelation MAJOR_PROFILE (shiftChroma chroma shift));
   Scored.mk (nth shift KEY_NAMES ""%string) minor
     (pearsonCorrelation MINOR_PROFILE (shiftChroma chroma shift))].

(** Largest and smallest correlation of a list of tuples. *)
Definition maxCorrelation (l : list Scored.t) : R := Math_max (correlations_of l).
Definition minCorrelation (l : list Scored.t) : R :=
  match correlations_of l with
  | [] => 0%R
  | x :: t => fold_left Rmin t x
  end.

(** The rescaling written in the specification: the denominator is
    "floored to a minimum of 1". *)
Definition spec_confidence (corr minCorr maxCorr : R) : R :=
  ((corr - minCorr) / Rmax (maxCorr - minCorr) 1)%R.

(** The rescaling of line 166: the denominator is replaced by 1 when it is
    0, and only then. *)
Definition code_confidence (corr minCorr maxCorr : R) : R :=
  ((corr - minCorr) / or_default (maxCorr - minCorr) 1)%R.

(** Scores of a signal that is mostly a C major chord, rounded to two
    decimals, in the order in which [detectKey] pushes them. *)
Definition c_major_scores : list Scored.t :=
  [Scored.mk "C" major 0.95; Scored.mk "C" minor 0.42;
   Scored.mk "C#" major (-0.55); Scored.mk "C#" minor (-0.14);
   Scored.mk "D" major 0.09; Scored.mk "D" minor 0.12;
   Scored.mk "D#" major (-0.14); Scored.mk "D#" minor (-0.68);
   Scored.mk "E" major 0.01; Scored.mk "E" minor 0.73;
   Scored.mk "F" major 0.37; Scored.mk "F" minor 0.04;
   Scored.mk "F#" major (-0.68); Scored.mk "F#" minor (-0.37);
   Scored.mk "G" major 0.67; Scored.mk "G" minor 0.25;
   Scored.mk "G#" major (-0.24); Scored.mk "G#" minor (-0.39);
   Scored.mk "A" major 0.01; Scored.mk "A" minor 0.6;
   Scored.mk "A#" major (-0.08); Scored.mk "A#" minor (-0.49);
   Scored.mk "B" major (-0.4); Scored.mk "B" minor (-0.08)]%R.

(** The correlation sequence has no strict local maximum: no interior
    index [i] with [corr[i] > corr[i-1]] and [corr[i] > corr[i+1]]. *)
Definition noStrictLocalMaximum (correlations : list R) : Prop :=
  forall i : nat,
    (1 <= i)%nat -> (i < length correlations - 1)%nat ->
    ~ (nth (i - 1) correlations 0 < nth i correlations 0
       /\ nth (i + 1) correlations 0 < nth i correlations 0)%R.

(** The alternatives as the specification words them: deduplicate, remove
    the primary tempo, sort ascending, and only then truncate to 3. *)
Definition spec_alternatives (bpm : Z) (peaks : list Peak.t) : list Z :=
  slice (js_sort ascending (set_delete bpm (alternativeSet bpm peaks))) 0 3.

(** Sorted peaks as a 48 kHz buffer can give them (there the peak at lag
    [l] has tempo [round(5625 / l)]): the strongest at 100, then 120, 89
    and 80. *)
Definition four_peaks : list Peak.t :=
  [Peak.mk 56 0.9 100; Peak.mk 47 0.8 120; Peak.mk 63 0.7 89;
   Peak.mk 70 0.6 80]%R.

(** The strongest at 91, then 117 and 113 (lags 62, 48 and 50 at 48 kHz). *)
Definition close_peaks : list Peak.t :=
  [Peak.mk 62 0.9 91; Peak.mk 48 0.8 117; Peak.mk 50 0.7 113]%R.

(** Every sample multiplied by [c]. *)
Definition scale (c : R) (l : list R) : list R := map (Rmult c) l.

(** The same on the states of the loops of [fft]: the two arrays are
    scaled, the index [j] and the twiddle factor are left alone. *)
Definition scale_arrays (c : R) (st : list R * list R) : list R * list R :=
  (scale c (fst st), scale c (snd st)).
Definition scale_bitrev_state (c : R) (st : list R * list R * nat)
  : list R * list R * nat :=
  (scale c (fst (fst st)), scale c (snd (fst st)), snd st).
Definition scale_butterfly_state (c : R) (st : list R * list R * R * R)
  : list R * list R * R * R :=
  (scale c (fst (fst (fst st))), scale c (snd (fst (fst st))),
   snd (fst st), snd st).

Definition scaleBuffer (c : R) (audioBuffer : AudioBuffer.t) : AudioBuffer.t :=
  AudioBuffer.mk (AudioBuffer.sampleRate audioBuffer)
    (scale c (AudioBuffer.channelData audioBuffer)).

Definition all_zero (l : list R) : Prop := Forall (fun x => x = 0) l.

(** A frame of [fftSize] samples of the sine wave whose frequency is that
    of bin [k]: [sin(2 pi k n / fftSize)]. *)
Definition sineFrame (k fftSize : nat) : list R :=
  map (fun n => sin ((2 * PI * INR k * INR n) / INR fftSize)) (seq 0 fftSize).

(** [fftSize] samples of a sine of frequency [f], taken at [sampleRate]
    samples per second. *)
Definition sineWave (f sampleRate : R) (fftSize : nat) : list R :=
  map (fun n => sin ((2 * PI * f * INR n) / sampleRate)) (seq 0 fftSize).

(** The bin of the frequency [f]: [round(f * F / sampleRate)]. *)
Definition binOf (f sampleRate : R) (fftSize : nat) : Z :=
  Math_round (f * INR fftSize / sampleRate).

(** The spectrum has its unique maximum at bin [k]. *)
Definition uniquePeakAt (spectrum : list R) (k : nat) : Prop :=
  (k < length spectrum)%nat
  /\ forall m : nat,
       (m < length spectrum)%nat -> m <> k ->
       nth m spectrum 0 < nth k spectrum 0.

(** Complex numbers as pairs, for the statement that [fft] computes the
    discrete Fourier transform. *)
Definition cadd (a b : R * R) : R * R := (fst a + fst b, snd a + snd b).
Definition csub (a b : R * R) : R * R := (fst a - fst b, snd a - snd b).
Definition cmul (a b : R * R) : R * R :=
  (fst a * fst b - snd a * snd b, fst a * snd b + snd a * fst b).

Fixpoint csum (f : nat -> R * R) (n : nat) : R * R :=
  match n with
  | O => (0, 0)
  | S n' => cadd (csum f n') (f n')
  end.

(** [exp(-2 pi i e / L)], written with the angle of line 42. *)
Definition twiddle (L e : nat) : R * R :=
  (cos (INR e * ((-2 * PI) / INR L)), sin (INR e * ((-2 * PI) / INR L))).

(** Bin [t] of the transform of length [L] of the sequence [x]. *)
Definition dft (L : nat) (x : nat -> R * R) (t : nat) : R * R :=
  csum (fun u => cmul (x u) (twiddle L (t * u))) L.

(** Entry [a] of a pair of arrays, as a complex number. *)
Definition at_index (real imag : list R) (a : nat) : R * R :=
  (nth a real 0, nth a imag 0).

(** The number whose [p] low bits are those of [i] in reverse order. *)
Fixpoint bitrev (p i : nat) : nat :=
  match p with
  | O => 0%nat
  | S p' => ((i mod 2) * 2 ^ p' + bitrev p' (i / 2))%nat
  end.

(** The transform of the samples as they are, without the Hann window of
    lines 74-78: [fft] on the samples, then the magnitudes of lines 82-88. *)
Definition unwindowedSpectrum (samples : list R) (fftSize : nat) : list R :=
  let '(real, imag) := fft samples (repeat 0 fftSize) in
  magnitudeOf real imag fftSize.

(** Shape of the chroma vector: 12 entries, none negative. *)
Definition is_chroma (chroma : list R) : Prop :=
  length chroma = 12%nat /\ Forall (fun x => 0 <= x) chroma.

(** What [detectKey] answers on silence: the first six tuples in the order
    in which they are pushed, each with confidence 0. *)
Definition silent_key_candidates : list KeyCandidate.t :=
  [KeyCandidate.mk "C" major 0; KeyCandidate.mk "C" minor 0;
   KeyCandidate.mk "C#" major 0; KeyCandidate.mk "C#" minor 0;
   KeyCandidate.mk "D" major 0; KeyCandidate.mk "D" minor 0].

Definition sumR (l : list R) : R := fold_right Rplus 0 l.

(** The bin passes the test of line 124: its frequency lies in the
    60 Hz - 2000 Hz band. *)
Definition inBand (sampleRate : R) (fftSize bin : nat) : bool :=
  let freq := (INR bin * sampleRate) / INR fftSize in
  negb (Rltb freq 60 || Rltb 2000 freq).

(** Spectral energy of one frame inside the band (the DC bin is skipped,
    as the loop of line 122 does). *)
Definition frameBandEnergy (sampleRate : R) (fftSize : nat)
  (magnitude : list R) : R :=
  sumR (map (fun bin =>
               if inBand sampleRate fftSize bin
               then nth bin magnitude 0 * nth bin magnitude 0
               else 0)
          (seq 1 (length magnitude - 1))).

(** Spectral energy of the whole buffer inside the band. *)
Definition bandEnergy (sampleRate : R) (data : list R)
  (fftSize hopSize : nat) : R :=
  sumR (map (fun start =>
               frameBandEnergy sampleRate fftSize
                 (getMagnitudeSpectrum (slice data start (start + fftSize))
                    fftSize))
          (frameStarts fftSize hopSize (length data))).

(** Vocabulary of the proof that [fft] computes the discrete Fourier
    transform; indices are natural numbers here. *)

Local Close Scope R_scope.

(** State of the bit-reversal loop before the iteration [t]: the entries
    at the indices below [t], and at their mirror images, are exchanged. *)
Definition bitrev_inv (p : nat) (real imag : list R) (t : nat)
  (st : list R * list R * nat) : Prop :=
  let '(real', imag', j) := st in
  length real' = 2 ^ p /\ length imag' = 2 ^ p
  /\ (t < 2 ^ p -> j = bitrev p t)
  /\ forall a, a < 2 ^ p ->
       at_index real' imag' a
       = if (a <? t) || (bitrev p a <? t)
         then at_index real imag (bitrev p a)
         else at_index real imag a.

(** What the butterflies of the block starting at [i] make of the array
    [g]: the lower half receives [u + w^t v], the upper half [u - w^t v]. *)
Definition block_step (half i : nat) (g : nat -> R * R) (a : nat) : R * R :=
  if (i <=? a) && (a <? i + half) then
    cadd (g a) (cmul (twiddle (2 * half) (a - i)) (g (a + half)))
  else if (i + half <=? a) && (a <? i + 2 * half) then
    csub (g (a - half)) (cmul (twiddle (2 * half) (a - i - half)) (g a))
  else g a.

(** The same with only the first [j] butterflies done. *)
Definition block_prefix (half i j : nat) (g : nat -> R * R) (a : nat)
  : R * R :=
  if (i <=? a) && (a <? i + j) then
    cadd (g a) (cmul (twiddle (2 * half) (a - i)) (g (a + half)))
  else if (i + half <=? a) && (a <? i + half + j) then
    csub (g (a - half)) (cmul (twiddle (2 * half) (a - i - half)) (g a))
  else g a.

(** What a whole stage with blocks of length [2 * half] makes of [g]. *)
Definition stage_step (half : nat) (g : nat -> R * R) (a : nat) : R * R :=
  block_step half (a - a mod (2 * half)) g a.

(** After the stages up to block length [2 ^ s], with [2 ^ q] blocks: the
    block [b] holds the transform of the entries of [x] at the indices
    [bitrev q b + u * 2 ^ q]. *)
Definition stage_done (x : nat -> R * R) (q s : nat) (g : nat -> R * R)
  : Prop :=
  forall b t, b < 2 ^ q -> t < 2 ^ s ->
    g (b * 2 ^ s + t) = dft (2 ^ s) (fun u => x (bitrev q b + u * 2 ^ q)) t.

(** Sum of the [n] first values of a real sequence. *)
Fixpoint rsum (f : nat -> R) (n : nat) : R :=
  match n with
  | O => 0%R
  | S n' => (rsum f n' + f n')%R
  end.

(** The angle of bin [j] in a transform of length [N]. *)
Definition bin_angle (N j : nat) : R := (2 * PI * INR j / INR N)%R.

Local Open Scope R_scope.

(** ** Vocabulary of the further properties *)

(** Entry [i] of an array of numbers. *)
Definition entry (l : list R) (i : nat) : R := nth i l 0.

(** Every entry [x] replaced by [k * x + d]. *)
Definition affine (k d : R) (l : list R) : list R :=
  map (fun x => k * x + d) l.

(** The [n] first entries of the array are equal. *)
Definition constantOn (n : nat) (l : list R) : Prop :=
  forall i j : nat, (i < n)%nat -> (j < n)%nat -> entry l i = entry l j.

(** The value line 105 returns, from the five sums of the loop. *)
Definition pearson_of_sums (n sumA sumB sumAB sumA2 sumB2 : R) : R :=
  let num := n * sumAB - sumA * sumB in
  let den := sqrt ((n * sumA2 - sumA * sumA) * (n * sumB2 - sumB * sumB)) in
  if Reqb den 0 then 0 else num / den.

(** The key and mode of a candidate, and of a scored tuple. *)
Definition key_mode (k : KeyCandidate.t) : string * Mode :=
  (KeyCandidate.key k, KeyCandidate.mode k).
Definition scored_key_mode (c : Scored.t) : string * Mode :=
  (Scored.key c, Scored.mode c).

(** The 24 pairs of a key name and a mode, in the order of lines 155-156. *)
Definition ALL_KEY_MODES : list (string * Mode) :=
  flat_map (fun name => [(name, major); (name, minor)]) KEY_NAMES.

(** The buffer with its first sample replaced by [x] and its last sample
    by [y]. *)
Definition withEnds (x y : R) (audioBuffer : AudioBuffer.t) : AudioBuffer.t :=
  let data := AudioBuffer.channelData audioBuffer in
  AudioBuffer.mk (AudioBuffer.sampleRate audioBuffer)
    (<[(length data - 1)%nat := y]> (<[0%nat := x]> data)).

(** The state of the frame loop of [detectBPM], scaled. *)
Definition scale_flux_state (c : R) (st : option (list R) * list R)
  : option (list R) * list R :=
  (option_map (scale c) (fst st), scale c (snd st)).

(** The profile [detectKey] correlates with for a mode. *)
Definition profileOf (mode : Mode) : list R :=
  match mode with
  | major => MAJOR_PROFILE
  | minor => MINOR_PROFILE
  end.

(** The score of line 152 or 153: the correlation of the profile of [mode]
    with the chroma rotated by [shift]. *)
Definition keyScore (chroma : list R) (mode : Mode) (shift : nat) : R :=
  pearsonCorrelation (profileOf mode) (shiftChroma chroma shift).

(** [a * x + b * y], entry by entry. *)
Definition axpy (a : R) (x : list R) (b : R) (y : list R) : list R :=
  map (fun p => a * fst p + b * snd p) (combine x y).

(** Sum of two arrays, entry by entry. *)
Definition vadd (a b : list R) : list R :=
  map (fun p => fst p + snd p) (combine a b).

(** The chroma vector of the frame at [start] alone. *)
Definition frameChroma (sampleRate : R) (data : list R) (fftSize start : nat)
  : list R :=
  chroma_frame sampleRate data fftSize start (repeat 0 12).

(** [re * re + im * im] *)
Definition norm2 (z : R * R) : R := fst z * fst z + snd z * snd z.

(* ===================================================================== *)
(** * Part II: properties                                                 *)
(* ===================================================================== *)

Local Close Scope R_scope.

(** ** Loops *)

Section ForLoop.
Context {St : Type}.
Variables (cond : nat -> bool) (step : nat -> nat) (body : nat -> St -> St).

Lemma for_loop_fold fuel i s :
  for_loop fuel cond step body i s
  = fold_left (fun s i => body i s) (for_trace fuel cond step i) s.
Proof.
  revert i s; induction fuel as [|fuel IH]; intros i s; simpl; [done|].
  destruct (cond i); simpl; [apply IH | done].
Qed.

(** Invariant rule. *)
Lemma for_loop_inv (P : St -> Prop) fuel i s :
  (forall i s, cond i = true -> P s -> P (body i s)) ->
  P s -> P (for_loop fuel cond step body i s).
Proof.
  intros Hbody; revert i s; induction fuel as [|fuel IH]; intros i s Hs;
    simpl; [done|].
  destruct (cond i) eqn:Hc; [apply IH, Hbody; done | done].
Qed.

(** Invariant rule, the invariant knowing the counter. *)
Lemma for_loop_inv_counter (P : nat -> St -> Prop) fuel i s :
  (forall i s, cond i = true -> P i s -> P (step i) (body i s)) ->
  P i s -> exists i', P i' (for_loop fuel cond step body i s).
Proof.
  intros Hbody; revert i s; induction fuel as [|fuel IH]; intros i s Hs;
    simpl; [by exists i|].
  destruct (cond i) eqn:Hc; [apply IH, Hbody; done | by exists i].
Qed.

(** A loop whose condition fails at once does nothing. *)
Lemma for_loop_skip fuel i s :
  cond i = false -> for_loop fuel cond step body i s = s.
Proof. intros Hc; destruct fuel; simpl; [done | by rewrite Hc]. Qed.

(** Once the loop leaves through its condition, more fuel changes nothing. *)
Lemma for_loop_fuel fuel extra i s :
  exits cond step fuel i ->
  for_loop (fuel + extra) cond step body i s
  = for_loop fuel cond step body i s.
Proof.
  revert i s; induction fuel as [|fuel IH]; intros i s Hex; simpl in *.
  - by apply for_loop_skip.
  - destruct (cond i) eqn:Hc; [apply IH; auto | done].
Qed.

End ForLoop.

(** Two loops with the same control run in lockstep. *)
Lemma for_loop_rel {S1 S2 : Type} (Rel : S1 -> S2 -> Prop)
  (cond : nat -> bool) (step : nat -> nat)
  (body1 : nat -> S1 -> S1) (body2 : nat -> S2 -> S2) fuel i s1 s2 :
  (forall i s1 s2, cond i = true -> Rel s1 s2 ->
                   Rel (body1 i s1) (body2 i s2)) ->
  Rel s1 s2 ->
  Rel (for_loop fuel cond step body1 i s1) (for_loop fuel cond step body2 i s2).
Proof.
  intros Hbody; revert i s1 s2; induction fuel as [|fuel IH];
    intros i s1 s2 Hs; simpl; [done|].
  destruct (cond i) eqn:Hc; [apply IH, Hbody; done | done].
Qed.

(** A counting loop [for (i = i0; i < n; i++)] visits [i0, ..., n - 1]. *)
Lemma for_trace_count fuel n i0 :
  n - i0 <= fuel ->
  for_trace fuel (fun i => i <? n) S i0 = seq i0 (n - i0).
Proof.
  revert i0; induction fuel as [|fuel IH]; intros i0 Hf; simpl.
  - by replace (n - i0) with 0 by lia.
  - destruct (Nat.ltb_spec i0 n) as [Hlt|Hge].
    + rewrite IH by lia. replace (n - i0) with (S (n - S i0)) by lia. done.
    + by replace (n - i0) with 0 by lia.
Qed.

Lemma for_loop_count {St : Type} (body : nat -> St -> St) fuel n i0 s :
  n - i0 <= fuel ->
  for_loop fuel (fun i => i <? n) S body i0 s
  = fold_left (fun s i => body i s) (seq i0 (n - i0)) s.
Proof. intros Hf. by rewrite for_loop_fold, for_trace_count. Qed.

Lemma exits_count fuel n i0 :
  n - i0 <= fuel -> exits (fun i => i <? n) S fuel i0.
Proof.
  revert i0; induction fuel as [|fuel IH]; intros i0 Hf; simpl.
  - apply Nat.ltb_ge. lia.
  - intros Hc%Nat.ltb_lt. apply IH. lia.
Qed.

(** ** Framing *)

Lemma frame_trace_spec F H L fuel s0 start :
  0 < H -> L - s0 <= fuel ->
  In start
    (for_trace fuel (fun start => start + F <? L) (fun start => start + H) s0)
  <-> (exists i, start = s0 + i * H) /\ start + F < L.
Proof.
  intros HH; revert s0; induction fuel as [|fuel IH]; intros s0 Hf; simpl.
  - split; [done|]. intros [[i ->] Hlt]. lia.
  - destruct (Nat.ltb_spec (s0 + F) L) as [Hlt|Hge]; simpl.
    + rewrite IH by lia. split.
      * intros [<-|[[i ->] Hs]]; [split; [by exists 0; lia | done]|].
        split; [exists (S i); lia | done].
      * intros [[[|i] ->] Hs]; [left; lia | right].
        split; [exists i; lia | done].
    + split; [done|]. intros [[i ->] Hlt]. lia.
Qed.

(** The frame loops read a frame at [start] exactly when [start] is a
    multiple of the hop size and [start + fftSize < data.length]. *)
Lemma frameStarts_spec F H L start :
  0 < H ->
  In start (frameStarts F H L) <-> (exists i, start = i * H) /\ start + F < L.
Proof.
  intros HH. unfold frameStarts. rewrite frame_trace_spec by lia.
  by setoid_rewrite Nat.add_0_l.
Qed.

Lemma frame_trace_nth F H L fuel s0 i :
  i < length (for_trace fuel (fun start => start + F <? L)
                (fun start => start + H) s0) ->
  nth i (for_trace fuel (fun start => start + F <? L)
           (fun start => start + H) s0) 0 = s0 + i * H.
Proof.
  revert s0 i; induction fuel as [|fuel IH]; intros s0 i; simpl; [lia|].
  destruct (s0 + F <? L); simpl; [|lia].
  destruct i as [|i]; [lia|]. intros Hi. rewrite IH by lia. lia.
Qed.

(** The [i]-th frame starts at sample [i * hopSize]. *)
Lemma frameStarts_nth F H L i :
  i < length (frameStarts F H L) -> nth i (frameStarts F H L) 0 = i * H.
Proof. apply frame_trace_nth. Qed.

(** Both frame loops leave through their condition: the bound
    [data.length] on the iterations is never what stops them. *)
Lemma exits_frames F H L fuel s0 :
  0 < H -> L - s0 <= fuel ->
  exits (fun start => start + F <? L) (fun start => start + H) fuel s0.
Proof.
  intros HH; revert s0; induction fuel as [|fuel IH]; intros s0 Hf; simpl.
  - apply Nat.ltb_ge. lia.
  - intros _. apply IH. lia.
Qed.

Lemma accumulateChroma_frames sampleRate data F H :
  accumulateChroma sampleRate data F H
  = fold_left (fun chroma start => chroma_frame sampleRate data F start chroma)
      (frameStarts F H (length data)) (repeat 0%R 12).
Proof. apply for_loop_fold. Qed.

Lemma computeSpectralFlux_frames data F H :
  computeSpectralFlux data F H
  = snd (fold_left (fun st start => flux_frame data F start st)
           (frameStarts F H (length data)) (None, [])).
Proof. unfold computeSpectralFlux. by rewrite for_loop_fold. Qed.

Lemma frameStarts_exact_length F H : frameStarts F H F = [].
Proof.
  unfold frameStarts. destruct F as [|F]; simpl; [done|].
  by rewrite Nat.ltb_irrefl.
Qed.

(** C4 (the code departs from the claim).  The claim has a frame emitted
    exactly when [start + F <= L], so that a buffer of length exactly [F]
    yields one frame.  Both loops test [start + fftSize < data.length]: on a
    buffer whose length is the frame size no frame is read at all, the
    chroma vector stays at its initial zeros and no flux value is produced. *)
Theorem C4_buffer_of_frame_length_yields_no_frame :
  forall (sampleRate : R) (data : list R) (hopSize : nat),
    frameStarts (length data) hopSize (length data) = []
    /\ accumulateChroma sampleRate data (length data) hopSize = repeat 0%R 12
    /\ computeSpectralFlux data (length data) hopSize = [].
Proof.
  intros sampleRate data hopSize.
  rewrite accumulateChroma_frames, computeSpectralFlux_frames.
  by rewrite frameStarts_exact_length.
Qed.

(** ** Comparisons, rounding, maxima *)

Lemma Rltb_true x y : Rltb x y = true <-> (x < y)%R.
Proof. unfold Rltb. destruct (Rlt_dec x y); split; (done || lra). Qed.

Lemma Rltb_false x y : Rltb x y = false <-> (y <= x)%R.
Proof. unfold Rltb. destruct (Rlt_dec x y); split; (done || lra). Qed.

Lemma Rleb_true x y : Rleb x y = true <-> (x <= y)%R.
Proof. unfold Rleb. destruct (Rle_dec x y); split; (done || lra). Qed.

Lemma Rleb_false x y : Rleb x y = false <-> (y < x)%R.
Proof. unfold Rleb. destruct (Rle_dec x y); split; (done || lra). Qed.

Lemma Reqb_true x y : Reqb x y = true <-> x = y.
Proof. unfold Reqb. destruct (Req_dec_T x y); split; done. Qed.

Lemma Reqb_false x y : Reqb x y = false <-> x <> y.
Proof. unfold Reqb. destruct (Req_dec_T x y); split; done. Qed.

Lemma or_default_zero d : or_default 0 d = d.
Proof. unfold or_default. by rewrite (proj2 (Reqb_true 0 0)). Qed.

Lemma or_default_nonzero x d : x <> 0%R -> or_default x d = x.
Proof. intros H. unfold or_default. by rewrite (proj2 (Reqb_false x 0)). Qed.

(** [Math.round] of half an integer. *)
Lemma Math_round_half (b : Z) : Math_round (IZR b / 2) = ((b + 1) / 2)%Z.
Proof.
  unfold Math_round. apply Zfloor_eq.
  pose proof (Z.div_mod (b + 1) 2 ltac:(lia)) as Hdm.
  pose proof (Z.mod_pos_bound (b + 1) 2 ltac:(lia)) as Hm.
  assert (IZR (b + 1) = IZR (2 * ((b + 1) / 2) + (b + 1) mod 2)) as HR
    by (f_equal; done).
  rewrite plus_IZR, plus_IZR, mult_IZR in HR.
  assert (0 <= IZR ((b + 1) mod 2) <= 1)%R as [H0 H1].
  { split; [apply IZR_le; lia|]. apply IZR_le. lia. }
  lra.
Qed.

Lemma Math_round_lower (x : R) (z : Z) : (IZR z <= x)%R -> (z <= Math_round x)%Z.
Proof. intros H. unfold Math_round. apply Zfloor_lub. lra. Qed.

Lemma fold_left_Rmax_ge l x : (x <= fold_left Rmax l x)%R.
Proof.
  revert x; induction l as [|y l IH]; intros x; simpl; [lra|].
  etransitivity; [apply (Rmax_l x y) | apply IH].
Qed.

Lemma fold_left_Rmax_upper l x y :
  In y l -> (y <= fold_left Rmax l x)%R.
Proof.
  revert x; induction l as [|z l IH]; intros x; simpl; [done|].
  intros [->|Hin]; [|by apply IH].
  etransitivity; [apply (Rmax_r x y) | apply fold_left_Rmax_ge].
Qed.

Lemma fold_left_Rmax_in l x :
  fold_left Rmax l x = x \/ In (fold_left Rmax l x) l.
Proof.
  revert x; induction l as [|y l IH]; intros x; simpl; [by left|].
  destruct (IH (Rmax x y)) as [Heq|Hin]; [|by right; right].
  rewrite Heq. unfold Rmax. destruct (Rle_dec x y); [right; by left | by left].
Qed.

Lemma Math_max_upper l y : In y l -> (y <= Math_max l)%R.
Proof.
  destruct l as [|x l]; simpl; [done|].
  intros [->|Hin]; [apply fold_left_Rmax_ge | by apply fold_left_Rmax_upper].
Qed.

Lemma Math_max_in l : l <> [] -> In (Math_max l) l.
Proof.
  destruct l as [|x l]; simpl; [done|]. intros _.
  destruct (fold_left_Rmax_in l x) as [->|Hin]; [by left | by right].
Qed.

Lemma fold_left_Rmax_scale (k : R) l x :
  (0 <= k)%R ->
  fold_left Rmax (map (Rmult k) l) (k * x)%R = (k * fold_left Rmax l x)%R.
Proof.
  intros Hk; revert x; induction l as [|y l IH]; intros x; simpl; [done|].
  rewrite <- IH. f_equal. by rewrite RmaxRmult.
Qed.

Lemma Math_max_scale (k : R) l :
  (0 <= k)%R -> Math_max (map (Rmult k) l) = (k * Math_max l)%R.
Proof.
  intros Hk. destruct l as [|x l]; simpl; [lra|].
  by apply fold_left_Rmax_scale.
Qed.

(** ** [Array.prototype.sort] *)

Section Sort.
Context {A : Type}.
Variable gt : A -> A -> bool.

Lemma sort_insert_perm x l : Permutation (sort_insert gt x l) (x :: l).
Proof.
  induction l as [|y l IH]; simpl; [done|].
  destruct (gt x y); [|done].
  rewrite IH. apply perm_swap.
Qed.

Lemma js_sort_perm l : Permutation (js_sort gt l) l.
Proof.
  induction l as [|x l IH]; simpl; [done|].
  rewrite sort_insert_perm. by constructor.
Qed.

Lemma js_sort_length l : length (js_sort gt l) = length l.
Proof. apply Permutation_length, js_sort_perm. Qed.

Lemma js_sort_nil_inv l : js_sort gt l = [] -> l = [].
Proof.
  intros H. apply length_zero_iff_nil.
  by rewrite <- js_sort_length, H.
Qed.

(** The order for which the comparator stands. *)
Variable le : A -> A -> Prop.
Hypothesis le_trans : forall x y z, le x y -> le y z -> le x z.
Hypothesis gt_false : forall x y, gt x y = false -> le x y.
Hypothesis gt_true : forall x y, gt x y = true -> le y x.

Lemma sort_insert_sorted x l :
  StronglySorted le l -> StronglySorted le (sort_insert gt x l).
Proof.
  induction 1 as [|y l Hl IH Hy]; simpl; [repeat constructor|].
  destruct (gt x y) eqn:Hg.
  - constructor; [done|].
    rewrite sort_insert_perm.
    constructor; [by apply gt_true | done].
  - constructor; [by constructor|].
    constructor; [by apply gt_false|].
    eapply Forall_impl; [exact Hy|]. intros z Hz.
    eapply le_trans; [apply gt_false, Hg | done].
Qed.

Lemma js_sort_sorted l : StronglySorted le (js_sort gt l).
Proof.
  induction l as [|x l IH]; simpl; [constructor | by apply sort_insert_sorted].
Qed.

End Sort.

(** ** Ranking of the key candidates (lines 159-172) *)

Lemma ranked_sorted candidates :
  StronglySorted corr_ge (js_sort by_correlation_desc candidates).
Proof.
  apply js_sort_sorted; unfold corr_ge, by_correlation_desc.
  - intros x y z ? ?. lra.
  - intros x y H%Rltb_false. lra.
  - intros x y H%Rltb_true. lra.
Qed.

(** With at least six tuples, the sorted array starts with six tuples in
    non-increasing order of correlation, and nothing after them is larger
    than the sixth. *)
Lemma ranked_shape candidates :
  6 <= length candidates ->
  exists a b c d e f,
    js_sort by_correlation_desc candidates
    = [a; b; c; d; e; f] ++ belowTopSix candidates
    /\ topSix candidates = [a; b; c; d; e; f]
    /\ corr_ge a b /\ corr_ge b c /\ corr_ge c d /\ corr_ge d e /\ corr_ge e f
    /\ Forall (corr_ge f) (belowTopSix candidates).
Proof.
  intros Hlen. unfold topSix, belowTopSix, slice.
  pose proof (ranked_sorted candidates) as Hs.
  pose proof (js_sort_length by_correlation_desc candidates) as Hl.
  destruct (js_sort by_correlation_desc candidates)
    as [|a [|b [|c [|d [|e [|f rest]]]]]]; simpl in Hl; try lia.
  exists a, b, c, d, e, f. simpl.
  repeat match goal with
         | H : StronglySorted _ (_ :: _) |- _ =>
             apply StronglySorted_inv in H; destruct H
         | H : Forall _ (_ :: _) |- _ =>
             apply Forall_cons_1 in H; destruct H
         end.
  repeat split; done.
Qed.

Lemma rankCandidates_topSix candidates :
  6 <= length candidates ->
  exists a b c d e f,
    topSix candidates = [a; b; c; d; e; f]
    /\ rankCandidates candidates
       = map (fun x =>
                KeyCandidate.mk (Scored.key x) (Scored.mode x)
                  (code_confidence (Scored.correlation x)
                     (Scored.correlation f) (Scored.correlation a)))
           [a; b; c; d; e; f].
Proof.
  intros Hlen.
  destruct (ranked_shape candidates Hlen)
    as (a & b & c & d & e & f & Hsort & Htop & _).
  exists a, b, c, d, e, f. split; [done|].
  unfold rankCandidates. fold (topSix candidates). rewrite Htop. done.
Qed.

Lemma fold_left_push {A B : Type} (f : B -> list A) (l : list B) acc :
  fold_left (fun acc x => acc ++ f x) l acc = acc ++ flat_map f l.
Proof.
  revert acc; induction l as [|x l IH]; intros acc; simpl.
  - by rewrite app_nil_r.
  - by rewrite IH, app_assoc.
Qed.

Lemma keyCorrelations_eq chroma :
  keyCorrelations chroma = flat_map (scores_of_shift chroma) (seq 0 12).
Proof.
  unfold keyCorrelations. rewrite for_loop_count by lia.
  change (12 - 0) with 12.
  exact (fold_left_push (scores_of_shift chroma) (seq 0 12) []).
Qed.

Lemma keyCorrelations_length chroma : length (keyCorrelations chroma) = 24.
Proof. by rewrite keyCorrelations_eq. Qed.

Lemma shiftChroma_eq chroma shift :
  shiftChroma chroma shift
  = map (fun i => nth ((i + shift) mod 12) chroma 0%R) (seq 0 12).
Proof.
  unfold shiftChroma. rewrite for_loop_count by lia.
  change (12 - 0) with 12.
  exact (fold_left_push
           (fun i => [nth ((i + shift) mod 12) chroma 0%R]) (seq 0 12) []).
Qed.

Lemma detectKeyWith_rank fftSize hopSize audioBuffer :
  detectKeyWith fftSize hopSize audioBuffer
  = rankCandidates (keyScores fftSize hopSize audioBuffer).
Proof. reflexivity. Qed.

(** First and last of a non-increasing run of six are its largest and
    smallest correlation. *)
Lemma six_extrema a b c d e f :
  corr_ge a b -> corr_ge b c -> corr_ge c d -> corr_ge d e -> corr_ge e f ->
  maxCorrelation [a; b; c; d; e; f] = Scored.correlation a
  /\ minCorrelation [a; b; c; d; e; f] = Scored.correlation f.
Proof.
  unfold corr_ge, maxCorrelation, minCorrelation, correlations_of. simpl.
  intros Hab Hbc Hcd Hde Hef. split.
  - rewrite (Rmax_left (Scored.correlation a) (Scored.correlation b)) by lra.
    rewrite (Rmax_left (Scored.correlation a) (Scored.correlation c)) by lra.
    rewrite (Rmax_left (Scored.correlation a) (Scored.correlation d)) by lra.
    rewrite (Rmax_left (Scored.correlation a) (Scored.correlation e)) by lra.
    apply Rmax_left. lra.
  - rewrite (Rmin_right (Scored.correlation a) (Scored.correlation b)) by lra.
    rewrite (Rmin_right (Scored.correlation b) (Scored.correlation c)) by lra.
    rewrite (Rmin_right (Scored.correlation c) (Scored.correlation d)) by lra.
    rewrite (Rmin_right (Scored.correlation d) (Scored.correlation e)) by lra.
    apply Rmin_right. lra.
Qed.

Lemma top_six_rescaled fftSize hopSize audioBuffer :
  let candidates := keyScores fftSize hopSize audioBuffer in
  let top := topSix candidates in
  length candidates = 24
  /\ length top = 6
  /\ Permutation candidates (top ++ belowTopSix candidates)
  /\ (forall x y, In x top -> In y (belowTopSix candidates) -> corr_ge x y)
  /\ detectKeyWith fftSize hopSize audioBuffer
     = map (fun x =>
              KeyCandidate.mk (Scored.key x) (Scored.mode x)
                (code_confidence (Scored.correlation x)
                   (minCorrelation top) (maxCorrelation top)))
         top.
Proof.
  intros candidates top.
  assert (length candidates = 24) as Hlen by apply keyCorrelations_length.
  destruct (ranked_shape candidates ltac:(lia))
    as (a & b & c & d & e & f & Hsort & Htop & Hab & Hbc & Hcd & Hde & Hef
        & Hrest).
  destruct (six_extrema a b c d e f Hab Hbc Hcd Hde Hef) as [Hmax Hmin].
  subst top. rewrite Htop.
  split; [exact Hlen|]. split; [reflexivity|]. split; [|split].
  - rewrite <- Hsort. symmetry. apply js_sort_perm.
  - intros x y Hx Hy. rewrite Forall_forall in Hrest.
    apply list_elem_of_In in Hy. specialize (Hrest y Hy). unfold corr_ge in *.
    simpl in Hx. intuition subst; lra.
  - rewrite detectKeyWith_rank. fold candidates.
    destruct (rankCandidates_topSix candidates ltac:(lia))
      as (a' & b' & c' & d' & e' & f' & Htop' & Hrank).
    rewrite Htop in Htop'. injection Htop' as <- <- <- <- <- <-.
    rewrite Hrank, Hmax, Hmin. reflexivity.
Qed.

(** C5 (amended).  The six candidates [detectKey] returns come from the six
    of the 24 scored tuples with the largest correlation (every tuple left
    out has a correlation no larger than every tuple kept), in that order,
    and the confidence of each is [(corr - minCorrInTop6) / range] where
    [range] is [maxCorrInTop6 - minCorrInTop6], replaced by 1 when that
    difference is 0 and only then. *)
Theorem C5_top_six_rescaled_by_range_or_one :
  forall audioBuffer : AudioBuffer.t,
    let candidates := keyScores 8192 4096 audioBuffer in
    let top := topSix candidates in
    length candidates = 24
    /\ length top = 6
    /\ Permutation candidates (top ++ belowTopSix candidates)
    /\ (forall x y, In x top -> In y (belowTopSix candidates) -> corr_ge x y)
    /\ detectKey audioBuffer
       = map (fun x =>
                KeyCandidate.mk (Scored.key x) (Scored.mode x)
                  (code_confidence (Scored.correlation x)
                     (minCorrelation top) (maxCorrelation top)))
           top.
Proof. intros audioBuffer. exact (top_six_rescaled 8192 4096 audioBuffer). Qed.

(** Deciding the comparisons of a sort on explicit numbers. *)
Ltac decide_order cmp :=
  match goal with
  | |- context [cmp ?a ?b] =>
      first
        [ replace (cmp a b) with true
            by (symmetry; unfold cmp; apply Rltb_true; simpl; lra)
        | replace (cmp a b) with false
            by (symmetry; unfold cmp; apply Rltb_false; simpl; lra) ]
  end.

(** Deciding [Rmax] and [Rmin] of explicit numbers in a hypothesis. *)
Ltac decide_minmax H :=
  repeat match type of H with
         | context [Rmax ?x ?y] =>
             first [ rewrite (Rmax_left x y) in H by lra
                   | rewrite (Rmax_right x y) in H by lra ]
         | context [Rmin ?x ?y] =>
             first [ rewrite (Rmin_left x y) in H by lra
                   | rewrite (Rmin_right x y) in H by lra ]
         end.

Ltac run_sort cmp :=
  unfold js_sort;
  repeat (cbn [fold_right sort_insert]; try decide_order cmp).

Lemma c_major_scores_sorted :
  js_sort by_correlation_desc c_major_scores
  = [Scored.mk "C" major 0.95; Scored.mk "E" minor 0.73;
     Scored.mk "G" major 0.67; Scored.mk "A" minor 0.6;
     Scored.mk "C" minor 0.42; Scored.mk "F" major 0.37;
     Scored.mk "G" minor 0.25; Scored.mk "D" minor 0.12;
     Scored.mk "D" major 0.09; Scored.mk "F" minor 0.04;
     Scored.mk "E" major 0.01; Scored.mk "A" major 0.01;
     Scored.mk "A#" major (-0.08); Scored.mk "B" minor (-0.08);
     Scored.mk "C#" minor (-0.14); Scored.mk "D#" major (-0.14);
     Scored.mk "G#" major (-0.24); Scored.mk "F#" minor (-0.37);
     Scored.mk "G#" minor (-0.39); Scored.mk "B" major (-0.4);
     Scored.mk "A#" minor (-0.49); Scored.mk "C#" major (-0.55);
     Scored.mk "D#" minor (-0.68); Scored.mk "F#" major (-0.68)]%R.
Proof.
  unfold c_major_scores. run_sort by_correlation_desc. reflexivity.
Qed.

(** C5, as stated, fails.  On 24 scores whose six largest are 0.95, 0.73,
    0.67, 0.6, 0.42 and 0.37 the code divides by their range 0.58, so the
    first candidate has confidence 1; with the denominator floored to a
    minimum of 1 it would have confidence 0.58. *)
Lemma C5_denominator_is_not_floored_to_one :
  length c_major_scores = 24
  /\ map KeyCandidate.confidence (rankCandidates c_major_scores)
     <> map (fun x =>
               spec_confidence (Scored.correlation x)
                 (minCorrelation (topSix c_major_scores))
                 (maxCorrelation (topSix c_major_scores)))
          (topSix c_major_scores).
Proof.
  split; [reflexivity|].
  unfold rankCandidates, topSix. rewrite c_major_scores_sorted.
  unfold slice, correlation_at, maxCorrelation, minCorrelation. cbn.
  intros Heq. injection Heq as Hhead _.
  unfold spec_confidence in Hhead.
  rewrite or_default_nonzero in Hhead by lra.
  decide_minmax Hhead. lra.
Qed.

(** Facts on the rescaling [(x - m) / (M - m || 1)]. *)
Lemma code_confidence_min m M : code_confidence m m M = 0%R.
Proof. unfold code_confidence. unfold Rdiv. ring. Qed.

Lemma code_confidence_max m M :
  M <> m -> code_confidence M m M = 1%R.
Proof.
  intros H. unfold code_confidence.
  rewrite or_default_nonzero by lra. field. lra.
Qed.

Lemma code_confidence_flat m x : code_confidence x m m = (x - m)%R.
Proof.
  unfold code_confidence. replace (m - m)%R with 0%R by ring.
  rewrite or_default_zero. field.
Qed.

Lemma code_confidence_mono m M x y :
  (m <= M)%R -> (x <= y)%R ->
  (code_confidence x m M <= code_confidence y m M)%R.
Proof.
  intros HmM Hxy. unfold code_confidence.
  assert (0 < or_default (M - m) 1)%R as Hpos.
  { destruct (Req_dec_T (M - m) 0) as [->|Hne].
    - rewrite or_default_zero. lra.
    - rewrite or_default_nonzero by done. lra. }
  apply Rmult_le_compat_r; [|lra].
  left. by apply Rinv_0_lt_compat.
Qed.

Lemma ranked_confidences fftSize hopSize audioBuffer :
  let top := topSix (keyScores fftSize hopSize audioBuffer) in
  exists c0 c1 c2 c3 c4 c5 : R,
    map KeyCandidate.confidence (detectKeyWith fftSize hopSize audioBuffer)
    = [c0; c1; c2; c3; c4; c5]
    /\ (c5 <= c4 <= c3)%R /\ (c3 <= c2 <= c1)%R /\ (c1 <= c0 <= 1)%R
    /\ c5 = 0%R
    /\ ((exists x y, In x top /\ In y top
                     /\ Scored.correlation x <> Scored.correlation y) ->
        c0 = 1%R)
    /\ ((forall x y, In x top -> In y top ->
                     Scored.correlation x = Scored.correlation y) ->
        c0 = 0%R).
Proof.
  intros top. subst top. rewrite detectKeyWith_rank.
  set (candidates := keyScores fftSize hopSize audioBuffer).
  assert (length candidates = 24) as Hlen by apply keyCorrelations_length.
  destruct (ranked_shape candidates ltac:(lia))
    as (a & b & c & d & e & f & _ & Htop & Hab & Hbc & Hcd & Hde & Hef & _).
  destruct (rankCandidates_topSix candidates ltac:(lia))
    as (a' & b' & c' & d' & e' & f' & Htop' & Hrank).
  rewrite Htop in Htop'. injection Htop' as <- <- <- <- <- <-.
  rewrite Hrank, Htop. unfold corr_ge in *. cbn [map KeyCandidate.confidence].
  set (m := Scored.correlation f) in *. set (M := Scored.correlation a) in *.
  assert (m <= M)%R as HmM by lra.
  do 6 eexists. split; [reflexivity|].
  split; [split; apply code_confidence_mono; lra|].
  split; [split; apply code_confidence_mono; lra|].
  split; [split; [apply code_confidence_mono; lra|]|].
  { destruct (Req_dec_T M m) as [Heq|Hne].
    - rewrite Heq, code_confidence_flat. lra.
    - rewrite code_confidence_max by done. lra. }
  split; [apply code_confidence_min|]. split.
  - intros (x & y & Hx & Hy & Hxy). apply code_confidence_max.
    intros Heq. apply Hxy. simpl in Hx, Hy.
    assert (forall z, In z [a; b; c; d; e; f] -> Scored.correlation z = m)
      as Hall.
    { intros z Hz. simpl in Hz. subst m M. intuition subst; lra. }
    by rewrite (Hall x Hx), (Hall y Hy).
  - intros Hall.
    assert (M = m) as -> by (subst M m; apply Hall; simpl; tauto).
    rewrite code_confidence_flat. lra.
Qed.

(** C10.  [detectKey] returns exactly six candidates; their confidences are
    non-increasing from first to last and lie in [[0,1]]; the last is 0; the
    first is 1 when the six retained correlations are not all equal and 0
    when they are. *)
Theorem C10_six_candidates_with_ranked_confidences :
  forall audioBuffer : AudioBuffer.t,
    let top := topSix (keyScores 8192 4096 audioBuffer) in
    exists c0 c1 c2 c3 c4 c5 : R,
      map KeyCandidate.confidence (detectKey audioBuffer)
      = [c0; c1; c2; c3; c4; c5]
      /\ (c5 <= c4 <= c3)%R /\ (c3 <= c2 <= c1)%R /\ (c1 <= c0 <= 1)%R
      /\ c5 = 0%R
      /\ ((exists x y, In x top /\ In y top
                       /\ Scored.correlation x <> Scored.correlation y) ->
          c0 = 1%R)
      /\ ((forall x y, In x top -> In y top ->
                       Scored.correlation x = Scored.correlation y) ->
          c0 = 0%R).
Proof. intros audioBuffer. exact (ranked_confidences 8192 4096 audioBuffer). Qed.

(** ** The degenerate tempo result (lines 209-211 and 250-252) *)

Lemma fold_left_inv {A B : Type} (P : A -> Prop) (f : A -> B -> A) l s :
  (forall x s, In x l -> P s -> P (f s x)) -> P s -> P (fold_left f l s).
Proof.
  revert s; induction l as [|x l IH]; intros s Hf Hs; simpl; [done|].
  apply IH.
  - intros y s' Hy. apply Hf. by right.
  - apply Hf; [by left | done].
Qed.

Lemma findPeaks_eq sampleRate hopSize correlations :
  findPeaks sampleRate hopSize correlations
  = fold_left (fun peaks i => peak_body sampleRate hopSize correlations i peaks)
      (seq 1 (length correlations - 1 - 1)) [].
Proof. unfold findPeaks. by rewrite for_loop_count by lia. Qed.

Lemma findPeaks_nil sampleRate hopSize correlations :
  noStrictLocalMaximum correlations ->
  findPeaks sampleRate hopSize correlations = [].
Proof.
  intros Hno. rewrite findPeaks_eq.
  apply (fold_left_inv (fun peaks => peaks = [])); [|done].
  intros i peaks Hi%in_seq ->. unfold peak_body.
  destruct (Rltb _ _) eqn:H1; [|done].
  destruct (Rltb _ _) eqn:H2 in |- *; [|done].
  apply Rltb_true in H1, H2. destruct (Hno i); [lia | lia | done].
Qed.

Lemma tempoFromFlux_short sampleRate hopSize spectralFlux :
  length spectralFlux < 100 ->
  tempoFromFlux sampleRate hopSize spectralFlux = degenerate.
Proof.
  intros H%Nat.ltb_lt. unfold tempoFromFlux. by rewrite H.
Qed.

Lemma tempoFromFlux_no_peak sampleRate hopSize spectralFlux :
  noStrictLocalMaximum
    (autocorrelation sampleRate hopSize (normalizeFlux spectralFlux)) ->
  tempoFromFlux sampleRate hopSize spectralFlux = degenerate.
Proof.
  intros H. unfold tempoFromFlux.
  destruct (length spectralFlux <? 100); [done|].
  by rewrite (findPeaks_nil _ _ _ H).
Qed.

(** C2.  When the flux pass yields fewer than 100 values, and when the
    autocorrelation of the normalised flux has no strict local maximum,
    [detectBPM] returns [{bpm: 120, confidence: 0, alternatives: []}]. *)
Theorem C2_degenerate_on_short_flux_or_no_peak :
  forall audioBuffer : AudioBuffer.t,
    let sampleRate := AudioBuffer.sampleRate audioBuffer in
    let spectralFlux :=
      computeSpectralFlux (AudioBuffer.channelData audioBuffer) 2048 512 in
    length spectralFlux < 100
    \/ noStrictLocalMaximum
         (autocorrelation sampleRate 512 (normalizeFlux spectralFlux)) ->
    detectBPM audioBuffer = BPMResult.mk 120 0 [].
Proof.
  intros audioBuffer sampleRate spectralFlux [Hshort|Hflat].
  - by apply tempoFromFlux_short.
  - by apply tempoFromFlux_no_peak.
Qed.

(** The empty buffer yields no flux value at all. *)
Lemma C2_witness_empty_buffer :
  detectBPM (AudioBuffer.mk 44100 []) = BPMResult.mk 120 0 [].
Proof.
  apply (C2_degenerate_on_short_flux_or_no_peak (AudioBuffer.mk 44100 [])).
  left. cbn. lia.
Defined.

(** ** The alternatives (lines 272-297) *)

Lemma set_add_In x y s : In y (set_add x s) <-> y = x \/ In y s.
Proof.
  unfold set_add. destruct (existsb (Z.eqb x) s) eqn:He.
  - apply existsb_exists in He as (z & Hz & ->%Z.eqb_eq). intuition congruence.
  - rewrite in_app_iff. simpl. intuition.
Qed.

Lemma set_add_NoDup x s : List.NoDup s -> List.NoDup (set_add x s).
Proof.
  intros Hs. unfold set_add. destruct (existsb (Z.eqb x) s) eqn:He; [done|].
  apply List.NoDup_app; [done | repeat constructor; by intros [] |].
  intros z Hz [->|[]].
  assert (existsb (Z.eqb z) s = true) as Ht; [|congruence].
  apply existsb_exists. exists z. split; [done | apply Z.eqb_refl].
Qed.

Lemma set_delete_In x y s : In y (set_delete x s) <-> In y s /\ y <> x.
Proof.
  unfold set_delete. rewrite filter_In, negb_true_iff, Z.eqb_neq. done.
Qed.

Lemma set_delete_NoDup x s : List.NoDup s -> List.NoDup (set_delete x s).
Proof. apply List.NoDup_filter. Qed.

Lemma alternative_body_NoDup bpm peaks s :
  List.NoDup s -> List.NoDup (fold_left (alternative_body bpm) peaks s).
Proof.
  revert s; induction peaks as [|p peaks IH]; intros s Hs; simpl; [done|].
  apply IH. unfold alternative_body.
  destruct (5 <? _)%Z; [by apply set_add_NoDup | done].
Qed.

Lemma alternative_body_In bpm peaks s x :
  In x (fold_left (alternative_body bpm) peaks s)
  <-> In x s
      \/ exists p, In p peaks /\ x = foldAlternative (Peak.bpm p)
                   /\ (5 < Z.abs (x - bpm))%Z.
Proof.
  revert s; induction peaks as [|p peaks IH]; intros s; simpl.
  - split; [by left | by intros [?|(? & [] & _)]].
  - rewrite IH. unfold alternative_body.
    destruct (Z.ltb_spec 5 (Z.abs (foldAlternative (Peak.bpm p) - bpm))).
    + rewrite set_add_In. split.
      * intros [[->|?]|(q & ? & ?)]; [right; exists p; tauto | tauto |].
        right. exists q. tauto.
      * intros [?|(q & [<-|?] & -> & ?)]; [tauto | tauto |].
        right. exists q. tauto.
    + split.
      * intros [?|(q & ? & ?)]; [tauto|]. right. exists q. tauto.
      * intros [?|(q & [<-|?] & -> & ?)]; [tauto | lia |].
        right. exists q. tauto.
Qed.

Lemma alternativeSet_NoDup bpm peaks : List.NoDup (alternativeSet bpm peaks).
Proof.
  unfold alternativeSet. apply alternative_body_NoDup.
  destruct (Rleb _ _); destruct (_ <=? _)%Z;
    repeat apply set_add_NoDup; constructor.
Qed.

(** What the set holds: the double of the primary tempo if at most 200, its
    rounded half if the half is at least 50, and the folded tempo of each of
    the next three peaks that differs from the primary by more than 5. *)
Lemma alternativeSet_In bpm peaks x :
  In x (alternativeSet bpm peaks)
  <-> (x = bpm * 2 /\ bpm * 2 <= 200)%Z
      \/ (x = Math_round (IZR bpm / 2) /\ (50 <= IZR bpm / 2)%R)
      \/ exists p, In p (slice peaks 1 4)
                   /\ x = foldAlternative (Peak.bpm p)
                   /\ (5 < Z.abs (x - bpm))%Z.
Proof.
  unfold alternativeSet. rewrite alternative_body_In.
  destruct (Rleb 50 (IZR bpm / 2)) eqn:Hh;
    [apply Rleb_true in Hh | apply Rleb_false in Hh];
    destruct (Z.leb_spec (bpm * 2) 200);
    rewrite ?set_add_In; simpl; intuition (try lia; try lra).
Qed.

Lemma ascending_sorted l : StronglySorted Z.le (js_sort ascending l).
Proof.
  apply js_sort_sorted; unfold ascending.
  - intros x y z. lia.
  - intros x y H%Z.ltb_ge. lia.
  - intros x y H%Z.ltb_lt. lia.
Qed.

Lemma sorted_NoDup_strict l :
  StronglySorted Z.le l -> List.NoDup l -> StronglySorted Z.lt l.
Proof.
  induction 1 as [|x l Hl IH Hx]; intros Hnd; [constructor|].
  apply List.NoDup_cons_iff in Hnd as [Hnin Hnd].
  constructor; [by apply IH|].
  rewrite List.Forall_forall in *. intros y Hy.
  specialize (Hx y Hy). assert (x <> y) by congruence. lia.
Qed.

Lemma take_In {A : Type} n (l : list A) x : In x (take n l) -> In x l.
Proof.
  revert n; induction l as [|y l IH]; intros [|n]; simpl; try done.
  intros [->|H]; [by left | right; by apply (IH n)].
Qed.

Lemma take_NoDup {A : Type} n (l : list A) :
  List.NoDup l -> List.NoDup (take n l).
Proof.
  revert n; induction l as [|y l IH]; intros [|n] H; simpl;
    try constructor.
  - apply List.NoDup_cons_iff in H as [Hnin _]. intros Hin. apply Hnin.
    by apply (take_In n).
  - apply List.NoDup_cons_iff in H as [_ H]. by apply IH.
Qed.

Lemma slice_0 {A : Type} (l : list A) n : slice l 0 n = take n l.
Proof. unfold slice. by rewrite Nat.sub_0_r. Qed.

(** The two tests on a half tempo, and its rounding, on integers. *)
Lemma Rleb_half (k b : Z) : Rleb (IZR k) (IZR b / 2) = (2 * k <=? b)%Z.
Proof.
  destruct (Z.leb_spec (2 * k) b) as [H|H].
  - apply Rleb_true. apply IZR_le in H. rewrite mult_IZR in H. lra.
  - apply Rleb_false. apply IZR_lt in H. rewrite mult_IZR in H. lra.
Qed.

(** Running the collection of alternatives on explicit peaks. *)
Ltac run_alternatives :=
  unfold collectAlternatives, spec_alternatives, alternativeSet,
    alternative_body, foldAlternative, foldPrimary;
  rewrite ?Rleb_half, ?Math_round_half;
  cbn [slice drop take fold_left Nat.sub Peak.bpm];
  rewrite ?Rleb_half, ?Math_round_half;
  vm_compute.

Lemma four_peaks_alternatives :
  foldPrimary 100 = 100%Z
  /\ set_delete 100 (alternativeSet 100 four_peaks) = [200; 50; 120; 89; 80]%Z
  /\ collectAlternatives 100 four_peaks = [50; 120; 200]%Z
  /\ spec_alternatives 100 four_peaks = [50; 80; 89]%Z.
Proof.
  split; [reflexivity|]. split; [|split]; unfold four_peaks.
  - run_alternatives. reflexivity.
  - run_alternatives. reflexivity.
  - run_alternatives. reflexivity.
Qed.

(** C6, as stated, fails.  With the primary tempo 100 and the next peaks at
    120, 89 and 80 the set holds, in insertion order, 200, 50, 120, 89, 80.
    The code keeps the first three inserted and sorts them: 50, 120, 200.
    Sorting before truncating would give the three smallest: 50, 80, 89. *)
Lemma C6_truncation_comes_before_sorting :
  let result := resultFromPeaks [0.2; 0.9; 0.2]%R four_peaks in
  BPMResult.bpm result = 100%Z
  /\ BPMResult.alternatives result = [50; 120; 200]%Z
  /\ spec_alternatives (BPMResult.bpm result) four_peaks = [50; 80; 89]%Z
  /\ BPMResult.alternatives result
     <> spec_alternatives (BPMResult.bpm result) four_peaks.
Proof.
  destruct four_peaks_alternatives as (Hp & _ & Hc & Hs).
  cbn [resultFromPeaks four_peaks BPMResult.bpm BPMResult.alternatives
         Peak.bpm].
  fold four_peaks. rewrite Hp, Hc, Hs. repeat split; discriminate.
Qed.

(** C6 (amended).  The returned alternatives are obtained from the
    candidate set by deduplicating and removing the primary tempo, then
    truncating to the first 3 in insertion order (double and half of the
    primary first, then the other peaks by decreasing strength), and then
    sorting these ascending.  When the set has at most 3 members this is
    the sorted set. *)
Theorem C6_alternatives_truncated_then_sorted :
  forall (correlations : list R) (bestPeak : Peak.t)
         (otherPeaks : list Peak.t),
    let peaks := bestPeak :: otherPeaks in
    let result := resultFromPeaks correlations peaks in
    let bpm := BPMResult.bpm result in
    let inserted := set_delete bpm (alternativeSet bpm peaks) in
    List.NoDup inserted
    /\ ~ In bpm inserted
    /\ (forall x, In x inserted <-> In x (alternativeSet bpm peaks) /\ x <> bpm)
    /\ Permutation (BPMResult.alternatives result) (take 3 inserted)
    /\ StronglySorted Z.lt (BPMResult.alternatives result)
    /\ (length inserted <= 3 ->
        BPMResult.alternatives result = spec_alternatives bpm peaks).
Proof.
  intros correlations bestPeak otherPeaks peaks result bpm inserted.
  assert (List.NoDup inserted) as Hnd
    by apply set_delete_NoDup, alternativeSet_NoDup.
  assert (BPMResult.alternatives result = js_sort ascending (take 3 inserted))
    as Halt.
  { unfold result, resultFromPeaks, peaks. cbn [BPMResult.alternatives].
    unfold collectAlternatives. by rewrite slice_0. }
  split; [done|]. split; [|split; [|split; [|split]]].
  - intros [_ H]%set_delete_In. done.
  - intros x. apply set_delete_In.
  - rewrite Halt. apply js_sort_perm.
  - rewrite Halt. apply sorted_NoDup_strict; [apply ascending_sorted|].
    eapply Permutation_NoDup; [symmetry; apply js_sort_perm|].
    by apply take_NoDup.
  - intros Hlen. rewrite Halt. unfold spec_alternatives. fold inserted.
    rewrite slice_0, !firstn_all2; [done | | done].
    by rewrite js_sort_length.
Qed.

(** ** The range of the peak tempi *)

(** A loop that counts up by one visits consecutive values, all of which
    pass its condition. *)
Lemma for_trace_succ fuel cond i0 :
  for_trace fuel cond S i0 = seq i0 (length (for_trace fuel cond S i0))
  /\ Forall (fun k => cond k = true) (for_trace fuel cond S i0).
Proof.
  revert i0; induction fuel as [|fuel IH]; intros i0; simpl; [done|].
  destruct (cond i0) eqn:Hc; simpl; [|done].
  destruct (IH (S i0)) as [Heq Hall]. split; [by rewrite <- Heq|].
  by constructor.
Qed.

Lemma fold_left_push_length {A B : Type} (f : B -> A) (l : list B) acc :
  length (fold_left (fun acc x => acc ++ [f x]) l acc) = length acc + length l.
Proof.
  rewrite (fold_left_push (fun x => [f x])), length_app. f_equal.
  induction l as [|x l IH]; simpl; [done | by rewrite IH].
Qed.

(** The last lag of the autocorrelation is at most [maxLag]. *)
Lemma autocorrelation_length sampleRate hopSize spectralFlux :
  let n := length (autocorrelation sampleRate hopSize spectralFlux) in
  0 < n ->
  (Z.of_nat (Z.to_nat (minLag sampleRate hopSize) + n - 1)
   <= maxLag sampleRate hopSize)%Z.
Proof.
  unfold autocorrelation. rewrite for_loop_fold.
  set (cond := fun lag : nat => _ && _).
  set (i0 := Z.to_nat _).
  destruct (for_trace_succ (length spectralFlux) cond i0) as [Heq Hall].
  unfold correlation_body.
  rewrite (fold_left_push_length
             (fun lag =>
                (for_loop _ _ S _ 0 0%R
                 / (INR (length spectralFlux) - INR lag))%R)).
  simpl. intros Hn.
  rewrite List.Forall_forall in Hall.
  assert (In (i0 + length (for_trace (length spectralFlux) cond S i0) - 1)
            (for_trace (length spectralFlux) cond S i0)) as Hin.
  { rewrite Heq at 2. apply in_seq. lia. }
  apply Hall in Hin. unfold cond in Hin.
  apply andb_true_iff in Hin as [Hle%Z.leb_le _]. done.
Qed.

Lemma framesPerSecond_pos sampleRate hopSize :
  (0 < sampleRate)%R -> 0 < hopSize ->
  (0 < framesPerSecond sampleRate hopSize)%R.
Proof.
  intros Hs Hh. unfold framesPerSecond. apply Rdiv_lt_0_compat; [done|].
  by apply lt_0_INR.
Qed.

Lemma minLag_nonneg sampleRate hopSize :
  (0 < sampleRate)%R -> 0 < hopSize -> (0 <= minLag sampleRate hopSize)%Z.
Proof.
  intros Hs Hh. unfold minLag, Math_floor. apply Zfloor_lub.
  pose proof (framesPerSecond_pos _ _ Hs Hh). unfold maxBPM. simpl. lra.
Qed.

Lemma maxLag_le sampleRate hopSize :
  (IZR (maxLag sampleRate hopSize) <= framesPerSecond sampleRate hopSize)%R.
Proof.
  unfold maxLag, Math_floor, minBPM.
  pose proof (Zfloor_bound (60 / 60 * framesPerSecond sampleRate hopSize)).
  lra.
Qed.

(** Every peak found in the autocorrelation has a tempo of at least 60. *)
Lemma findPeaks_bpm_ge sampleRate hopSize spectralFlux :
  (0 < sampleRate)%R -> 0 < hopSize ->
  Forall (fun p => (60 <= Peak.bpm p)%Z)
    (findPeaks sampleRate hopSize
       (autocorrelation sampleRate hopSize spectralFlux)).
Proof.
  intros Hs Hh. rewrite findPeaks_eq.
  set (correlations := autocorrelation sampleRate hopSize spectralFlux).
  apply (fold_left_inv (Forall (fun p => (60 <= Peak.bpm p)%Z))); [|done].
  intros i peaks Hi%in_seq Hpeaks. unfold peak_body.
  destruct (_ && _); [|done].
  apply Forall_app. split; [done|]. constructor; [|done]. simpl.
  pose proof (autocorrelation_length sampleRate hopSize spectralFlux) as Hlen.
  simpl in Hlen. fold correlations in Hlen. specialize (Hlen ltac:(lia)).
  pose proof (minLag_nonneg _ _ Hs Hh) as Hmin.
  pose proof (maxLag_le sampleRate hopSize) as Hmax.
  pose proof (framesPerSecond_pos _ _ Hs Hh) as Hfps.
  set (lag := (minLag sampleRate hopSize + Z.of_nat i)%Z).
  assert (1 <= lag <= maxLag sampleRate hopSize - 1)%Z as [Hl1 Hl2]
    by (unfold lag; lia).
  apply Math_round_lower.
  apply IZR_le in Hl1, Hl2. rewrite minus_IZR in Hl2.
  set (fps := framesPerSecond sampleRate hopSize) in *.
  replace (60 * fps / IZR lag)%R
    with (60 + 60 * (fps - IZR lag) * / IZR lag)%R by (field; lra).
  assert (0 <= 60 * (fps - IZR lag) * / IZR lag)%R; [|lra].
  apply Rmult_le_pos; [lra|]. left. apply Rinv_0_lt_compat. lra.
Qed.

Lemma foldPrimary_ge (b : Z) : (60 <= b)%Z -> (60 <= foldPrimary b)%Z.
Proof.
  intros Hb. unfold foldPrimary.
  destruct (140 <? b)%Z.
  - destruct (Z.leb_spec 60 (Math_round (IZR b / 2))); lia.
  - destruct (b <? 80)%Z; [|done].
    destruct (b * 2 <=? 180)%Z; lia.
Qed.

(** Whatever the set holds is more than 5 away from a primary tempo of at
    least 60, the primary tempo itself apart. *)
Lemma alternativeSet_distance bpm peaks x :
  (60 <= bpm)%Z -> In x (alternativeSet bpm peaks) -> x <> bpm ->
  (5 < Z.abs (x - bpm))%Z.
Proof.
  intros Hb Hin Hne. apply alternativeSet_In in Hin
    as [[-> _]|[[-> Hhalf]|(p & _ & _ & Hd)]]; [lia | | done].
  rewrite Math_round_half.
  assert (100 <= bpm)%Z.
  { apply le_IZR. lra. }
  Z.div_mod_to_equations. lia.
Qed.

Lemma collectAlternatives_invariant bpm peaks :
  (60 <= bpm)%Z ->
  let alternatives := collectAlternatives bpm peaks in
  ~ In bpm alternatives
  /\ length alternatives <= 3
  /\ StronglySorted Z.lt alternatives
  /\ (forall a, In a alternatives -> (5 < Z.abs (a - bpm))%Z).
Proof.
  intros Hb alternatives. subst alternatives. unfold collectAlternatives.
  rewrite slice_0.
  set (inserted := set_delete bpm (alternativeSet bpm peaks)).
  assert (forall a, In a (js_sort ascending (take 3 inserted)) ->
                    In a (alternativeSet bpm peaks) /\ a <> bpm) as Hin.
  { intros a Ha. apply set_delete_In, (take_In 3).
    eapply Permutation_in; [apply js_sort_perm | done]. }
  split; [|split; [|split]].
  - intros [_ H]%Hin. done.
  - rewrite js_sort_length, length_take. lia.
  - apply sorted_NoDup_strict; [apply ascending_sorted|].
    eapply Permutation_NoDup; [symmetry; apply js_sort_perm|].
    apply take_NoDup, set_delete_NoDup, alternativeSet_NoDup.
  - intros a [Ha Hne]%Hin. by apply alternativeSet_distance with peaks.
Qed.

Lemma tempoFromFlux_invariant sampleRate hopSize spectralFlux :
  (0 < sampleRate)%R -> 0 < hopSize ->
  let result := tempoFromFlux sampleRate hopSize spectralFlux in
  ~ In (BPMResult.bpm result) (BPMResult.alternatives result)
  /\ length (BPMResult.alternatives result) <= 3
  /\ StronglySorted Z.lt (BPMResult.alternatives result)
  /\ (forall a, In a (BPMResult.alternatives result) ->
                (5 < Z.abs (a - BPMResult.bpm result))%Z).
Proof.
  intros Hs Hh result. subst result. unfold tempoFromFlux.
  assert (~ In 120%Z [] /\ 0 <= 3 /\ StronglySorted Z.lt []
          /\ (forall a, In a [] -> (5 < Z.abs (a - 120))%Z)) as Hdeg.
  { split; [by intros []|]. split; [lia|].
    split; [constructor | by intros a []]. }
  destruct (_ <? 100); [exact Hdeg|].
  set (flux := normalizeFlux spectralFlux).
  pose proof (findPeaks_bpm_ge sampleRate hopSize flux Hs Hh) as Hge.
  rewrite <- (js_sort_perm by_value_desc) in Hge.
  destruct (js_sort by_value_desc _) as [|bestPeak others]; [exact Hdeg|].
  apply Forall_cons_1 in Hge as [Hbest _].
  apply collectAlternatives_invariant. by apply foldPrimary_ge.
Qed.

(** C7 (amended).  For every buffer with a positive sample rate, the
    alternatives of the result never contain its [bpm], are at most 3,
    are strictly ascending, and each differs from [bpm] by more than 5.
    Nothing is promised on the distance between two alternatives. *)
Theorem C7_alternatives_exclude_and_keep_away_from_bpm :
  forall audioBuffer : AudioBuffer.t,
    (0 < AudioBuffer.sampleRate audioBuffer)%R ->
    let result := detectBPM audioBuffer in
    ~ In (BPMResult.bpm result) (BPMResult.alternatives result)
    /\ length (BPMResult.alternatives result) <= 3
    /\ StronglySorted Z.lt (BPMResult.alternatives result)
    /\ (forall a, In a (BPMResult.alternatives result) ->
                  (5 < Z.abs (a - BPMResult.bpm result))%Z).
Proof.
  intros audioBuffer Hs. apply tempoFromFlux_invariant; [done | lia].
Qed.

Lemma C7_witness_at_44100 :
  let result := detectBPM (AudioBuffer.mk 44100 []) in
  ~ In (BPMResult.bpm result) (BPMResult.alternatives result)
  /\ length (BPMResult.alternatives result) <= 3
  /\ StronglySorted Z.lt (BPMResult.alternatives result)
  /\ (forall a, In a (BPMResult.alternatives result) ->
                (5 < Z.abs (a - BPMResult.bpm result))%Z).
Proof.
  apply (C7_alternatives_exclude_and_keep_away_from_bpm
           (AudioBuffer.mk 44100 [])).
  simpl. lra.
Defined.

Lemma close_peaks_alternatives :
  foldPrimary 91 = 91%Z
  /\ collectAlternatives 91 close_peaks = [113; 117; 182]%Z.
Proof.
  split; [reflexivity|]. unfold close_peaks. run_alternatives. reflexivity.
Qed.

(** C7, as stated, fails.  With the primary tempo 91 and the next peaks at
    117 and 113, both more than 5 away from 91, the alternatives are 113,
    117 and 182: two of them are 4 apart. *)
Lemma C7_two_alternatives_within_five :
  let result := resultFromPeaks [0.2; 0.9; 0.2]%R close_peaks in
  BPMResult.bpm result = 91%Z
  /\ BPMResult.alternatives result = [113; 117; 182]%Z
  /\ ~ (forall a b, In a (BPMResult.alternatives result) ->
                    In b (BPMResult.alternatives result) ->
                    a <> b -> (5 < Z.abs (a - b))%Z).
Proof.
  destruct close_peaks_alternatives as [Hp Hc].
  cbn [resultFromPeaks close_peaks BPMResult.bpm BPMResult.alternatives
         Peak.bpm].
  fold close_peaks. rewrite Hp, Hc. repeat split.
  intros H. specialize (H 113%Z 117%Z). simpl in H.
  specialize (H ltac:(tauto) ltac:(tauto) ltac:(lia)). lia.
Qed.

(** ** Loops that update an array in place *)

(** [for (i = 0; i < k; i++) a[i] = f(a[i])] *)
Lemma inplace_map_prefix (f : R -> R) (k : nat) (l : list R) :
  k <= length l ->
  fold_left (fun cur i => <[i := f (nth i cur 0%R)]> cur) (seq 0 k) l
  = map f (take k l) ++ drop k l.
Proof.
  induction k as [|k IH]; intros Hk; [done|].
  rewrite seq_S, fold_left_app, IH by lia. simpl.
  destruct (lookup_lt_is_Some_2 l k ltac:(lia)) as [x Hx].
  assert (length (map f (take k l)) = k) as Hlen
    by (rewrite length_map, length_take; lia).
  rewrite (drop_S l x k Hx), (take_S_r l k x Hx).
  assert (nth k (map f (take k l) ++ x :: drop (S k) l) 0%R = x) as ->.
  { rewrite app_nth2 by lia. by rewrite Hlen, Nat.sub_diag. }
  rewrite insert_app_r_alt by lia. rewrite Hlen, Nat.sub_diag. simpl.
  rewrite map_app. simpl. by rewrite <- app_assoc.
Qed.

Lemma inplace_map (f : R -> R) (n fuel : nat) (l : list R) :
  length l = n -> n <= fuel ->
  for_loop fuel (fun i => i <? n) S
    (fun i cur => <[i := f (nth i cur 0%R)]> cur) 0 l
  = map f l.
Proof.
  intros Hn Hf. rewrite for_loop_count by lia. rewrite Nat.sub_0_r.
  rewrite inplace_map_prefix by lia.
  rewrite firstn_all2, skipn_all2 by lia. by rewrite app_nil_r.
Qed.

(** ** The chroma vector (lines 115-141) *)

Lemma nth_nonneg (l : list R) i :
  Forall (fun x => (0 <= x)%R) l -> (0 <= nth i l 0)%R.
Proof.
  intros H. destruct (nth_in_or_default i l 0%R) as [Hin| ->]; [|lra].
  rewrite List.Forall_forall in H. by apply H.
Qed.

Lemma normalizedPitch_lt (p : Z) :
  Z.to_nat (Z.rem (Z.rem p 12 + 12) 12) < 12.
Proof.
  pose proof (Z.rem_bound_abs p 12 ltac:(lia)).
  pose proof (Z.rem_bound_pos (Z.rem p 12 + 12) 12 ltac:(lia) ltac:(lia)).
  lia.
Qed.

Lemma chroma_bin_is_chroma sampleRate fftSize magnitude bin chroma :
  is_chroma chroma ->
  is_chroma (chroma_bin sampleRate fftSize magnitude bin chroma).
Proof.
  intros [Hlen Hpos]. unfold chroma_bin.
  destruct (_ || _); [done|]. split; [by rewrite length_insert|].
  apply Forall_insert; [done|].
  pose proof (nth_nonneg chroma
    (Z.to_nat (Z.rem (Z.rem (Z.rem (Math_round
       (12 * Math_log2 (INR bin * sampleRate / INR fftSize / 440) + 69)) 12)
       12 + 12) 12)) Hpos).
  nra.
Qed.

Lemma chroma_frame_is_chroma sampleRate data fftSize start chroma :
  is_chroma chroma ->
  is_chroma (chroma_frame sampleRate data fftSize start chroma).
Proof.
  intros H. unfold chroma_frame. apply for_loop_inv; [|done].
  intros bin c _. apply chroma_bin_is_chroma.
Qed.

Lemma accumulateChroma_is_chroma sampleRate data fftSize hopSize :
  is_chroma (accumulateChroma sampleRate data fftSize hopSize).
Proof.
  unfold accumulateChroma. apply for_loop_inv.
  - intros start c _. apply chroma_frame_is_chroma.
  - split; [done|]. repeat constructor; lra.
Qed.

Lemma normalizeChroma_scaled chroma :
  length chroma = 12 -> (0 < Math_max chroma)%R ->
  normalizeChroma chroma = map (fun x => (x / Math_max chroma)%R) chroma.
Proof.
  intros Hlen Hmax. unfold normalizeChroma.
  rewrite (proj2 (Rltb_true _ _) Hmax).
  by apply (inplace_map (fun x => (x / Math_max chroma)%R) 12 12).
Qed.

Lemma normalizeChroma_unscaled chroma :
  (Math_max chroma <= 0)%R -> normalizeChroma chroma = chroma.
Proof.
  intros Hmax. unfold normalizeChroma.
  by rewrite (proj2 (Rltb_false _ _) Hmax).
Qed.

(** A chroma vector whose largest entry is not positive is all zeros. *)
Lemma chroma_max_zero chroma :
  is_chroma chroma -> (Math_max chroma <= 0)%R ->
  Forall (fun x => x = 0%R) chroma.
Proof.
  intros [_ Hpos] Hmax. rewrite List.Forall_forall in *. intros x Hx.
  pose proof (Hpos x Hx). pose proof (Math_max_upper chroma x Hx). lra.
Qed.

Lemma sumR_nonneg l : Forall (fun x => (0 <= x)%R) l -> (0 <= sumR l)%R.
Proof. induction 1; simpl; lra. Qed.

Lemma sumR_zero l :
  Forall (fun x => (0 <= x)%R) l -> sumR l = 0%R ->
  Forall (fun x => x = 0%R) l.
Proof.
  induction 1 as [|x l Hx Hl IH]; simpl; intros Hs; [done|].
  pose proof (sumR_nonneg l Hl). constructor; [lra | apply IH; lra].
Qed.

Lemma sumR_all_zero l : Forall (fun x => x = 0%R) l -> sumR l = 0%R.
Proof. induction 1 as [|x l -> Hl IH]; simpl; lra. Qed.

Lemma sumR_insert (l : list R) k e :
  k < length l -> sumR (<[k := (nth k l 0 + e)%R]> l) = (sumR l + e)%R.
Proof.
  revert k; induction l as [|x l IH]; intros [|k] Hk; simpl in *; try lia.
  - lra.
  - rewrite IH by lia. lra.
Qed.

(** Accumulating energies into a chroma vector adds up. *)
Lemma sumR_accumulate {B : Type} (g : B -> list R -> list R) (e : B -> R)
  (l : list B) (chroma : list R) :
  (forall x c, is_chroma c ->
               is_chroma (g x c) /\ sumR (g x c) = (sumR c + e x)%R) ->
  is_chroma chroma ->
  sumR (fold_left (fun c x => g x c) l chroma) = (sumR chroma + sumR (map e l))%R.
Proof.
  intros Hg; revert chroma; induction l as [|x l IH]; intros chroma Hc;
    simpl; [lra|].
  destruct (Hg x chroma Hc) as [Hc' Hs]. rewrite IH by done. lra.
Qed.

Lemma chroma_bin_energy sampleRate fftSize magnitude bin chroma :
  is_chroma chroma ->
  sumR (chroma_bin sampleRate fftSize magnitude bin chroma)
  = (sumR chroma
     + (if inBand sampleRate fftSize bin
        then nth bin magnitude 0 * nth bin magnitude 0 else 0))%R.
Proof.
  intros [Hlen _]. unfold chroma_bin, inBand.
  destruct (_ || _); simpl; [lra|].
  apply sumR_insert. rewrite Hlen. apply normalizedPitch_lt.
Qed.

Lemma chroma_frame_energy sampleRate data fftSize start chroma :
  is_chroma chroma ->
  sumR (chroma_frame sampleRate data fftSize start chroma)
  = (sumR chroma
     + frameBandEnergy sampleRate fftSize
         (getMagnitudeSpectrum (slice data start (start + fftSize)) fftSize))%R.
Proof.
  intros Hc. unfold chroma_frame, frameBandEnergy.
  rewrite for_loop_count by lia.
  apply (sumR_accumulate
           (chroma_bin sampleRate fftSize
              (getMagnitudeSpectrum (slice data start (start + fftSize))
                 fftSize))); [|done].
  intros bin c Hc'. split;
    [by apply chroma_bin_is_chroma | by apply chroma_bin_energy].
Qed.

(** The entries of the accumulated chroma vector add up to the energy of
    the buffer inside the band. *)
Lemma accumulateChroma_energy sampleRate data fftSize hopSize :
  sumR (accumulateChroma sampleRate data fftSize hopSize)
  = bandEnergy sampleRate data fftSize hopSize.
Proof.
  rewrite accumulateChroma_frames. unfold bandEnergy.
  rewrite (sumR_accumulate (chroma_frame sampleRate data fftSize)
             (fun start =>
                frameBandEnergy sampleRate fftSize
                  (getMagnitudeSpectrum (slice data start (start + fftSize))
                     fftSize))).
  - simpl. lra.
  - intros start c Hc. split;
      [by apply chroma_frame_is_chroma | by apply chroma_frame_energy].
  - split; [done|]. repeat constructor; lra.
Qed.

Lemma normalized_chroma fftSize hopSize sampleRate data :
  let chroma := accumulateChroma sampleRate data fftSize hopSize in
  let normalized := normalizeChroma chroma in
  let energy := bandEnergy sampleRate data fftSize hopSize in
  length normalized = 12
  /\ Forall (fun x => (0 <= x <= 1)%R) normalized
  /\ (energy <> 0%R -> In 1%R normalized)
  /\ (energy = 0%R -> Forall (fun x => x = 0%R) normalized).
Proof.
  intros chroma normalized energy.
  pose proof (accumulateChroma_is_chroma sampleRate data fftSize hopSize)
    as Hc. fold chroma in Hc.
  pose proof (accumulateChroma_energy sampleRate data fftSize hopSize)
    as He. fold chroma energy in He.
  destruct Hc as [Hlen Hpos]. subst normalized.
  destruct (Rlt_dec 0 (Math_max chroma)) as [Hmax|Hmax].
  - rewrite normalizeChroma_scaled by done.
    split; [by rewrite length_map|]. split; [|split].
    + apply Forall_map. rewrite List.Forall_forall in *. intros x Hx.
      pose proof (Hpos x Hx). pose proof (Math_max_upper chroma x Hx).
      split.
      * unfold Rdiv. apply Rmult_le_pos; [lra|].
        left. by apply Rinv_0_lt_compat.
      * apply Rmult_le_reg_r with (Math_max chroma); [done|].
        unfold Rdiv. rewrite Rmult_assoc, Rinv_l by lra. lra.
    + intros _. apply in_map_iff. exists (Math_max chroma). split.
      * field. lra.
      * apply Math_max_in. by destruct chroma.
    + intros Hzero. rewrite <- He in Hzero.
      pose proof (sumR_zero chroma Hpos Hzero) as Hall.
      rewrite List.Forall_forall in Hall.
      assert (Math_max chroma = 0%R); [|lra].
      apply Hall, Math_max_in. by destruct chroma.
  - rewrite normalizeChroma_unscaled by lra.
    pose proof (chroma_max_zero chroma (conj Hlen Hpos) ltac:(lra)) as Hall.
    split; [done|]. split; [|split].
    + eapply Forall_impl; [exact Hall|]. intros x ->. simpl. lra.
    + intros Hne. destruct Hne. rewrite <- He. by apply sumR_all_zero.
    + done.
Qed.

(** C8.  After the normalisation step the chroma vector has 12 values, all
    in [[0,1]]; one of them is 1, unless no spectral energy fell in the
    60 Hz - 2000 Hz band, in which case all 12 are 0. *)
Theorem C8_normalized_chroma_in_unit_interval_with_a_one :
  forall audioBuffer : AudioBuffer.t,
    let sampleRate := AudioBuffer.sampleRate audioBuffer in
    let data := AudioBuffer.channelData audioBuffer in
    let normalized :=
      normalizeChroma (accumulateChroma sampleRate data 8192 4096) in
    let energy := bandEnergy sampleRate data 8192 4096 in
    length normalized = 12
    /\ Forall (fun x => (0 <= x <= 1)%R) normalized
    /\ (energy <> 0%R -> In 1%R normalized)
    /\ (energy = 0%R -> Forall (fun x => x = 0%R) normalized).
Proof.
  intros audioBuffer.
  exact (normalized_chroma 8192 4096 (AudioBuffer.sampleRate audioBuffer)
           (AudioBuffer.channelData audioBuffer)).
Qed.

(** ** Scaling the samples: the transform is linear *)

(** A map on states that commutes with the body commutes with the loop. *)
Lemma for_loop_morph {S1 S2 : Type} (phi : S1 -> S2)
  (cond : nat -> bool) (step : nat -> nat)
  (body1 : nat -> S1 -> S1) (body2 : nat -> S2 -> S2) fuel i s :
  (forall i s, body2 i (phi s) = phi (body1 i s)) ->
  for_loop fuel cond step body2 i (phi s)
  = phi (for_loop fuel cond step body1 i s).
Proof.
  intros Hbody; revert i s; induction fuel as [|fuel IH]; intros i s; simpl;
    [done|].
  destruct (cond i); [|done]. by rewrite Hbody, IH.
Qed.

Section Scaling.
Variable c : R.

Lemma length_scale l : length (scale c l) = length l.
Proof. apply length_map. Qed.

Lemma nth_scale l i : nth i (scale c l) 0%R = (c * nth i l 0)%R.
Proof.
  revert i; induction l as [|x l IH]; intros [|i]; simpl;
    try lra; apply IH.
Qed.

Lemma insert_scale l i x : <[i := (c * x)%R]> (scale c l) = scale c (<[i := x]> l).
Proof.
  revert i; induction l as [|y l IH]; intros [|i]; simpl; try done.
  f_equal. apply IH.
Qed.

Lemma scale_repeat_0 n : scale c (repeat 0%R n) = repeat 0%R n.
Proof. induction n as [|n IH]; simpl; [done|]. rewrite IH. f_equal. lra. Qed.

Lemma slice_scale l from to : slice (scale c l) from to = scale c (slice l from to).
Proof. unfold slice, scale. by rewrite skipn_map, firstn_map. Qed.

Lemma swap_scale a i j : swap (scale c a) i j = scale c (swap a i j).
Proof. unfold swap. by rewrite !nth_scale, !insert_scale. Qed.

Local Abbreviation scale2 := (scale_arrays c).
Local Abbreviation scale3 := (scale_bitrev_state c).
Local Abbreviation scale4 := (scale_butterfly_state c).

Lemma bitrev_body_scale n i st :
  bitrev_body n i (scale3 st) = scale3 (bitrev_body n i st).
Proof.
  destruct st as [[real imag] j]. unfold bitrev_body, scale_bitrev_state.
  cbn [fst snd].
  destruct (carry n (n / 2) j) as [m j']; destruct (i <? j); cbn [fst snd];
    by rewrite ?swap_scale.
Qed.

Lemma butterfly_scale i halfLen wReal wImag j st :
  butterfly i halfLen wReal wImag j (scale4 st)
  = scale4 (butterfly i halfLen wReal wImag j st).
Proof.
  destruct st as [[[real imag] curReal] curImag].
  unfold butterfly, scale_butterfly_state. cbn [fst snd]. rewrite !nth_scale.
  rewrite <- !insert_scale. repeat f_equal; ring.
Qed.

Lemma fft_block_scale halfLen wReal wImag i st :
  fft_block halfLen wReal wImag i (scale2 st)
  = scale2 (fft_block halfLen wReal wImag i st).
Proof.
  destruct st as [real imag]. unfold fft_block, scale_arrays. cbn [fst snd].
  change (scale c real, scale c imag, 1%R, 0%R)
    with (scale4 (real, imag, 1%R, 0%R)).
  rewrite (for_loop_morph scale4 _ _ (butterfly i halfLen wReal wImag));
    [|intros; apply butterfly_scale].
  by destruct (for_loop _ _ _ _ _ _) as [[[? ?] ?] ?].
Qed.

Lemma fft_stage_scale n len st :
  fft_stage n len (scale2 st) = scale2 (fft_stage n len st).
Proof.
  unfold fft_stage. apply for_loop_morph. intros. apply fft_block_scale.
Qed.

Lemma fft_scale real imag :
  fft (scale c real) (scale c imag) = scale2 (fft real imag).
Proof.
  unfold fft. rewrite length_scale.
  destruct (length real <=? 1); [done|].
  change (scale c real, scale c imag, 0) with (scale3 (real, imag, 0)).
  rewrite (for_loop_morph scale3 _ _ (bitrev_body (length real)));
    [|intros; apply bitrev_body_scale].
  destruct (for_loop _ _ _ (bitrev_body _) _ _) as [[real' imag'] j].
  unfold scale_bitrev_state. cbn [fst snd].
  change (scale c real', scale c imag') with (scale2 (real', imag')).
  apply for_loop_morph. intros. apply fft_stage_scale.
Qed.

Lemma window_body_scale samples fftSize i st :
  window_body (scale c samples) fftSize i (scale2 st)
  = scale2 (window_body samples fftSize i st).
Proof.
  destruct st as [real imag]. unfold window_body, scale_arrays. cbn [fst snd].
  rewrite nth_scale, <- !insert_scale. f_equal; f_equal; ring.
Qed.

Hypothesis c_nonneg : (0 <= c)%R.

Lemma sqrt_scale x y :
  sqrt (c * x * (c * x) + c * y * (c * y)) = (c * sqrt (x * x + y * y))%R.
Proof.
  replace (c * x * (c * x) + c * y * (c * y))%R
    with (c * c * (x * x + y * y))%R by ring.
  rewrite sqrt_mult_alt by nra. by rewrite sqrt_square.
Qed.

Lemma magnitude_body_scale real imag i magnitude :
  magnitude_body (scale c real) (scale c imag) i (scale c magnitude)
  = scale c (magnitude_body real imag i magnitude).
Proof.
  unfold magnitude_body. by rewrite !nth_scale, sqrt_scale, insert_scale.
Qed.

Lemma magnitudeOf_scale real imag fftSize :
  magnitudeOf (scale c real) (scale c imag) fftSize
  = scale c (magnitudeOf real imag fftSize).
Proof.
  unfold magnitudeOf. rewrite <- (scale_repeat_0 (fftSize / 2)) at 1.
  apply for_loop_morph. intros. apply magnitude_body_scale.
Qed.

(** The spectrum of the scaled frame is the scaled spectrum. *)
Lemma getMagnitudeSpectrum_scale samples fftSize :
  getMagnitudeSpectrum (scale c samples) fftSize
  = scale c (getMagnitudeSpectrum samples fftSize).
Proof.
  unfold getMagnitudeSpectrum.
  rewrite <- (scale_repeat_0 fftSize) at 1 2.
  change (scale c (repeat 0%R fftSize), scale c (repeat 0%R fftSize))
    with (scale2 (repeat 0%R fftSize, repeat 0%R fftSize)).
  rewrite (for_loop_morph scale2 _ _ (window_body samples fftSize));
    [|intros; apply window_body_scale].
  destruct (for_loop _ _ _ (window_body _ _) _ _) as [real imag].
  unfold scale_arrays. cbn [fst snd]. rewrite fft_scale.
  destruct (fft real imag) as [real' imag']. unfold scale_arrays. cbn [fst snd].
  apply magnitudeOf_scale.
Qed.

End Scaling.

(** ** Key invariance under scaling *)

Section KeyScaling.
Variable c : R.
Hypothesis c_pos : (0 < c)%R.

Lemma chroma_bin_scale sampleRate fftSize magnitude bin chroma :
  chroma_bin sampleRate fftSize (scale c magnitude) bin (scale (c * c) chroma)
  = scale (c * c) (chroma_bin sampleRate fftSize magnitude bin chroma).
Proof.
  unfold chroma_bin. destruct (_ || _); [done|].
  rewrite !nth_scale, <- insert_scale. f_equal. ring.
Qed.

Lemma chroma_frame_scale sampleRate data fftSize start chroma :
  chroma_frame sampleRate (scale c data) fftSize start (scale (c * c) chroma)
  = scale (c * c) (chroma_frame sampleRate data fftSize start chroma).
Proof.
  unfold chroma_frame.
  rewrite slice_scale, getMagnitudeSpectrum_scale by lra.
  rewrite length_scale. apply for_loop_morph. intros.
  apply chroma_bin_scale.
Qed.

(** Scaling the samples by [c] scales the accumulated chroma by [c * c]. *)
Lemma accumulateChroma_scale sampleRate data fftSize hopSize :
  accumulateChroma sampleRate (scale c data) fftSize hopSize
  = scale (c * c) (accumulateChroma sampleRate data fftSize hopSize).
Proof.
  unfold accumulateChroma. rewrite length_scale.
  rewrite <- (scale_repeat_0 (c * c) 12) at 1. apply for_loop_morph. intros.
  apply chroma_frame_scale.
Qed.

(** The normalisation removes a positive factor. *)
Lemma normalizeChroma_scale (k : R) chroma :
  (0 < k)%R -> is_chroma chroma ->
  normalizeChroma (scale k chroma) = normalizeChroma chroma.
Proof.
  intros Hk [Hlen Hpos].
  pose proof (Math_max_scale k chroma ltac:(lra)) as Hmax.
  fold (scale k chroma) in Hmax.
  destruct (Rlt_dec 0 (Math_max chroma)) as [Hm|Hm].
  - rewrite !normalizeChroma_scaled; try done.
    + transitivity
        (map (fun x => (x / (k * Math_max chroma))%R) (scale k chroma)).
      { apply map_ext. intros x. by rewrite Hmax. }
      unfold scale. rewrite map_map. apply map_ext. intros x. field. lra.
    + by rewrite length_scale.
    + rewrite Hmax. nra.
  - pose proof (chroma_max_zero chroma (conj Hlen Hpos) ltac:(lra)) as Hall.
    rewrite !normalizeChroma_unscaled; try lra.
    + unfold scale. clear -Hall. induction Hall as [|x l -> _ IH]; simpl;
        [done|]. rewrite IH. f_equal. lra.
    + rewrite Hmax. nra.
Qed.

Lemma detectKeyWith_scale fftSize hopSize audioBuffer :
  detectKeyWith fftSize hopSize (scaleBuffer c audioBuffer)
  = detectKeyWith fftSize hopSize audioBuffer.
Proof.
  unfold detectKeyWith, scaleBuffer. cbn [AudioBuffer.sampleRate
                                            AudioBuffer.channelData].
  rewrite accumulateChroma_scale, normalizeChroma_scale; [done | nra |].
  apply accumulateChroma_is_chroma.
Qed.

End KeyScaling.

(** C9.  Multiplying every sample by a positive constant leaves the result
    of [detectKey] unchanged (exact arithmetic): the same keys and modes in
    the same ranked order, and the same differences between the
    confidences of any two ranks. *)
Theorem C9_key_candidates_invariant_under_scaling :
  forall (c : R) (audioBuffer : AudioBuffer.t),
    (0 < c)%R ->
    let before := detectKey audioBuffer in
    let after := detectKey (scaleBuffer c audioBuffer) in
    map (fun k => (KeyCandidate.key k, KeyCandidate.mode k)) after
    = map (fun k => (KeyCandidate.key k, KeyCandidate.mode k)) before
    /\ (forall i j d,
          (KeyCandidate.confidence (nth i after d)
           - KeyCandidate.confidence (nth j after d)
           = KeyCandidate.confidence (nth i before d)
             - KeyCandidate.confidence (nth j before d))%R)
    /\ after = before.
Proof.
  intros c audioBuffer Hc before after.
  assert (after = before) as ->
    by exact (detectKeyWith_scale c Hc 8192 4096 audioBuffer).
  done.
Qed.

Lemma C9_witness_doubling :
  let audioBuffer := AudioBuffer.mk 44100 [0.5; -0.25; 0.125]%R in
  detectKey (scaleBuffer 2 audioBuffer) = detectKey audioBuffer.
Proof.
  intros audioBuffer.
  apply (C9_key_candidates_invariant_under_scaling 2 audioBuffer). lra.
Defined.

(** ** Silence *)

Lemma scale_0_all_zero l : all_zero (scale 0 l).
Proof. unfold all_zero, scale. apply Forall_map, Forall_true. intros. simpl. lra. Qed.

Lemma all_zero_scale_0 l : all_zero l -> l = scale 0 l.
Proof. induction 1 as [|x l -> _ IH]; simpl; [done|]. rewrite <- IH. f_equal. lra. Qed.

Lemma all_zero_nth l i : all_zero l -> nth i l 0%R = 0%R.
Proof.
  intros H. destruct (nth_in_or_default i l 0%R) as [Hin|Heq]; [|done].
  unfold all_zero in H. rewrite List.Forall_forall in H. by apply H.
Qed.

Lemma all_zero_repeat n : all_zero (repeat 0%R n).
Proof. induction n; simpl; by constructor. Qed.

Lemma all_zero_slice l from to : all_zero l -> all_zero (slice l from to).
Proof. intros H. unfold slice. by apply Forall_take, Forall_drop. Qed.

Lemma all_zero_Math_max l : all_zero l -> Math_max l = 0%R.
Proof.
  intros H. destruct l as [|x l]; [done|].
  unfold all_zero in H. rewrite List.Forall_forall in H.
  apply H, Math_max_in. done.
Qed.

(** The spectrum of a silent frame is zero in every bin. *)
Lemma getMagnitudeSpectrum_silent samples fftSize :
  all_zero samples -> all_zero (getMagnitudeSpectrum samples fftSize).
Proof.
  intros H. rewrite (all_zero_scale_0 samples H).
  rewrite getMagnitudeSpectrum_scale by lra. apply scale_0_all_zero.
Qed.

(** *** The key of silence *)

Lemma chroma_bin_silent sampleRate fftSize magnitude bin chroma :
  all_zero magnitude -> all_zero chroma ->
  all_zero (chroma_bin sampleRate fftSize magnitude bin chroma).
Proof.
  intros Hm Hc. unfold chroma_bin. destruct (_ || _); [done|].
  apply Forall_insert; [done|]. rewrite !all_zero_nth by done. lra.
Qed.

Lemma accumulateChroma_silent sampleRate data fftSize hopSize :
  all_zero data ->
  all_zero (accumulateChroma sampleRate data fftSize hopSize).
Proof.
  intros Hd. unfold accumulateChroma.
  apply for_loop_inv; [|apply (all_zero_repeat 12)].
  intros start chroma _ Hc. unfold chroma_frame.
  apply for_loop_inv; [|done]. intros bin chroma' _.
  apply chroma_bin_silent, getMagnitudeSpectrum_silent.
  by apply all_zero_slice.
Qed.

Lemma normalizeChroma_silent chroma :
  all_zero chroma -> normalizeChroma chroma = chroma.
Proof.
  intros H. apply normalizeChroma_unscaled.
  rewrite all_zero_Math_max by done. lra.
Qed.

(** The correlation with a constant-zero vector is defined as 0. *)
Lemma pearsonCorrelation_silent a b :
  all_zero b -> pearsonCorrelation a b = 0%R.
Proof.
  intros Hb. unfold pearsonCorrelation.
  pose proof (for_loop_inv (fun i => i <? length a) S (pearson_body a b)
                (fun st => st.1.1.1.2 = 0%R /\ st.2 = 0%R)
                (length a) 0 (0, 0, 0, 0, 0)%R) as Hinv.
  destruct (for_loop _ _ _ _ _ _) as [[[[sumA sumB] sumAB] sumA2] sumB2].
  destruct Hinv as [HB HB2]; [|done|].
  - intros i [[[[sA sB] sAB] sA2] sB2] _ [H1 H2]. simpl in *.
    rewrite all_zero_nth by done. split; lra.
  - simpl in HB, HB2. subst sumB sumB2.
    replace ((INR (length a) * sumA2 - sumA * sumA)
             * (INR (length a) * 0 - 0 * 0))%R with 0%R by ring.
    rewrite sqrt_0. by rewrite (proj2 (Reqb_true 0 0)).
Qed.

Lemma shiftChroma_silent chroma shift :
  all_zero chroma -> all_zero (shiftChroma chroma shift).
Proof.
  intros H. rewrite shiftChroma_eq. apply Forall_map, Forall_true.
  intros i. simpl. by apply all_zero_nth.
Qed.

Lemma scores_of_shift_silent chroma shift :
  all_zero chroma ->
  scores_of_shift chroma shift
  = [Scored.mk (nth shift KEY_NAMES ""%string) major 0;
     Scored.mk (nth shift KEY_NAMES ""%string) minor 0].
Proof.
  intros H. unfold scores_of_shift.
  by rewrite !pearsonCorrelation_silent by by apply shiftChroma_silent.
Qed.

(** A sort whose comparator never asks for an exchange changes nothing. *)
Lemma js_sort_id {A : Type} (gt : A -> A -> bool) (l : list A) :
  (forall x y, In x l -> In y l -> gt x y = false) -> js_sort gt l = l.
Proof.
  induction l as [|x l IH]; intros Hgt; simpl; [done|].
  rewrite IH by (intros; apply Hgt; by right).
  destruct l as [|y l]; simpl; [done|].
  rewrite Hgt; [done | by left | right; by left].
Qed.

Lemma keyCorrelations_silent chroma :
  all_zero chroma ->
  keyCorrelations chroma
  = flat_map (fun shift =>
                [Scored.mk (nth shift KEY_NAMES ""%string) major 0;
                 Scored.mk (nth shift KEY_NAMES ""%string) minor 0])
      (seq 0 12).
Proof.
  intros H. rewrite keyCorrelations_eq. apply flat_map_ext. intros shift.
  by apply scores_of_shift_silent.
Qed.

Lemma rankCandidates_silent chroma :
  all_zero chroma ->
  rankCandidates (keyCorrelations chroma) = silent_key_candidates.
Proof.
  intros H. rewrite keyCorrelations_silent by done.
  unfold rankCandidates. rewrite js_sort_id.
  - cbn. unfold or_default.
    replace (0 - 0)%R with 0%R by ring.
    rewrite (proj2 (Reqb_true 0 0)) by done.
    unfold silent_key_candidates. repeat f_equal; lra.
  - intros x y Hx Hy. unfold by_correlation_desc. apply Rltb_false.
    cbn in Hx, Hy.
    repeat (destruct Hx as [<-|Hx]; [repeat (destruct Hy as [<-|Hy];
      [simpl; lra|]); destruct Hy|]).
    destruct Hx.
Qed.

Lemma detectKeyWith_silent fftSize hopSize sampleRate data :
  all_zero data ->
  detectKeyWith fftSize hopSize (AudioBuffer.mk sampleRate data)
  = silent_key_candidates.
Proof.
  intros H. unfold detectKeyWith. cbn [AudioBuffer.sampleRate
                                         AudioBuffer.channelData].
  pose proof (accumulateChroma_silent sampleRate data fftSize hopSize H).
  rewrite normalizeChroma_silent by done. by apply rankCandidates_silent.
Qed.

(** *** The tempo of silence *)

Lemma flux_silent magnitude prevMagnitude :
  all_zero magnitude -> all_zero prevMagnitude ->
  for_loop (length magnitude) (fun i => i <? length magnitude) S
    (flux_bin magnitude prevMagnitude) 0 0%R = 0%R.
Proof.
  intros Hm Hp. apply (for_loop_inv _ _ _ (fun flux => flux = 0%R)); [|done].
  intros i flux _ ->. unfold flux_bin. rewrite !all_zero_nth by done.
  replace (0 - 0)%R with 0%R by ring.
  rewrite (proj2 (Rltb_false 0 0)) by lra. lra.
Qed.

Lemma computeSpectralFlux_silent data fftSize hopSize :
  all_zero data -> all_zero (computeSpectralFlux data fftSize hopSize).
Proof.
  intros Hd. unfold computeSpectralFlux.
  pose proof (for_loop_inv
    (fun start => start + fftSize <? length data)
    (fun start => start + hopSize) (flux_frame data fftSize)
    (fun st => match st.1 with Some m => all_zero m | None => True end
               /\ all_zero st.2)
    (length data) 0 (None, [])) as Hinv.
  apply Hinv; [|split; [done | constructor]].
  intros start [prev flux] _ [Hprev Hflux]. simpl in Hprev, Hflux.
  assert (all_zero (getMagnitudeSpectrum
                      (slice data start (start + fftSize)) fftSize)) as Hm
    by by apply getMagnitudeSpectrum_silent, all_zero_slice.
  unfold flux_frame. split; [done|]. cbn [snd].
  destruct prev as [prev|]; [|done].
  apply Forall_app. split; [done|]. constructor; [|done].
  by apply flux_silent.
Qed.

Lemma normalizeFlux_silent spectralFlux :
  all_zero spectralFlux -> normalizeFlux spectralFlux = spectralFlux.
Proof.
  intros H. unfold normalizeFlux. rewrite all_zero_Math_max by done.
  by rewrite (proj2 (Rltb_false 0 0)) by lra.
Qed.

Lemma autocorrelation_silent sampleRate hopSize spectralFlux :
  all_zero spectralFlux ->
  all_zero (autocorrelation sampleRate hopSize spectralFlux).
Proof.
  intros H. unfold autocorrelation. apply for_loop_inv; [|constructor].
  intros lag correlations _ Hc. unfold correlation_body.
  apply Forall_app. split; [done|]. constructor; [|done].
  rewrite (for_loop_inv _ _ _ (fun sum => sum = 0%R)); [| |done].
  - unfold Rdiv. ring.
  - intros i sum _ ->. rewrite !all_zero_nth by done. ring.
Qed.

Lemma all_zero_no_peak correlations :
  all_zero correlations -> noStrictLocalMaximum correlations.
Proof.
  intros H i _ _ [H1 _]. rewrite !all_zero_nth in H1 by done. lra.
Qed.

Lemma detectBPMWith_silent fftSize hopSize sampleRate data :
  all_zero data ->
  detectBPMWith fftSize hopSize (AudioBuffer.mk sampleRate data) = degenerate.
Proof.
  intros H. unfold detectBPMWith. cbn [AudioBuffer.sampleRate
                                         AudioBuffer.channelData].
  apply tempoFromFlux_no_peak.
  pose proof (computeSpectralFlux_silent data fftSize hopSize H) as Hf.
  rewrite normalizeFlux_silent by done.
  by apply all_zero_no_peak, autocorrelation_silent.
Qed.



(** ** [fft] computes the discrete Fourier transform *)

(** *** Bit reversal *)

Lemma halves x y r : r < 2 -> x = 2 * y + r -> x mod 2 = r /\ x / 2 = y.
Proof.
  intros Hr ->. split.
  - symmetry. apply (Nat.mod_unique _ 2 y r); lia.
  - symmetry. apply (Nat.div_unique _ 2 y r); lia.
Qed.

Lemma bitrev_lt p i : bitrev p i < 2 ^ p.
Proof.
  revert i; induction p as [|p IH]; intros i; [simpl; lia|].
  change (bitrev (S p) i) with ((i mod 2) * 2 ^ p + bitrev p (i / 2)).
  rewrite Nat.pow_succ_r'.
  pose proof (IH (i / 2)). pose proof (Nat.mod_upper_bound i 2 ltac:(lia)).
  destruct (i mod 2) as [|[|]]; lia.
Qed.

Lemma bitrev_0 p : bitrev p 0 = 0.
Proof.
  induction p as [|p IH]; [done|].
  change (bitrev (S p) 0) with ((0 mod 2) * 2 ^ p + bitrev p (0 / 2)).
  change (0 / 2) with 0. change (0 mod 2) with 0. rewrite IH. lia.
Qed.

(** Reversal read from the other end: the highest bit of the argument is
    the lowest of the result. *)
Lemma bitrev_msb p e c :
  e < 2 -> c < 2 ^ p -> bitrev (S p) (e * 2 ^ p + c) = 2 * bitrev p c + e.
Proof.
  revert c; induction p as [|p IH]; intros c He Hc.
  - assert (c = 0) as -> by (simpl in Hc; lia).
    destruct e as [|[|e]]; [reflexivity | reflexivity | lia].
  - change (bitrev (S (S p)) (e * 2 ^ S p + c))
      with (((e * 2 ^ S p + c) mod 2) * 2 ^ S p
            + bitrev (S p) ((e * 2 ^ S p + c) / 2)).
    pose proof (Nat.div_mod_eq c 2) as Hdm.
    pose proof (Nat.mod_upper_bound c 2 ltac:(lia)) as Hm.
    rewrite Nat.pow_succ_r' in Hc.
    destruct (halves (e * 2 ^ S p + c) (e * 2 ^ p + c / 2) (c mod 2) Hm)
      as [-> ->]; [rewrite Nat.pow_succ_r'; lia|].
    rewrite IH by (done || lia).
    change (bitrev (S p) c) with ((c mod 2) * 2 ^ p + bitrev p (c / 2)).
    rewrite Nat.pow_succ_r'. lia.
Qed.

Lemma bitrev_involutive p i : i < 2 ^ p -> bitrev p (bitrev p i) = i.
Proof.
  revert i; induction p as [|p IH]; intros i Hi; [simpl in *; lia|].
  change (bitrev (S p) i) with ((i mod 2) * 2 ^ p + bitrev p (i / 2)).
  pose proof (Nat.div_mod_eq i 2) as Hdm.
  pose proof (Nat.mod_upper_bound i 2 ltac:(lia)) as Hm.
  rewrite Nat.pow_succ_r' in Hi.
  rewrite bitrev_msb by (done || apply bitrev_lt).
  rewrite IH by lia. lia.
Qed.

(** The [while] loop adds one to a reversed counter. *)
Lemma carry_spec q fuel i :
  q < fuel -> S i < 2 ^ S q ->
  let '(m, j) := carry fuel (2 ^ q) (bitrev (S q) i) in
  j + m = bitrev (S q) (S i).
Proof.
  revert fuel i; induction q as [|q IH]; intros fuel i Hf Hi.
  - assert (i = 0) as -> by (simpl in Hi; lia).
    destruct fuel as [|fuel]; [lia|]. reflexivity.
  - destruct fuel as [|fuel]; [lia|].
    pose proof (Nat.div_mod_eq i 2) as Hdm.
    pose proof (Nat.mod_upper_bound i 2 ltac:(lia)) as Hm.
    pose proof (bitrev_lt (S q) (i / 2)) as Hlt.
    rewrite (Nat.pow_succ_r' 2 (S q)) in Hi.
    change (bitrev (S (S q)) i)
      with ((i mod 2) * 2 ^ S q + bitrev (S q) (i / 2)).
    change (bitrev (S (S q)) (S i))
      with ((S i mod 2) * 2 ^ S q + bitrev (S q) (S i / 2)).
    cbn [carry].
    assert (1 <= 2 ^ S q) by (pose proof (Nat.pow_nonzero 2 (S q)); lia).
    destruct (Nat.eq_dec (i mod 2) 0) as [He|Ho].
    + rewrite He.
      destruct (halves (S i) (i / 2) 1 ltac:(lia) ltac:(lia)) as [-> ->].
      replace ((1 <=? 2 ^ S q) && (2 ^ S q <=? 0 * 2 ^ S q + bitrev (S q) (i / 2)))
        with false; [lia|].
      symmetry. apply andb_false_iff. right. apply Nat.leb_gt. lia.
    + assert (i mod 2 = 1) as He by lia. rewrite He.
      destruct (halves (S i) (S (i / 2)) 0 ltac:(lia) ltac:(lia)) as [-> ->].
      replace ((1 <=? 2 ^ S q) && (2 ^ S q <=? 1 * 2 ^ S q + bitrev (S q) (i / 2)))
        with true.
      2:{ symmetry. apply andb_true_iff. split; apply Nat.leb_le; lia. }
      replace (2 ^ S q / 2) with (2 ^ q).
      2:{ rewrite Nat.pow_succ_r'.
          apply (Nat.div_unique _ 2 _ 0); lia. }
      replace (1 * 2 ^ S q + bitrev (S q) (i / 2) - 2 ^ S q)
        with (bitrev (S q) (i / 2)) by lia.
      specialize (IH fuel (i / 2) ltac:(lia) ltac:(lia)).
      destruct (carry fuel (2 ^ q) (bitrev (S q) (i / 2))) as [m j]. lia.
Qed.

Lemma nth_insert (l : list R) k v a :
  nth a (<[k := v]> l) 0%R
  = if (a =? k) && (k <? length l) then v else nth a l 0%R.
Proof.
  revert k a; induction l as [|x l IH]; intros [|k] [|a]; simpl; try done.
  by rewrite andb_false_r.
Qed.

Lemma at_index_swap real imag i j a :
  i < length real -> j < length real -> length imag = length real ->
  at_index (swap real i j) (swap imag i j) a
  = if a =? j then at_index real imag i
    else if a =? i then at_index real imag j
    else at_index real imag a.
Proof.
  intros Hi Hj Hlen. unfold at_index, swap.
  rewrite !nth_insert, !length_insert, Hlen.
  rewrite (proj2 (Nat.ltb_lt i (length real)) Hi).
  rewrite (proj2 (Nat.ltb_lt j (length real)) Hj).
  rewrite !andb_true_r.
  destruct (a =? j); [done|]. destruct (a =? i); done.
Qed.

Lemma length_swap (a : list R) i j : length (swap a i j) = length a.
Proof. unfold swap. by rewrite !length_insert. Qed.

Lemma bitrev_body_inv q real imag t st :
  t < 2 ^ S q ->
  bitrev_inv (S q) real imag t st ->
  bitrev_inv (S q) real imag (S t) (bitrev_body (2 ^ S q) t st).
Proof.
  intros Ht. destruct st as [[real' imag'] j].
  intros (Hlr & Hli & Hj & Harr). specialize (Hj Ht). subst j.
  set (p := S q) in *. set (r := bitrev p t).
  assert (r < 2 ^ p) as Hr by apply bitrev_lt.
  assert (bitrev p r = t) as Hrr by by apply bitrev_involutive.
  unfold bitrev_body.
  assert (2 ^ p / 2 = 2 ^ q) as ->.
  { unfold p. rewrite Nat.pow_succ_r'. symmetry.
    apply (Nat.div_unique _ 2 _ 0); lia. }
  pose proof (Nat.pow_gt_lin_r 2 p ltac:(lia)) as Hfuel.
  assert (S t < 2 ^ p ->
          let '(m, j) := carry (2 ^ p) (2 ^ q) r in j + m = bitrev p (S t))
    as Hcarry.
  { intros HSt. apply carry_spec; [clear -Hfuel; unfold p in *; lia | done]. }
  destruct (carry (2 ^ p) (2 ^ q) r) as [m j'].
  assert (forall a, a < 2 ^ p -> bitrev p a = t -> a = r) as Hinj.
  { intros a Ha <-. unfold r. by rewrite bitrev_involutive. }
  destruct (Nat.ltb_spec t r) as [Hlt|Hge].
  - split; [by rewrite length_swap|]. split; [by rewrite length_swap|].
    split; [done|]. intros a Ha.
    rewrite at_index_swap by lia.
    pose proof (Harr t Ht) as Hat. pose proof (Harr r Hr) as Har.
    fold r in Hat. rewrite Hrr in Har.
    rewrite (proj2 (Nat.ltb_ge t t)) in Hat, Har by lia.
    rewrite (proj2 (Nat.ltb_ge r t)) in Hat, Har by lia.
    simpl in Hat, Har.
    destruct (Nat.eqb_spec a r) as [->|Hnr].
    + rewrite Hrr, Hat. rewrite (proj2 (Nat.ltb_lt t (S t))) by lia.
      by rewrite orb_true_r.
    + destruct (Nat.eqb_spec a t) as [->|Hnt].
      * fold r. rewrite Har. by rewrite (proj2 (Nat.ltb_lt t (S t))) by lia.
      * rewrite Harr by done.
        assert (bitrev p a <> t) by (intros E; by apply Hnr, Hinj).
        replace (a <? S t) with (a <? t)
          by (destruct (Nat.ltb_spec a t), (Nat.ltb_spec a (S t)); lia).
        replace (bitrev p a <? S t) with (bitrev p a <? t)
          by (destruct (Nat.ltb_spec (bitrev p a) t),
                (Nat.ltb_spec (bitrev p a) (S t)); lia).
        done.
  - split; [done|]. split; [done|]. split; [done|]. intros a Ha.
    rewrite Harr by done.
    destruct (Nat.eq_dec a t) as [->|Hnt].
    + fold r. rewrite (proj2 (Nat.ltb_lt t (S t))) by lia.
      rewrite (proj2 (Nat.ltb_ge t t)) by lia. simpl.
      destruct (Nat.ltb_spec r t) as [|Hrt]; [done|].
      assert (r = t) as E by lia. by rewrite E.
    + destruct (Nat.eq_dec (bitrev p a) t) as [Heq|Hne].
      * assert (a = r) as E by by apply Hinj.
        rewrite E, Hrr.
        assert (r < t) by lia.
        rewrite (proj2 (Nat.ltb_lt r t)), (proj2 (Nat.ltb_lt r (S t))) by lia.
        done.
      * replace (a <? S t) with (a <? t)
          by (destruct (Nat.ltb_spec a t), (Nat.ltb_spec a (S t)); lia).
        replace (bitrev p a <? S t) with (bitrev p a <? t)
          by (destruct (Nat.ltb_spec (bitrev p a) t),
                (Nat.ltb_spec (bitrev p a) (S t)); lia).
        done.
Qed.

Lemma bitrev_prefix q real imag t :
  length real = 2 ^ S q -> length imag = 2 ^ S q -> t <= 2 ^ S q ->
  bitrev_inv (S q) real imag t
    (fold_left (fun st i => bitrev_body (2 ^ S q) i st) (seq 0 t)
       (real, imag, 0)).
Proof.
  intros Hlr Hli. induction t as [|t IH]; intros Ht.
  - cbn [seq fold_left bitrev_inv]. repeat split; try done.
    + intros _. by rewrite bitrev_0.
  - rewrite seq_S, fold_left_app. cbn [fold_left Nat.add].
    apply bitrev_body_inv; [lia|]. apply IH. lia.
Qed.

(** After the first loop of [fft] the arrays hold the input in
    bit-reversed order. *)
Lemma bitrev_loop q real imag :
  length real = 2 ^ S q -> length imag = 2 ^ S q ->
  let '(real', imag', _) :=
    for_loop (2 ^ S q) (fun i => i <? 2 ^ S q) S (bitrev_body (2 ^ S q)) 0
      (real, imag, 0) in
  length real' = 2 ^ S q /\ length imag' = 2 ^ S q
  /\ forall a, a < 2 ^ S q ->
       at_index real' imag' a = at_index real imag (bitrev (S q) a).
Proof.
  intros Hlr Hli. rewrite for_loop_count by lia. rewrite Nat.sub_0_r.
  pose proof (bitrev_prefix q real imag (2 ^ S q) Hlr Hli ltac:(lia)) as H.
  destruct (fold_left _ _ _) as [[real' imag'] j].
  destruct H as (H1 & H2 & _ & H4). split; [done|]. split; [done|].
  intros a Ha. rewrite H4 by done.
  by rewrite (proj2 (Nat.ltb_lt a (2 ^ S q))) by done.
Qed.

(** *** Complex arithmetic and twiddle factors *)

Lemma twiddle_0 L : twiddle L 0 = (1, 0)%R.
Proof.
  unfold twiddle. simpl. rewrite Rmult_0_l, cos_0, sin_0. done.
Qed.

Lemma twiddle_add L a b :
  twiddle L (a + b) = cmul (twiddle L a) (twiddle L b).
Proof.
  unfold twiddle, cmul. cbn [fst snd]. rewrite plus_INR, Rmult_plus_distr_r.
  rewrite cos_plus, sin_plus. f_equal; ring.
Qed.

Lemma twiddle_1 L :
  twiddle L 1 = (cos (-2 * PI / INR L), sin (-2 * PI / INR L)).
Proof. unfold twiddle. by rewrite Rmult_1_l. Qed.

Lemma twiddle_S L j : twiddle L (S j) = cmul (twiddle L j) (twiddle L 1).
Proof. rewrite <- twiddle_add. f_equal. lia. Qed.

(** *** One block of butterflies (lines 47-64) *)

Lemma butterfly_prefix half i real imag j :
  0 < half -> i + 2 * half <= length real -> length imag = length real ->
  j <= half ->
  let '(real', imag', curReal, curImag) :=
    fold_left
      (fun st j =>
         butterfly i half (cos (-2 * PI / INR (2 * half)))
           (sin (-2 * PI / INR (2 * half))) j st)
      (seq 0 j) (real, imag, 1%R, 0%R) in
  length real' = length real /\ length imag' = length real
  /\ (curReal, curImag) = twiddle (2 * half) j
  /\ forall a, at_index real' imag' a
              = block_prefix half i j (at_index real imag) a.
Proof.
  intros Hh Hi Hli. induction j as [|j IH]; intros Hj.
  - cbn [seq fold_left]. rewrite twiddle_0. repeat split; try done.
    intros a. unfold block_prefix.
    replace ((i <=? a) && (a <? i + 0)) with false
      by (destruct (Nat.leb_spec i a), (Nat.ltb_spec a (i + 0)); simpl; lia).
    replace ((i + half <=? a) && (a <? i + half + 0)) with false
      by (destruct (Nat.leb_spec (i + half) a),
            (Nat.ltb_spec a (i + half + 0)); simpl; lia).
    done.
  - rewrite seq_S, fold_left_app. cbn [fold_left Nat.add].
    specialize (IH ltac:(lia)).
    destruct (fold_left _ _ _) as [[[real' imag'] curReal] curImag].
    destruct IH as (Hlr & Hli' & Hcur & Harr).
    unfold butterfly.
    split; [by rewrite !length_insert|]. split; [by rewrite !length_insert|].
    split.
    { rewrite twiddle_S, <- Hcur, twiddle_1. unfold cmul. cbn [fst snd].
      f_equal; ring. }
    intros a. unfold at_index. rewrite !nth_insert, !length_insert.
    rewrite Hlr, Hli'.
    rewrite (proj2 (Nat.ltb_lt (i + j) (length real))) by lia.
    rewrite (proj2 (Nat.ltb_lt (i + j + half) (length real))) by lia.
    rewrite !andb_true_r.
    pose proof (Harr (i + j)) as Hlo. pose proof (Harr (i + j + half)) as Hhi.
    unfold at_index, block_prefix in Hlo, Hhi.
    replace ((i <=? i + j) && (i + j <? i + j)) with false in Hlo
      by (destruct (Nat.leb_spec i (i + j)), (Nat.ltb_spec (i + j) (i + j));
          simpl; lia).
    replace ((i + half <=? i + j) && (i + j <? i + half + j)) with false in Hlo
      by (destruct (Nat.leb_spec (i + half) (i + j)),
            (Nat.ltb_spec (i + j) (i + half + j)); simpl; lia).
    replace ((i <=? i + j + half) && (i + j + half <? i + j)) with false in Hhi
      by (destruct (Nat.leb_spec i (i + j + half)),
            (Nat.ltb_spec (i + j + half) (i + j)); simpl; lia).
    replace ((i + half <=? i + j + half) && (i + j + half <? i + half + j))
      with false in Hhi
      by (destruct (Nat.leb_spec (i + half) (i + j + half)),
            (Nat.ltb_spec (i + j + half) (i + half + j)); simpl; lia).
    injection Hlo as Hlo1 Hlo2. injection Hhi as Hhi1 Hhi2.
    rewrite Hlo1, Hlo2, Hhi1, Hhi2.
    injection Hcur as Hc1 Hc2.
    unfold block_prefix.
    destruct (Nat.eqb_spec a (i + j + half)) as [->|Hn1].
    + replace ((i <=? i + j + half) && (i + j + half <? i + S j)) with false
        by (destruct (Nat.leb_spec i (i + j + half)),
              (Nat.ltb_spec (i + j + half) (i + S j)); simpl; lia).
      replace ((i + half <=? i + j + half) && (i + j + half <? i + half + S j))
        with true
        by (destruct (Nat.leb_spec (i + half) (i + j + half)),
              (Nat.ltb_spec (i + j + half) (i + half + S j)); simpl; lia).
      replace (i + j + half - half) with (i + j) by lia.
      replace (i + j + half - i - half) with j by lia.
      rewrite Hc1, Hc2. reflexivity.
    + destruct (Nat.eqb_spec a (i + j)) as [->|Hn2].
      * replace ((i <=? i + j) && (i + j <? i + S j)) with true
          by (destruct (Nat.leb_spec i (i + j)),
                (Nat.ltb_spec (i + j) (i + S j)); simpl; lia).
        replace (i + j - i) with j by lia.
        rewrite Hc1, Hc2. reflexivity.
      * specialize (Harr a). unfold at_index, block_prefix in Harr.
        rewrite Harr.
        replace (a <? i + S j) with (a <? i + j)
          by (destruct (Nat.ltb_spec a (i + j)),
                (Nat.ltb_spec a (i + S j)); lia).
        replace (a <? i + half + S j) with (a <? i + half + j)
          by (destruct (Nat.ltb_spec a (i + half + j)),
                (Nat.ltb_spec a (i + half + S j)); lia).
        done.
Qed.

Lemma fft_block_spec half i real imag :
  0 < half -> i + 2 * half <= length real -> length imag = length real ->
  let '(real', imag') :=
    fft_block half (cos (-2 * PI / INR (2 * half)))
      (sin (-2 * PI / INR (2 * half))) i (real, imag) in
  length real' = length real /\ length imag' = length real
  /\ forall a, at_index real' imag' a
              = block_step half i (at_index real imag) a.
Proof.
  intros Hh Hi Hli. unfold fft_block. rewrite for_loop_count by lia.
  rewrite Nat.sub_0_r.
  pose proof (butterfly_prefix half i real imag half Hh Hi Hli ltac:(lia))
    as H.
  destruct (fold_left _ _ _) as [[[real' imag'] curReal] curImag].
  destruct H as (H1 & H2 & _ & H4). split; [done|]. split; [done|].
  intros a. rewrite H4. unfold block_prefix, block_step.
  by replace (i + half + half) with (i + 2 * half) by lia.
Qed.

(** *** One stage (lines 40-65) *)

Lemma stride_trace n len fuel B nb :
  0 < len -> n = nb * len -> nb - B <= fuel ->
  for_trace fuel (fun i => i <? n) (fun i => i + len) (B * len)
  = map (fun B => B * len) (seq B (nb - B)).
Proof.
  intros Hlen Hn. revert B; induction fuel as [|fuel IH]; intros B Hf.
  - by replace (nb - B) with 0 by lia.
  - cbn [for_trace]. destruct (Nat.ltb_spec (B * len) n) as [Hlt|Hge].
    + assert (B < nb) by nia.
      replace (B * len + len) with (S B * len) by lia.
      rewrite IH by lia.
      replace (nb - B) with (S (nb - S B)) by lia. done.
    + assert (nb <= B) by nia. by replace (nb - B) with 0 by lia.
Qed.

(** In a block, [a mod len] is the offset of [a] from the block start. *)
Lemma block_start B len a :
  B * len <= a < B * len + len -> a - a mod len = B * len.
Proof.
  intros Ha. assert (0 < len) as Hlen by lia.
  assert (a mod len = a - B * len) as ->; [|lia].
  symmetry. apply (Nat.mod_unique _ len B); lia.
Qed.

Lemma stage_prefix half nb real imag B :
  0 < half -> length real = nb * (2 * half) -> length imag = length real ->
  B <= nb ->
  let '(real', imag') :=
    fold_left
      (fun st i =>
         fft_block half (cos (-2 * PI / INR (2 * half)))
           (sin (-2 * PI / INR (2 * half))) i st)
      (map (fun B => B * (2 * half)) (seq 0 B)) (real, imag) in
  length real' = length real /\ length imag' = length real
  /\ forall a, at_index real' imag' a
              = if a <? B * (2 * half)
                then stage_step half (at_index real imag) a
                else at_index real imag a.
Proof.
  intros Hh Hlr Hli. induction B as [|B IH]; intros HB.
  - cbn [seq map fold_left]. repeat split; try done.
  - rewrite seq_S, map_app, fold_left_app. cbn [map fold_left Nat.add].
    specialize (IH ltac:(lia)).
    destruct (fold_left _ _ _) as [real' imag'].
    destruct IH as (Hlr' & Hli' & Harr).
    set (len := 2 * half) in *. set (i := B * len).
    assert (i + len <= length real') as Hfit by (rewrite Hlr', Hlr; unfold i; nia).
    pose proof (fft_block_spec half i real' imag' Hh Hfit ltac:(lia)) as H.
    fold len in H.
    destruct (fft_block _ _ _ _ _) as [real'' imag''].
    destruct H as (H1 & H2 & H3).
    split; [lia|]. split; [lia|]. intros a. rewrite H3.
    replace (S B * len) with (i + len) by (unfold i; lia).
    unfold block_step. fold len.
    destruct (Nat.ltb_spec a (i + len)) as [Hin|Hout].
    + destruct (Nat.leb_spec i a) as [Hge|Hlt]; cbn [andb].
      * (* inside the block *)
        assert (a - a mod len = i) as Hstart by (apply block_start; unfold i in *; lia).
        unfold stage_step, block_step. fold len. rewrite Hstart.
        destruct (Nat.leb_spec i a); [|lia]. cbn [andb].
        destruct (Nat.ltb_spec a (i + half)) as [Hlo|Hhi].
        -- rewrite !Harr.
           rewrite (proj2 (Nat.ltb_ge a (B * len))) by (fold i; lia).
           rewrite (proj2 (Nat.ltb_ge (a + half) (B * len))) by (fold i; lia).
           done.
        -- destruct (Nat.leb_spec (i + half) a); [|lia].
           rewrite (proj2 (Nat.ltb_lt a (i + len))) by lia. cbn [andb].
           rewrite !Harr.
           rewrite (proj2 (Nat.ltb_ge a (B * len))) by (fold i; lia).
           rewrite (proj2 (Nat.ltb_ge (a - half) (B * len)))
             by (fold i; unfold len in *; lia).
           done.
      * (* an earlier block *)
        destruct (Nat.leb_spec (i + half) a); [lia|]. cbn [andb].
        rewrite Harr. by rewrite (proj2 (Nat.ltb_lt a (B * len))) by (fold i; lia).
    + destruct (Nat.leb_spec i a); [|lia].
      rewrite (proj2 (Nat.ltb_ge a (i + half))) by (unfold len in *; lia).
      destruct (Nat.leb_spec (i + half) a); [|unfold len in *; lia].
      cbn [andb]. rewrite Harr. by rewrite (proj2 (Nat.ltb_ge a (B * len))) by (fold i; lia).
Qed.

Lemma fft_stage_spec half nb real imag :
  0 < half -> length real = nb * (2 * half) -> length imag = length real ->
  let '(real', imag') := fft_stage (length real) (2 * half) (real, imag) in
  length real' = length real /\ length imag' = length real
  /\ forall a, a < length real ->
       at_index real' imag' a = stage_step half (at_index real imag) a.
Proof.
  intros Hh Hlr Hli. unfold fft_stage.
  assert (2 * half / 2 = half) as ->
    by (symmetry; apply (Nat.div_unique _ 2 _ 0); lia).
  rewrite for_loop_fold.
  assert (nb <= length real) as Hnb by (rewrite Hlr; nia).
  pose proof (stride_trace (length real) (2 * half) (length real) 0 nb
                ltac:(lia) Hlr ltac:(lia)) as Htrace.
  change (0 * (2 * half)) with 0 in Htrace. rewrite Htrace, Nat.sub_0_r.
  pose proof (stage_prefix half nb real imag nb Hh Hlr Hli ltac:(lia)) as H.
  destruct (fold_left _ _ _) as [real' imag'].
  destruct H as (H1 & H2 & H3). split; [done|]. split; [done|].
  intros a Ha. rewrite H3.
  by rewrite (proj2 (Nat.ltb_lt a (nb * (2 * half)))) by lia.
Qed.

(** *** The butterfly identity of the transform *)

Ltac complex_ring :=
  unfold cadd, csub, cmul; cbn [fst snd]; f_equal; ring.

Lemma cadd_0_l z : cadd (0, 0)%R z = z.
Proof. destruct z. complex_ring. Qed.

Lemma cmul_1_r z : cmul z (1, 0)%R = z.
Proof. destruct z. complex_ring. Qed.

Lemma csum_ext f g n :
  (forall u, u < n -> f u = g u) -> csum f n = csum g n.
Proof.
  induction n as [|n IH]; intros H; cbn [csum]; [done|].
  rewrite IH by (intros; apply H; lia). by rewrite H by lia.
Qed.

Lemma csum_cadd f g n :
  csum (fun u => cadd (f u) (g u)) n = cadd (csum f n) (csum g n).
Proof.
  induction n as [|n IH]; cbn [csum]; [complex_ring|].
  rewrite IH. complex_ring.
Qed.

Lemma csum_cmul c f n :
  csum (fun u => cmul c (f u)) n = cmul c (csum f n).
Proof.
  induction n as [|n IH]; cbn [csum]; [complex_ring|].
  rewrite IH. complex_ring.
Qed.

(** A sum over [2 h] indices, by parity. *)
Lemma csum_parity f h :
  csum f (2 * h)
  = cadd (csum (fun v => f (2 * v)) h) (csum (fun v => f (2 * v + 1)) h).
Proof.
  induction h as [|h IH]; [cbn; complex_ring|].
  replace (2 * S h) with (S (S (2 * h))) by lia.
  cbn [csum]. rewrite IH.
  replace (S (2 * h)) with (2 * h + 1) by lia.
  complex_ring.
Qed.

Lemma INR_pos_neq n : 0 < n -> INR n <> 0%R.
Proof. intros H. apply not_0_INR. lia. Qed.

Lemma twiddle_double h e : 0 < h -> twiddle (2 * h) (2 * e) = twiddle h e.
Proof.
  intros Hh. unfold twiddle. pose proof (INR_pos_neq h Hh).
  replace (INR (2 * e) * (-2 * PI / INR (2 * h)))%R
    with (INR e * (-2 * PI / INR h))%R; [done|].
  rewrite !mult_INR. simpl. field. done.
Qed.

Lemma twiddle_period L e v : 0 < L -> twiddle L (e + v * L) = twiddle L e.
Proof.
  intros HL. unfold twiddle. pose proof (INR_pos_neq L HL).
  set (x := (INR (e + v * L) * (-2 * PI / INR L))%R).
  replace (INR e * (-2 * PI / INR L))%R with (x + 2 * INR v * PI)%R.
  - by rewrite cos_period, sin_period.
  - unfold x. rewrite plus_INR, mult_INR. field. done.
Qed.

Lemma twiddle_half h : 0 < h -> twiddle (2 * h) h = (-1, 0)%R.
Proof.
  intros Hh. unfold twiddle. pose proof (INR_pos_neq h Hh).
  replace (INR h * (-2 * PI / INR (2 * h)))%R with (- PI)%R.
  - rewrite cos_neg, sin_neg, cos_PI, sin_PI. f_equal; lra.
  - rewrite mult_INR. simpl. field. done.
Qed.

(** The transform of length [2 h] from the transforms of the even and of
    the odd entries. *)
Lemma dft_split h z t :
  0 < h ->
  let E := dft h (fun v => z (2 * v)) in
  let O := dft h (fun v => z (2 * v + 1)) in
  dft (2 * h) z t = cadd (E t) (cmul (twiddle (2 * h) t) (O t))
  /\ dft (2 * h) z (t + h) = csub (E t) (cmul (twiddle (2 * h) t) (O t)).
Proof.
  intros Hh E O. unfold E, O, dft. rewrite !csum_parity. split.
  - f_equal.
    + apply csum_ext. intros v _.
      replace (t * (2 * v)) with (2 * (t * v)) by lia.
      by rewrite twiddle_double.
    + rewrite <- csum_cmul. apply csum_ext. intros v _.
      replace (t * (2 * v + 1)) with (2 * (t * v) + t) by lia.
      rewrite twiddle_add, twiddle_double by done.
      destruct (z (2 * v + 1)), (twiddle h (t * v)), (twiddle (2 * h) t).
      complex_ring.
  - replace (csub (csum (fun u => cmul (z (2 * u)) (twiddle h (t * u))) h)
               (cmul (twiddle (2 * h) t)
                  (csum (fun u => cmul (z (2 * u + 1)) (twiddle h (t * u))) h)))
      with (cadd (csum (fun u => cmul (z (2 * u)) (twiddle h (t * u))) h)
              (cmul (cmul (twiddle (2 * h) t) (-1, 0)%R)
                 (csum (fun u => cmul (z (2 * u + 1)) (twiddle h (t * u))) h))).
    2:{ destruct (csum _ h), (csum _ h), (twiddle (2 * h) t). complex_ring. }
    f_equal.
    + apply csum_ext. intros v _.
      replace ((t + h) * (2 * v)) with (2 * (t * v + v * h)) by lia.
      by rewrite twiddle_double, twiddle_period.
    + rewrite <- csum_cmul. apply csum_ext. intros v _.
      replace ((t + h) * (2 * v + 1)) with (2 * (t * v + v * h) + (t + h))
        by lia.
      rewrite !twiddle_add, twiddle_double, twiddle_period, twiddle_half
        by done.
      destruct (z (2 * v + 1)), (twiddle h (t * v)), (twiddle (2 * h) t).
      complex_ring.
Qed.

(** *** All the stages *)

Lemma stage_done_init x p g :
  (forall a, a < 2 ^ p -> g a = x (bitrev p a)) -> stage_done x p 0 g.
Proof.
  intros Hg b t Hb Ht. assert (t = 0) as -> by (simpl in Ht; lia).
  rewrite Hg by (simpl; lia). unfold dft. simpl.
  rewrite twiddle_0, cmul_1_r, cadd_0_l.
  replace (b * 1 + 0) with b by lia. f_equal. lia.
Qed.

Lemma stage_done_step x q s g g' :
  stage_done x (S q) s g ->
  (forall a, a < 2 ^ (q + S s) -> g' a = stage_step (2 ^ s) g a) ->
  stage_done x q (S s) g'.
Proof.
  unfold stage_done. intros Hg Hg' b t Hb Ht.
  rewrite Nat.pow_add_r in Hg'. rewrite Nat.pow_succ_r' in Ht, Hg' |- *.
  set (half := 2 ^ s) in *.
  assert (0 < half) as Hh
    by (pose proof (Nat.pow_nonzero 2 s); unfold half; lia).
  rewrite Hg' by nia. unfold stage_step.
  rewrite (block_start b (2 * half)) by lia. unfold block_step.
  set (r := bitrev q b).
  assert (bitrev (S q) (2 * b) = r /\ bitrev (S q) (2 * b + 1) = 2 ^ q + r)
    as [Hr0 Hr1].
  { change (bitrev (S q) (2 * b))
      with (((2 * b) mod 2) * 2 ^ q + bitrev q ((2 * b) / 2)).
    change (bitrev (S q) (2 * b + 1))
      with (((2 * b + 1) mod 2) * 2 ^ q + bitrev q ((2 * b + 1) / 2)).
    destruct (halves (2 * b) b 0 ltac:(lia) ltac:(lia)) as [-> ->].
    destruct (halves (2 * b + 1) b 1 ltac:(lia) ltac:(lia)) as [-> ->].
    unfold r. lia. }
  assert (2 * b < 2 ^ S q /\ 2 * b + 1 < 2 ^ S q) as [Hb0 Hb1]
    by (rewrite Nat.pow_succ_r'; lia).
  pose proof (dft_split half (fun u => x (r + u * 2 ^ q))) as Hsplit.
  assert (forall t', t' < half ->
            g (b * (2 * half) + t')
            = dft half (fun v => x (r + 2 * v * 2 ^ q)) t'
            /\ g (b * (2 * half) + t' + half)
               = dft half (fun v => x (r + (2 * v + 1) * 2 ^ q)) t')
    as Hparts.
  { intros t' Ht'. split.
    - replace (b * (2 * half) + t') with (2 * b * half + t') by lia.
      rewrite Hg by done. rewrite Hr0.
      apply csum_ext. intros v _. do 2 f_equal.
      rewrite Nat.pow_succ_r'. lia.
    - replace (b * (2 * half) + t' + half) with ((2 * b + 1) * half + t')
        by lia.
      rewrite Hg by done. rewrite Hr1.
      apply csum_ext. intros v _. do 2 f_equal.
      rewrite Nat.pow_succ_r'. lia. }
  destruct (Nat.leb_spec (b * (2 * half)) (b * (2 * half) + t)); [|lia].
  cbn [andb].
  destruct (Nat.ltb_spec (b * (2 * half) + t) (b * (2 * half) + half))
    as [Hlo|Hhi].
  - destruct (Hparts t ltac:(lia)) as [HE HO].
    destruct (Hsplit t Hh) as [Hs _]. cbn zeta in Hs. rewrite Hs.
    rewrite HE, HO.
    by replace (b * (2 * half) + t - b * (2 * half)) with t by lia.
  - destruct (Nat.leb_spec (b * (2 * half) + half) (b * (2 * half) + t));
      [|lia].
    destruct (Nat.ltb_spec (b * (2 * half) + t) (b * (2 * half) + 2 * half));
      [|lia].
    cbn [andb].
    destruct (Hparts (t - half) ltac:(lia)) as [HE HO].
    destruct (Hsplit (t - half) Hh) as [_ Hs]. cbn zeta in Hs.
    replace (t - half + half) with t in Hs by lia. rewrite Hs.
    replace (b * (2 * half) + t - half) with (b * (2 * half) + (t - half))
      by lia.
    replace (b * (2 * half) + t)
      with (b * (2 * half) + (t - half) + half) at 2 by lia.
    rewrite HE, HO.
    by replace (b * (2 * half) + t - b * (2 * half) - half) with (t - half)
      by lia.
Qed.

Lemma stage_loop x p d s fuel real imag :
  s + d = p -> d <= fuel ->
  length real = 2 ^ p -> length imag = 2 ^ p ->
  stage_done x d s (at_index real imag) ->
  let '(real', imag') :=
    for_loop fuel (fun len => len <=? 2 ^ p) (fun len => len * 2)
      (fft_stage (2 ^ p)) (2 ^ S s) (real, imag) in
  length real' = 2 ^ p /\ length imag' = 2 ^ p
  /\ stage_done x 0 p (at_index real' imag').
Proof.
  revert s fuel real imag; induction d as [|d IH];
    intros s fuel real imag Hp Hf Hlr Hli Hdone.
  - assert (s = p) as -> by lia.
    rewrite for_loop_skip; [done|].
    apply Nat.leb_gt. rewrite Nat.pow_succ_r'.
    pose proof (Nat.pow_nonzero 2 p). lia.
  - destruct fuel as [|fuel]; [lia|]. cbn [for_loop].
    assert (2 ^ p = 2 ^ d * (2 * 2 ^ s)) as Hn.
    { rewrite <- Hp, <- Nat.pow_succ_r', <- Nat.pow_add_r. f_equal. lia. }
    assert (2 ^ S s <= 2 ^ p) as Hle
      by (apply Nat.pow_le_mono_r; lia).
    rewrite (proj2 (Nat.leb_le _ _) Hle).
    pose proof (Nat.pow_nonzero 2 s ltac:(lia)) as Hs0.
    pose proof (fft_stage_spec (2 ^ s) (2 ^ d) real imag ltac:(lia)
                  ltac:(lia) ltac:(lia)) as Hstage.
    rewrite Hlr, <- Nat.pow_succ_r' in Hstage.
    destruct (fft_stage (2 ^ p) (2 ^ S s) (real, imag)) as [real' imag'].
    destruct Hstage as (H1 & H2 & H3).
    replace (2 ^ S s * 2) with (2 ^ S (S s))
      by (rewrite (Nat.pow_succ_r' 2 (S s)); lia).
    apply IH; [lia | lia | done | done |].
    apply (stage_done_step x d s (at_index real imag)); [done|].
    intros a Ha. apply H3. rewrite <- Hp.
    replace (s + S d) with (d + S s) by lia. done.
Qed.

(** [fft] computes the discrete Fourier transform of its input, for every
    length that is a power of two and at least 2. *)
Theorem fft_is_dft q real imag :
  length real = 2 ^ S q -> length imag = 2 ^ S q ->
  let '(real', imag') := fft real imag in
  length real' = 2 ^ S q /\ length imag' = 2 ^ S q
  /\ forall t, t < 2 ^ S q ->
       at_index real' imag' t = dft (2 ^ S q) (at_index real imag) t.
Proof.
  intros Hlr Hli. unfold fft. rewrite Hlr.
  pose proof (Nat.pow_gt_lin_r 2 (S q) ltac:(lia)) as Hbig.
  rewrite (proj2 (Nat.leb_gt (2 ^ S q) 1)) by lia.
  pose proof (bitrev_loop q real imag Hlr Hli) as Hrev.
  destruct (for_loop _ _ _ (bitrev_body _) _ _) as [[real1 imag1] j].
  destruct Hrev as (Hl1 & Hl2 & Hperm).
  pose proof (stage_loop (at_index real imag) (S q) (S q) 0 (2 ^ S q)
                real1 imag1 ltac:(lia) ltac:(lia) Hl1 Hl2
                (stage_done_init _ _ _ Hperm)) as Hstages.
  change (2 ^ 1) with 2 in Hstages.
  destruct (for_loop _ _ _ (fft_stage _) _ _) as [real' imag'].
  destruct Hstages as (H1 & H2 & H3). split; [done|]. split; [done|].
  intros t Ht. specialize (H3 0 t ltac:(simpl; lia) Ht).
  replace (0 * 2 ^ S q + t) with t in H3 by lia. rewrite H3.
  apply csum_ext. intros u _. do 2 f_equal. simpl. lia.
Qed.

(** *** The transform of a sine *)

Lemma csum_components f n :
  csum f n = (rsum (fun u => fst (f u)) n, rsum (fun u => snd (f u)) n).
Proof.
  induction n as [|n IH]; cbn [csum rsum]; [done|].
  rewrite IH. unfold cadd. done.
Qed.

Lemma rsum_ext f g n :
  (forall u, u < n -> f u = g u) -> rsum f n = rsum g n.
Proof.
  induction n as [|n IH]; intros H; cbn [rsum]; [done|].
  rewrite IH by (intros; apply H; lia). by rewrite H by lia.
Qed.

Lemma rsum_plus f g n :
  rsum (fun u => (f u + g u)%R) n = (rsum f n + rsum g n)%R.
Proof. induction n as [|n IH]; cbn [rsum]; [lra|]. rewrite IH. lra. Qed.

Lemma rsum_scal c f n :
  rsum (fun u => (c * f u)%R) n = (c * rsum f n)%R.
Proof. induction n as [|n IH]; cbn [rsum]; [lra|]. rewrite IH. lra. Qed.

Lemma rsum_const c n : rsum (fun _ => c) n = (INR n * c)%R.
Proof.
  induction n as [|n IH]; cbn [rsum]; [simpl; lra|].
  rewrite IH, S_INR. lra.
Qed.

(** Telescoping sums of cosines and sines in arithmetic progression. *)
Lemma rsum_cos_telescope theta n :
  (2 * sin (theta / 2) * rsum (fun u => cos (INR u * theta)) n
   = sin ((INR n - 1 / 2) * theta) + sin (theta / 2))%R.
Proof.
  induction n as [|n IH]; cbn [rsum].
  - replace ((INR 0 - 1 / 2) * theta)%R with (- (theta / 2))%R
      by (simpl; lra).
    rewrite sin_neg. lra.
  - rewrite Rmult_plus_distr_l, IH, S_INR.
    replace ((INR n + 1 - 1 / 2) * theta)%R
      with (INR n * theta + theta / 2)%R by lra.
    replace ((INR n - 1 / 2) * theta)%R
      with (INR n * theta - theta / 2)%R by lra.
    rewrite sin_plus, sin_minus. lra.
Qed.

Lemma rsum_sin_telescope theta n :
  (2 * sin (theta / 2) * rsum (fun u => sin (INR u * theta)) n
   = cos (theta / 2) - cos ((INR n - 1 / 2) * theta))%R.
Proof.
  induction n as [|n IH]; cbn [rsum].
  - replace ((INR 0 - 1 / 2) * theta)%R with (- (theta / 2))%R
      by (simpl; lra).
    rewrite cos_neg. lra.
  - rewrite Rmult_plus_distr_l, IH, S_INR.
    replace ((INR n + 1 - 1 / 2) * theta)%R
      with (INR n * theta + theta / 2)%R by lra.
    replace ((INR n - 1 / 2) * theta)%R
      with (INR n * theta - theta / 2)%R by lra.
    rewrite cos_plus, cos_minus. lra.
Qed.

Lemma half_angle_sin_pos N j :
  0 < j < N -> (0 < sin (bin_angle N j / 2))%R.
Proof.
  intros [Hj HN]. unfold bin_angle.
  assert (0 < INR j)%R by (apply lt_0_INR; lia).
  assert (INR j < INR N)%R by (apply lt_INR; lia).
  pose proof PI_RGT_0.
  apply sin_gt_0.
  - apply Rdiv_lt_0_compat; [|lra]. apply Rdiv_lt_0_compat; nra.
  - apply Rmult_lt_reg_r with (INR N); [lra|].
    replace (2 * PI * INR j / INR N / 2 * INR N)%R with (PI * INR j)%R
      by (field; lra).
    nra.
Qed.

(** Over a whole number of periods the cosines and the sines add up
    to 0. *)
Lemma rsum_cos_period N j :
  0 < j < N -> rsum (fun u => cos (INR u * bin_angle N j)) N = 0%R.
Proof.
  intros Hj. pose proof (half_angle_sin_pos N j Hj) as Hs.
  pose proof (rsum_cos_telescope (bin_angle N j) N) as Ht.
  assert (INR N <> 0%R) by (apply not_0_INR; lia).
  replace ((INR N - 1 / 2) * bin_angle N j)%R
    with (- (bin_angle N j / 2) + 2 * INR j * PI)%R in Ht
    by (unfold bin_angle; field; done).
  rewrite sin_period, sin_neg in Ht. nra.
Qed.

Lemma rsum_sin_period N j :
  0 < N -> rsum (fun u => sin (INR u * bin_angle N j)) N = 0%R.
Proof.
  intros HN. destruct (Nat.eq_dec j 0) as [->|Hj0].
  - rewrite (rsum_ext _ (fun _ => 0%R)), rsum_const; [lra|].
    intros u _. unfold bin_angle. simpl.
    replace (INR u * (2 * PI * 0 / INR N))%R with 0%R
      by (unfold Rdiv; ring).
    apply sin_0.
  - assert (INR N <> 0%R) by (apply not_0_INR; lia).
    pose proof (rsum_sin_telescope (bin_angle N j) N) as Ht.
    replace ((INR N - 1 / 2) * bin_angle N j)%R
      with (- (bin_angle N j / 2) + 2 * INR j * PI)%R in Ht
      by (unfold bin_angle; field; done).
    rewrite cos_period, cos_neg in Ht.
    destruct (Nat.lt_ge_cases j N) as [Hlt|Hge].
    + pose proof (half_angle_sin_pos N j ltac:(lia)). nra.
    + (* more than one period per sample: reduce [j] modulo [N] *)
      assert (forall u, sin (INR u * bin_angle N j)
                        = sin (INR u * bin_angle N (j mod N))) as Hred.
      { intros u. pose proof (Nat.div_mod_eq j N) as Hdm.
        rewrite Hdm at 1. unfold bin_angle.
        rewrite plus_INR, mult_INR.
        replace (INR u * (2 * PI * (INR N * INR (j / N) + INR (j mod N))
                          / INR N))%R
          with (INR u * (2 * PI * INR (j mod N) / INR N)
                + 2 * INR (u * (j / N)) * PI)%R
          by (rewrite mult_INR; field; done).
        apply sin_period. }
      rewrite (rsum_ext _ _ N (fun u _ => Hred u)).
      pose proof (Nat.mod_upper_bound j N ltac:(lia)) as Hm.
      destruct (Nat.eq_dec (j mod N) 0) as [E|E].
      * rewrite E. rewrite (rsum_ext _ (fun _ => 0%R)), rsum_const; [lra|].
        intros u _. unfold bin_angle. simpl.
        replace (INR u * (2 * PI * 0 / INR N))%R with 0%R
          by (unfold Rdiv; ring).
        apply sin_0.
      * pose proof (rsum_sin_telescope (bin_angle N (j mod N)) N) as Ht'.
        replace ((INR N - 1 / 2) * bin_angle N (j mod N))%R
          with (- (bin_angle N (j mod N) / 2) + 2 * INR (j mod N) * PI)%R
          in Ht' by (unfold bin_angle; field; done).
        rewrite cos_period, cos_neg in Ht'.
        pose proof (half_angle_sin_pos N (j mod N) ltac:(lia)). nra.
Qed.

Lemma bin_angle_plus N a b :
  0 < N -> bin_angle N (a + b) = (bin_angle N a + bin_angle N b)%R.
Proof.
  intros HN. unfold bin_angle. rewrite plus_INR.
  assert (INR N <> 0%R) by (apply not_0_INR; lia). field. done.
Qed.

Lemma bin_angle_minus N a b :
  0 < N -> b <= a -> bin_angle N (a - b) = (bin_angle N a - bin_angle N b)%R.
Proof.
  intros HN Hba. unfold bin_angle. rewrite minus_INR by done.
  assert (INR N <> 0%R) by (apply not_0_INR; lia). field. done.
Qed.

Lemma twiddle_bin_angle N e u :
  0 < N ->
  twiddle N (e * u)
  = (cos (INR u * bin_angle N e), (- sin (INR u * bin_angle N e))%R).
Proof.
  intros HN. unfold twiddle, bin_angle.
  assert (INR N <> 0%R) by (apply not_0_INR; lia).
  replace (INR (e * u) * (-2 * PI / INR N))%R
    with (- (INR u * (2 * PI * INR e / INR N)))%R
    by (rewrite mult_INR; field; done).
  by rewrite cos_neg, sin_neg.
Qed.

(** The transform of the sine of bin [k]: nothing in the real part, and in
    the imaginary part [- N / 2] at bin [k] and nothing elsewhere (below
    [N - k]). *)
Lemma dft_sine N k t :
  0 < k -> k + t < N ->
  dft N (fun u => (sin (INR u * bin_angle N k), 0%R)) t
  = (0%R, if t =? k then (- (INR N / 2))%R else 0%R).
Proof.
  intros Hk Hkt. assert (0 < N) as HN by lia.
  unfold dft. rewrite csum_components. f_equal.
  - (* real part: sums of sines *)
    destruct (Nat.le_gt_cases t k) as [Hle|Hgt].
    + rewrite (rsum_ext _
        (fun u => (1 / 2 * sin (INR u * bin_angle N (k + t))
                   + 1 / 2 * sin (INR u * bin_angle N (k - t)))%R)).
      * rewrite rsum_plus, !rsum_scal, !rsum_sin_period by done. lra.
      * intros u _. rewrite twiddle_bin_angle by done.
        unfold cmul. cbn [fst snd].
        rewrite bin_angle_plus, bin_angle_minus by done.
        rewrite !Rmult_plus_distr_l, !Rmult_minus_distr_l.
        rewrite sin_plus, sin_minus. lra.
    + rewrite (rsum_ext _
        (fun u => (1 / 2 * sin (INR u * bin_angle N (k + t))
                   + - (1 / 2) * sin (INR u * bin_angle N (t - k)))%R)).
      * rewrite rsum_plus, !rsum_scal, !rsum_sin_period by done. lra.
      * intros u _. rewrite twiddle_bin_angle by done.
        unfold cmul. cbn [fst snd].
        rewrite bin_angle_plus, bin_angle_minus by (done || lia).
        rewrite !Rmult_plus_distr_l, !Rmult_minus_distr_l.
        rewrite sin_plus, sin_minus. lra.
  - (* imaginary part: sums of cosines *)
    destruct (Nat.eqb_spec t k) as [->|Hne].
    + rewrite (rsum_ext _
        (fun u => (- (1 / 2)
                   + 1 / 2 * cos (INR u * bin_angle N (k + k)))%R)).
      * rewrite rsum_plus, rsum_scal, rsum_const, rsum_cos_period by lia.
        lra.
      * intros u _. rewrite twiddle_bin_angle by done.
        unfold cmul. cbn [fst snd].
        rewrite bin_angle_plus by done.
        rewrite !Rmult_plus_distr_l, cos_plus.
        pose proof (sin2_cos2 (INR u * bin_angle N k)) as H.
        unfold Rsqr in H. lra.
    + destruct (Nat.le_gt_cases t k) as [Hle|Hgt].
      * rewrite (rsum_ext _
          (fun u => (- (1 / 2) * cos (INR u * bin_angle N (k - t))
                     + 1 / 2 * cos (INR u * bin_angle N (k + t)))%R)).
        -- rewrite rsum_plus, !rsum_scal, !rsum_cos_period by lia. lra.
        -- intros u _. rewrite twiddle_bin_angle by done.
           unfold cmul. cbn [fst snd].
           rewrite bin_angle_plus, bin_angle_minus by done.
           rewrite !Rmult_plus_distr_l, !Rmult_minus_distr_l.
           rewrite cos_plus, cos_minus. lra.
      * rewrite (rsum_ext _
          (fun u => (- (1 / 2) * cos (INR u * bin_angle N (t - k))
                     + 1 / 2 * cos (INR u * bin_angle N (k + t)))%R)).
        -- rewrite rsum_plus, !rsum_scal, !rsum_cos_period by lia. lra.
        -- intros u _. rewrite twiddle_bin_angle by done.
           unfold cmul. cbn [fst snd].
           rewrite bin_angle_plus, bin_angle_minus by (done || lia).
           rewrite !Rmult_plus_distr_l, !Rmult_minus_distr_l.
           rewrite cos_plus, cos_minus. lra.
Qed.

(** *** The magnitudes (lines 82-88) *)

Lemma fill_prefix (f : nat -> R) (k : nat) (l : list R) :
  k <= length l ->
  fold_left (fun cur i => <[i := f i]> cur) (seq 0 k) l
  = map f (seq 0 k) ++ drop k l.
Proof.
  induction k as [|k IH]; intros Hk; [done|].
  rewrite seq_S, fold_left_app, IH by lia. cbn [fold_left Nat.add].
  destruct (lookup_lt_is_Some_2 l k ltac:(lia)) as [x Hx].
  assert (length (map f (seq 0 k)) = k) as Hlen
    by by rewrite length_map, length_seq.
  rewrite (drop_S l x k Hx).
  rewrite insert_app_r_alt by lia. rewrite Hlen, Nat.sub_diag.
  rewrite map_app. cbn [map insert list_insert]. by rewrite <- app_assoc.
Qed.

Lemma half_range_trace h fuel i0 :
  h - i0 <= fuel ->
  for_trace fuel (fun i => 2 * i <? 2 * h) S i0 = seq i0 (h - i0).
Proof.
  revert i0; induction fuel as [|fuel IH]; intros i0 Hf; cbn [for_trace].
  - by replace (h - i0) with 0 by lia.
  - destruct (Nat.ltb_spec (2 * i0) (2 * h)) as [Hlt|Hge].
    + rewrite IH by lia. replace (h - i0) with (S (h - S i0)) by lia. done.
    + by replace (h - i0) with 0 by lia.
Qed.

Lemma magnitudeOf_even real imag h :
  magnitudeOf real imag (2 * h)
  = map (fun i => sqrt (nth i real 0 * nth i real 0
                        + nth i imag 0 * nth i imag 0)%R)
      (seq 0 h).
Proof.
  unfold magnitudeOf. rewrite for_loop_fold, half_range_trace by lia.
  assert (2 * h / 2 = h) as ->
    by (symmetry; apply (Nat.div_unique _ 2 _ 0); lia).
  rewrite Nat.sub_0_r. unfold magnitude_body.
  rewrite (fill_prefix
             (fun i => sqrt (nth i real 0 * nth i real 0
                             + nth i imag 0 * nth i imag 0)%R) h)
    by by rewrite repeat_length.
  rewrite skipn_all2 by by rewrite repeat_length.
  by rewrite app_nil_r.
Qed.

(** *** The spectrum of a sine, without the window *)

Lemma sineFrame_at k N u :
  0 < N -> u < N ->
  at_index (sineFrame k N) (repeat 0%R N) u
  = (sin (INR u * bin_angle N k), 0%R).
Proof.
  intros HN Hu. unfold at_index, sineFrame. f_equal.
  - rewrite (nth_indep _ 0%R (sin (2 * PI * INR k * INR 0 / INR N)))
      by by rewrite length_map, length_seq.
    rewrite (map_nth (fun n => sin (2 * PI * INR k * INR n / INR N))).
    rewrite seq_nth by done. cbn [Nat.add]. f_equal.
    unfold bin_angle. assert (INR N <> 0%R) by (apply not_0_INR; lia).
    field. done.
  - destruct (nth_in_or_default u (repeat 0%R N) 0%R) as [Hin|E]; [|done].
    by apply repeat_spec in Hin.
Qed.

(** Without the window, the spectrum of the sine of bin [k] is [N / 2] at
    bin [k] and 0 at the other bins. *)
Lemma unwindowedSpectrum_sine q k :
  0 < k < 2 ^ q ->
  unwindowedSpectrum (sineFrame k (2 ^ S q)) (2 ^ S q)
  = map (fun t => if t =? k then (INR (2 ^ S q) / 2)%R else 0%R) (seq 0 (2 ^ q)).
Proof.
  intros [Hk0 Hk]. unfold unwindowedSpectrum.
  set (N := 2 ^ S q).
  assert (N = 2 * 2 ^ q) as HN by apply Nat.pow_succ_r'.
  pose proof (fft_is_dft q (sineFrame k N) (repeat 0%R N)) as Hfft.
  fold N in Hfft.
  destruct (fft (sineFrame k N) (repeat 0%R N)) as [real imag].
  destruct Hfft as (_ & _ & Hdft).
  { unfold sineFrame. by rewrite length_map, length_seq. }
  { by rewrite repeat_length. }
  rewrite HN at 1. rewrite magnitudeOf_even. apply map_ext_in.
  intros t Ht%in_seq.
  specialize (Hdft t ltac:(lia)).
  assert (dft N (at_index (sineFrame k N) (repeat 0%R N)) t
          = dft N (fun u => (sin (INR u * bin_angle N k), 0%R)) t) as E.
  { unfold dft. apply csum_ext. intros u Hu.
    by rewrite sineFrame_at by lia. }
  rewrite E, dft_sine in Hdft by lia.
  unfold at_index in Hdft. injection Hdft as -> ->.
  assert (0 <= INR N / 2)%R by (pose proof (pos_INR N); lra).
  destruct (t =? k).
  - replace (0 * 0 + - (INR N / 2) * - (INR N / 2))%R
      with (INR N / 2 * (INR N / 2))%R by ring.
    by apply sqrt_square.
  - replace (0 * 0 + 0 * 0)%R with 0%R by ring. apply sqrt_0.
Qed.

Lemma unwindowed_sine_peak q k :
  0 < k < 2 ^ q ->
  uniquePeakAt (unwindowedSpectrum (sineFrame k (2 ^ S q)) (2 ^ S q)) k.
Proof.
  intros Hk. rewrite unwindowedSpectrum_sine by done.
  set (f := fun t => if t =? k then (INR (2 ^ S q) / 2)%R else 0%R).
  assert (forall m, m < 2 ^ q -> nth m (map f (seq 0 (2 ^ q))) 0%R = f m)
    as Hnth.
  { intros m Hm. rewrite (nth_indep _ 0%R (f 0))
      by by rewrite length_map, length_seq.
    rewrite map_nth, seq_nth by done. done. }
  split; [rewrite length_map, length_seq; lia|].
  rewrite length_map, length_seq. intros m Hm Hne.
  rewrite !Hnth by lia. unfold f.
  rewrite Nat.eqb_refl, (proj2 (Nat.eqb_neq m k)) by done.
  assert (0 < INR (2 ^ S q))%R; [|lra].
  apply lt_0_INR. pose proof (Nat.pow_nonzero 2 (S q)). lia.
Qed.

(** *** The sine of a bin-aligned frequency *)

Lemma Math_round_INR (k : nat) : Math_round (INR k) = Z.of_nat k.
Proof.
  unfold Math_round. apply Zfloor_eq. rewrite <- INR_IZR_INZ. lra.
Qed.

Lemma binOf_aligned (k fftSize : nat) (sampleRate : R) :
  0 < fftSize -> (0 < sampleRate)%R ->
  binOf (INR k * sampleRate / INR fftSize) sampleRate fftSize = Z.of_nat k.
Proof.
  intros HF Hsr. unfold binOf. rewrite <- Math_round_INR. f_equal.
  assert (INR fftSize <> 0%R) by (apply not_0_INR; lia).
  field. split; lra.
Qed.

Lemma sineWave_aligned (k fftSize : nat) (sampleRate : R) :
  0 < fftSize -> (0 < sampleRate)%R ->
  sineWave (INR k * sampleRate / INR fftSize) sampleRate fftSize
  = sineFrame k fftSize.
Proof.
  intros HF Hsr. unfold sineWave, sineFrame. apply map_ext. intros n.
  f_equal. assert (INR fftSize <> 0%R) by (apply not_0_INR; lia).
  field. split; lra.
Qed.



(** ** The spectrum of a sine behind the Hann window *)

Lemma sineFrame_1_4 : sineFrame 1 4 = [0; 1; 0; -1]%R.
Proof.
  unfold sineFrame. cbn [seq map]. repeat f_equal.
  - replace (2 * PI * INR 1 * INR 0 / INR 4)%R with 0%R by (simpl; field).
    apply sin_0.
  - replace (2 * PI * INR 1 * INR 1 / INR 4)%R with (PI / 2)%R
      by (simpl; field).
    apply sin_PI2.
  - replace (2 * PI * INR 1 * INR 2 / INR 4)%R with PI by (simpl; field).
    apply sin_PI.
  - replace (2 * PI * INR 1 * INR 3 / INR 4)%R with (3 * (PI / 2))%R
      by (simpl; field).
    apply sin_3PI2.
Qed.

Lemma hann_4 :
  hann 4 0 = 0%R /\ hann 4 1 = (3 / 4)%R /\ hann 4 2 = (3 / 4)%R
  /\ hann 4 3 = 0%R.
Proof.
  unfold hann. repeat split.
  - replace (2 * PI * INR 0 / (INR 4 - 1))%R with 0%R by (simpl; field).
    rewrite cos_0. lra.
  - replace (2 * PI * INR 1 / (INR 4 - 1))%R with (2 * (PI / 3))%R
      by (simpl; field).
    rewrite cos_2PI3. lra.
  - replace (2 * PI * INR 2 / (INR 4 - 1))%R with (PI / 3 + PI)%R
      by (simpl; field).
    rewrite neg_cos, cos_PI3. lra.
  - replace (2 * PI * INR 3 / (INR 4 - 1))%R with (2 * PI)%R
      by (simpl; field).
    rewrite cos_2PI. lra.
Qed.

Lemma twiddle_2 : cos (-2 * PI / INR 2) = (-1)%R /\ sin (-2 * PI / INR 2) = 0%R.
Proof.
  replace (-2 * PI / INR 2)%R with (- PI)%R by (simpl; field).
  rewrite cos_neg, sin_neg, cos_PI, sin_PI. split; lra.
Qed.

Lemma twiddle_4 : cos (-2 * PI / INR 4) = 0%R /\ sin (-2 * PI / INR 4) = (-1)%R.
Proof.
  replace (-2 * PI / INR 4)%R with (- (PI / 2))%R by (simpl; field).
  rewrite cos_neg, sin_neg, cos_PI2, sin_PI2. split; lra.
Qed.

Lemma windowed_sine_4 :
  for_loop 4 (fun i => i <? 4) S (window_body [0; 1; 0; -1]%R 4) 0
    (repeat 0%R 4, repeat 0%R 4)
  = ([0; 3 / 4; 0; 0]%R, [0; 0; 0; 0]%R).
Proof.
  destruct hann_4 as (H0 & H1 & H2 & H3).
  cbn [for_loop Nat.ltb Nat.leb window_body repeat nth].
  rewrite H0, H1, H2, H3.
  cbn [insert list_insert]. repeat f_equal; lra.
Qed.

Lemma fft_windowed_sine_4 :
  fft [0; 3 / 4; 0; 0]%R [0; 0; 0; 0]%R
  = ([3 / 4; 0; - (3 / 4); 0]%R, [0; - (3 / 4); 0; 3 / 4]%R).
Proof.
  destruct twiddle_2 as [C2 S2]. destruct twiddle_4 as [C4 S4].
  unfold fft.
  cbn [length Nat.leb for_loop Nat.ltb bitrev_body carry andb Nat.div
       Nat.divmod fst snd Nat.sub Nat.add Nat.mul swap nth insert
       list_insert fft_stage fft_block butterfly].
  rewrite ?C2, ?S2, ?C4, ?S4.
  repeat f_equal; lra.
Qed.

(** With four samples the Hann window keeps a single sample of the sine of
    bin 1, and the spectrum is flat: bins 0 and 1 both hold 3/4. *)
Lemma spectrum_of_sine_at_4 :
  getMagnitudeSpectrum (sineFrame 1 4) 4 = [3 / 4; 3 / 4]%R.
Proof.
  unfold getMagnitudeSpectrum, magnitudeOf.
  rewrite sineFrame_1_4, windowed_sine_4, fft_windowed_sine_4.
  cbn [for_loop Nat.ltb Nat.leb Nat.mul Nat.add magnitude_body nth repeat
       Nat.div Nat.divmod fst insert list_insert].
  assert (sqrt (3 / 4 * (3 / 4) + 0 * 0) = 3 / 4)%R as ->.
  { replace (3 / 4 * (3 / 4) + 0 * 0)%R with (3 / 4 * (3 / 4))%R by lra.
    apply sqrt_square. lra. }
  assert (sqrt (0 * 0 + - (3 / 4) * - (3 / 4)) = 3 / 4)%R as ->.
  { replace (0 * 0 + - (3 / 4) * - (3 / 4))%R with (3 / 4 * (3 / 4))%R by lra.
    apply sqrt_square. lra. }
  reflexivity.
Qed.


(** ** No loop of the model is cut short

    Each loop of Part I is given, as its bound, a number that the source
    makes available at that point (an array length, a frame size).  The
    lemmas below show that every one of them leaves through its condition
    within that bound, so that a larger bound would give the same result
    ([for_loop_fuel]). *)

Lemma exits_stride n len fuel i :
  0 < len -> n - i <= fuel ->
  exits (fun i => i <? n) (fun i => i + len) fuel i.
Proof.
  intros Hlen; revert i; induction fuel as [|fuel IH]; intros i Hf; simpl.
  - apply Nat.ltb_ge. lia.
  - intros _. apply IH. lia.
Qed.

Lemma exits_doubling n fuel len :
  0 < len -> n < len + fuel ->
  exits (fun len => len <=? n) (fun len => len * 2) fuel len.
Proof.
  revert len; induction fuel as [|fuel IH]; intros len Hlen Hf; simpl.
  - apply Nat.leb_gt. lia.
  - intros _. apply IH; lia.
Qed.

Lemma exits_half_range fftSize fuel i :
  fftSize - i <= fuel -> exits (fun i => 2 * i <? fftSize) S fuel i.
Proof.
  revert i; induction fuel as [|fuel IH]; intros i Hf; simpl.
  - apply Nat.ltb_ge. lia.
  - intros _. apply IH. lia.
Qed.

Lemma exits_lags (maxLag : Z) (len : nat) fuel lag :
  len <= lag + fuel ->
  exits (fun lag => (Z.of_nat lag <=? maxLag)%Z
                    && Rltb (INR lag) (INR len / 2)) S fuel lag.
Proof.
  revert lag; induction fuel as [|fuel IH]; intros lag Hf; simpl.
  - apply andb_false_iff. right. apply Rltb_false.
    assert (INR len <= INR lag)%R by (apply le_INR; lia).
    pose proof (pos_INR len). lra.
  - intros _. apply IH. lia.
Qed.

(** The [while] loop of the bit reversal halves [m] each time round. *)
Lemma carry_fuel fuel extra m j :
  m <= fuel -> carry (fuel + extra) m j = carry fuel m j.
Proof.
  revert m j; induction fuel as [|fuel IH]; intros m j Hm;
    cbn [Nat.add carry].
  - assert (m = 0) as Hm0 by (clear -Hm; lia). subst m. by destruct extra.
  - destruct ((1 <=? m) && (m <=? j)) eqn:Hc; [|done].
    apply IH. apply andb_true_iff in Hc as [H1%Nat.leb_le _].
    pose proof (Nat.div_lt m 2 ltac:(lia) ltac:(lia)). lia.
Qed.

(** The loops of [fft] on arrays of length [n]. *)
Lemma fft_loops_exit n :
  exits (fun i => i <? n) S n 0
  /\ (forall j, carry (n + 1) (n / 2) j = carry n (n / 2) j)
  /\ exits (fun len => len <=? n) (fun len => len * 2) n 2
  /\ (forall len, 0 < len ->
        exits (fun i => i <? n) (fun i => i + len) n 0
        /\ exits (fun j => j <? len / 2) S (len / 2) 0).
Proof.
  split; [apply exits_count; lia|].
  split; [intros j; apply carry_fuel, Nat.div_le_upper_bound; lia|].
  split; [apply exits_doubling; lia|].
  intros len Hlen. split; [apply exits_stride; lia | apply exits_count; lia].
Qed.

(** The loops of [getMagnitudeSpectrum]. *)
Lemma getMagnitudeSpectrum_loops_exit fftSize :
  exits (fun i => i <? fftSize) S fftSize 0
  /\ exits (fun i => 2 * i <? fftSize) S fftSize 0.
Proof. split; [apply exits_count | apply exits_half_range]; lia. Qed.

(** The loops of [pearsonCorrelation] and [detectKey]; the hop size of
    [detectKey] is 4096. *)
Lemma detectKey_loops_exit (a data magnitude : list R) fftSize hopSize :
  0 < hopSize ->
  exits (fun i => i <? length a) S (length a) 0
  /\ exits (fun start => start + fftSize <? length data)
       (fun start => start + hopSize) (length data) 0
  /\ exits (fun bin => bin <? length magnitude) S (length magnitude) 1
  /\ exits (fun i => i <? 12) S 12 0.
Proof.
  intros Hh.
  split; [apply exits_count; lia|].
  split; [apply exits_frames; lia|].
  split; apply exits_count; lia.
Qed.

(** The loops of [detectBPM]; its hop size is 512. *)
Lemma detectBPM_loops_exit (data magnitude spectralFlux correlations : list R)
  fftSize hopSize (maxLag : Z) (minLag lag : nat) :
  0 < hopSize ->
  exits (fun start => start + fftSize <? length data)
    (fun start => start + hopSize) (length data) 0
  /\ exits (fun i => i <? length magnitude) S (length magnitude) 0
  /\ exits (fun i => i <? length spectralFlux) S (length spectralFlux) 0
  /\ exits (fun lag => (Z.of_nat lag <=? maxLag)%Z
                       && Rltb (INR lag) (INR (length spectralFlux) / 2))
       S (length spectralFlux) minLag
  /\ exits (fun i => i <? length spectralFlux - lag) S
       (length spectralFlux) 0
  /\ exits (fun i => i <? length correlations - 1) S (length correlations) 1.
Proof.
  intros Hh.
  split; [apply exits_frames; lia|].
  split; [apply exits_count; lia|].
  split; [apply exits_count; lia|].
  split; [apply exits_lags; lia|].
  split; apply exits_count; lia.
Qed.

(** ** [pearsonCorrelation] (lines 91-106) *)

Lemma pearson_loop a b k :
  fold_left (fun st i => pearson_body a b i st) (seq 0 k) (0, 0, 0, 0, 0)%R
  = (rsum (entry a) k, rsum (entry b) k,
     rsum (fun i => entry a i * entry b i)%R k,
     rsum (fun i => entry a i * entry a i)%R k,
     rsum (fun i => entry b i * entry b i)%R k).
Proof.
  induction k as [|k IH]; [done|].
  rewrite seq_S, fold_left_app, IH. cbn [fold_left Nat.add rsum].
  unfold pearson_body, entry. done.
Qed.

(** The loop of lines 95-101 computes the five sums. *)
Lemma pearsonCorrelation_sums a b :
  pearsonCorrelation a b
  = pearson_of_sums (INR (length a))
      (rsum (entry a) (length a)) (rsum (entry b) (length a))
      (rsum (fun i => entry a i * entry b i)%R (length a))
      (rsum (fun i => entry a i * entry a i)%R (length a))
      (rsum (fun i => entry b i * entry b i)%R (length a)).
Proof.
  unfold pearsonCorrelation.
  rewrite for_loop_count by lia. rewrite Nat.sub_0_r, pearson_loop. done.
Qed.

Lemma rsum_sq_nonneg f n : (0 <= rsum (fun i => f i * f i) n)%R.
Proof.
  induction n as [|n IH]; cbn [rsum]; [lra|]. pose proof (Rle_0_sqr (f n)) as H.
  unfold Rsqr in H. lra.
Qed.

Lemma rsum_sq_zero f n :
  rsum (fun i => f i * f i)%R n = 0%R -> forall i, i < n -> f i = 0%R.
Proof.
  induction n as [|n IH]; cbn [rsum]; intros H i Hi; [lia|].
  pose proof (rsum_sq_nonneg f n) as H1.
  pose proof (Rle_0_sqr (f n)) as H2. unfold Rsqr in H2.
  destruct (Nat.eq_dec i n) as [->|Hne].
  - assert (f n * f n = 0)%R as H3 by lra.
    apply Rmult_integral in H3. tauto.
  - apply IH; [lra | lia].
Qed.

Lemma rsum_quadratic x y t n :
  rsum (fun i => (x i * t + y i) * (x i * t + y i))%R n
  = (rsum (fun i => x i * x i) n * (t * t)
     + 2 * rsum (fun i => x i * y i) n * t
     + rsum (fun i => y i * y i) n)%R.
Proof. induction n as [|n IH]; cbn [rsum]; [lra|]. rewrite IH. ring. Qed.

(** The Cauchy-Schwarz inequality on finite sums. *)
Lemma rsum_cauchy_schwarz x y n :
  (rsum (fun i => x i * y i) n * rsum (fun i => x i * y i) n
   <= rsum (fun i => x i * x i) n * rsum (fun i => y i * y i) n)%R.
Proof.
  pose proof (rsum_sq_nonneg x n) as HX.
  pose proof (rsum_sq_nonneg y n) as HY.
  assert (forall t,
             0 <= rsum (fun i => x i * x i) n * (t * t)
                  + 2 * rsum (fun i => x i * y i) n * t
                  + rsum (fun i => y i * y i) n)%R as Hq.
  { intros t. rewrite <- rsum_quadratic.
    apply (rsum_sq_nonneg (fun i => x i * t + y i)%R). }
  set (X := rsum (fun i => (x i * x i)%R) n) in *.
  set (Y := rsum (fun i => (y i * y i)%R) n) in *.
  set (P := rsum (fun i => (x i * y i)%R) n) in *.
  destruct (Req_dec X 0) as [HX0|HX0].
  - destruct (Req_dec P 0) as [HP0|HP0]; [rewrite HP0, HX0; lra|].
    exfalso. specialize (Hq (- (Y + 1) / (2 * P))%R).
    rewrite HX0 in Hq.
    replace (0 * (- (Y + 1) / (2 * P) * (- (Y + 1) / (2 * P)))
             + 2 * P * (- (Y + 1) / (2 * P)) + Y)%R with (-1)%R in Hq
      by (field; done).
    lra.
  - specialize (Hq (- P / X)%R).
    replace (X * (- P / X * (- P / X)) + 2 * P * (- P / X) + Y)%R
      with ((X * Y - P * P) / X)%R in Hq by (field; done).
    assert (0 < X)%R as HXpos by lra.
    assert (0 <= (X * Y - P * P) / X * X)%R as H
      by (apply Rmult_le_pos; lra).
    replace ((X * Y - P * P) / X * X)%R with (X * Y - P * P)%R in H
      by (field; done).
    lra.
Qed.

(** The two factors under the square root of line 104 and the numerator
    of line 103, as sums over the centred entries. *)
Lemma centred_products f g n :
  let A := rsum f n in
  let B := rsum g n in
  rsum (fun i => (INR n * f i - A) * (INR n * g i - B))%R n
  = (INR n * (INR n * rsum (fun i => f i * g i) n - A * B))%R.
Proof.
  intros A B.
  rewrite (rsum_ext _ (fun i => INR n * INR n * (f i * g i)
                                + (- (INR n * B) * f i
                                   + (- (INR n * A) * g i + A * B)))%R)
    by (intros; ring).
  rewrite rsum_plus, rsum_scal, rsum_plus, rsum_scal, rsum_plus, rsum_scal,
    rsum_const.
  fold A B. ring.
Qed.

Lemma variance_nonneg f n :
  (0 <= INR n * rsum (fun i => f i * f i) n - rsum f n * rsum f n)%R.
Proof.
  destruct n as [|n]; [simpl; lra|].
  pose proof (centred_products f f (S n)) as H. cbv zeta in H.
  pose proof (rsum_sq_nonneg (fun i => INR (S n) * f i - rsum f (S n))%R (S n))
    as Hpos.
  cbv beta in Hpos. rewrite H in Hpos.
  assert (0 < INR (S n))%R as Hn by (apply lt_0_INR; lia).
  set (V := (INR (S n) * rsum (fun i => f i * f i) (S n)
             - rsum f (S n) * rsum f (S n))%R) in *.
  destruct (Rle_dec 0 V); [done|]. exfalso.
  set (N := INR (S n)) in *. clearbody V N. nra.
Qed.

Lemma covariance_bound f g n :
  let num := (INR n * rsum (fun i => f i * g i) n - rsum f n * rsum g n)%R in
  (num * num
   <= (INR n * rsum (fun i => f i * f i) n - rsum f n * rsum f n)
      * (INR n * rsum (fun i => g i * g i) n - rsum g n * rsum g n))%R.
Proof.
  intros num. destruct n as [|n]; [subst num; simpl; lra|].
  pose proof (rsum_cauchy_schwarz
                (fun i => INR (S n) * f i - rsum f (S n))%R
                (fun i => INR (S n) * g i - rsum g (S n))%R (S n)) as H.
  cbv beta in H.
  pose proof (centred_products f g (S n)) as Hfg.
  pose proof (centred_products f f (S n)) as Hff.
  pose proof (centred_products g g (S n)) as Hgg.
  cbv zeta in Hfg, Hff, Hgg. rewrite Hfg, Hff, Hgg in H. fold num in H.
  assert (0 < INR (S n))%R as Hn by (apply lt_0_INR; lia).
  set (VA := (INR (S n) * rsum (fun i => f i * f i) (S n)
              - rsum f (S n) * rsum f (S n))%R) in *.
  set (VB := (INR (S n) * rsum (fun i => g i * g i) (S n)
              - rsum g (S n) * rsum g (S n))%R) in *.
  set (N := INR (S n)) in *.
  assert (N * N * (num * num) <= N * N * (VA * VB))%R as H' by lra.
  apply Rmult_le_reg_l in H'; [done|]. apply Rmult_lt_0_compat; done.
Qed.

Lemma pearson_of_sums_bounded n A B AB A2 B2 :
  (0 <= n * A2 - A * A)%R -> (0 <= n * B2 - B * B)%R ->
  ((n * AB - A * B) * (n * AB - A * B)
   <= (n * A2 - A * A) * (n * B2 - B * B))%R ->
  (-1 <= pearson_of_sums n A B AB A2 B2 <= 1)%R.
Proof.
  intros HA HB Hcs. unfold pearson_of_sums.
  set (num := (n * AB - A * B)%R) in *.
  set (V := ((n * A2 - A * A) * (n * B2 - B * B))%R) in *.
  destruct (Reqb (sqrt V) 0) eqn:E; [lra|].
  apply Reqb_false in E.
  assert (0 <= V)%R as HV by (apply Rmult_le_pos; done).
  pose proof (sqrt_pos V) as Hs.
  assert (0 < sqrt V)%R as Hpos by lra.
  assert (Rabs num <= sqrt V)%R as Habs.
  { rewrite <- sqrt_Rsqr_abs. apply sqrt_le_1_alt. unfold Rsqr. done. }
  pose proof (Rle_abs num) as Hup.
  pose proof (Rle_abs (- num)) as Hlow. rewrite Rabs_Ropp in Hlow.
  split.
  - apply Rmult_le_reg_r with (sqrt V); [done|].
    replace (num / sqrt V * sqrt V)%R with num by (field; lra). lra.
  - apply Rmult_le_reg_r with (sqrt V); [done|].
    replace (num / sqrt V * sqrt V)%R with num by (field; lra). lra.
Qed.

Lemma pearsonCorrelation_range a b :
  (-1 <= pearsonCorrelation a b <= 1)%R.
Proof.
  rewrite pearsonCorrelation_sums. apply pearson_of_sums_bounded.
  - apply variance_nonneg.
  - apply variance_nonneg.
  - apply (covariance_bound (entry a) (entry b)).
Qed.

(** *** Symmetry *)

Lemma pearson_of_sums_swap n A B AB A2 B2 :
  pearson_of_sums n A B AB A2 B2 = pearson_of_sums n B A AB B2 A2.
Proof.
  unfold pearson_of_sums.
  replace (n * AB - B * A)%R with (n * AB - A * B)%R by ring.
  replace ((n * B2 - B * B) * (n * A2 - A * A))%R
    with ((n * A2 - A * A) * (n * B2 - B * B))%R by ring.
  done.
Qed.

Lemma pearsonCorrelation_swap a b :
  length a = length b -> pearsonCorrelation a b = pearsonCorrelation b a.
Proof.
  intros Hlen. rewrite !pearsonCorrelation_sums, <- Hlen.
  rewrite pearson_of_sums_swap. f_equal.
  apply rsum_ext. intros. ring.
Qed.

(** *** A constant argument *)

Lemma rsum_constantOn f n v :
  (forall i, i < n -> f i = v) -> rsum f n = (INR n * v)%R.
Proof.
  intros H. rewrite (rsum_ext f (fun _ => v)) by done. apply rsum_const.
Qed.

Lemma constantOn_variance l n :
  constantOn n l ->
  (INR n * rsum (fun i => entry l i * entry l i) n
   - rsum (entry l) n * rsum (entry l) n)%R = 0%R.
Proof.
  intros Hc. destruct n as [|n]; [simpl; lra|].
  rewrite (rsum_constantOn (entry l) (S n) (entry l 0))
    by (intros; apply Hc; lia).
  rewrite (rsum_constantOn (fun i => entry l i * entry l i)%R (S n)
             (entry l 0 * entry l 0)%R)
    by (intros i Hi; rewrite (Hc i 0) by lia; done).
  ring.
Qed.

Lemma variance_zero_constantOn l n :
  (INR n * rsum (fun i => entry l i * entry l i) n
   - rsum (entry l) n * rsum (entry l) n)%R = 0%R ->
  constantOn n l.
Proof.
  intros HV. destruct n as [|n]; [intros i j Hi; lia|].
  pose proof (centred_products (entry l) (entry l) (S n)) as H.
  cbv zeta in H. rewrite HV, Rmult_0_r in H.
  pose proof (rsum_sq_zero _ _ H) as Hz. cbv beta in Hz.
  assert (0 < INR (S n))%R as Hn by (apply lt_0_INR; lia).
  assert (forall i, i < S n ->
                    entry l i = (rsum (entry l) (S n) / INR (S n))%R) as He.
  { intros i Hi. specialize (Hz i Hi).
    apply Rmult_eq_reg_l with (INR (S n)); [|lra].
    replace (INR (S n) * (rsum (entry l) (S n) / INR (S n)))%R
      with (rsum (entry l) (S n)) by (field; lra).
    lra. }
  intros i j Hi Hj. by rewrite (He i), (He j).
Qed.

Lemma pearsonCorrelation_constant_l a b :
  constantOn (length a) a -> pearsonCorrelation a b = 0%R.
Proof.
  intros Hc. rewrite pearsonCorrelation_sums. unfold pearson_of_sums.
  rewrite constantOn_variance by done. rewrite Rmult_0_l, sqrt_0.
  by rewrite (proj2 (Reqb_true 0 0)).
Qed.

Lemma pearsonCorrelation_constant_r a b :
  constantOn (length a) b -> pearsonCorrelation a b = 0%R.
Proof.
  intros Hc. rewrite pearsonCorrelation_sums. unfold pearson_of_sums.
  rewrite (constantOn_variance b) by done. rewrite Rmult_0_r, sqrt_0.
  by rewrite (proj2 (Reqb_true 0 0)).
Qed.

(** *** Scale and offset of an argument *)

Lemma entry_affine k d l i :
  i < length l -> entry (affine k d l) i = (k * entry l i + d)%R.
Proof.
  intros Hi. unfold entry, affine.
  rewrite (nth_indep _ 0%R (k * 0 + d)%R) by by rewrite length_map.
  by rewrite (map_nth (fun x => k * x + d)%R).
Qed.

Lemma length_affine k d l : length (affine k d l) = length l.
Proof. apply length_map. Qed.

Lemma pearson_of_sums_affine n A B AB A2 B2 k d :
  pearson_of_sums n A (k * B + n * d) (k * AB + d * A) A2
    (k * k * B2 + 2 * k * d * B + n * (d * d))
  = (if Rltb 0 k then pearson_of_sums n A B AB A2 B2
     else if Rltb k 0 then - pearson_of_sums n A B AB A2 B2
     else 0)%R.
Proof.
  unfold pearson_of_sums.
  replace (n * (k * AB + d * A) - A * (k * B + n * d))%R
    with (k * (n * AB - A * B))%R by ring.
  replace ((n * A2 - A * A)
           * (n * (k * k * B2 + 2 * k * d * B + n * (d * d))
              - (k * B + n * d) * (k * B + n * d)))%R
    with (k * k * ((n * A2 - A * A) * (n * B2 - B * B)))%R by ring.
  set (num := (n * AB - A * B)%R).
  set (V := ((n * A2 - A * A) * (n * B2 - B * B))%R).
  assert (sqrt (k * k * V) = Rabs k * sqrt V)%R as Hs.
  { destruct (Rle_dec 0 V) as [HV|HV].
    - rewrite sqrt_mult_alt by nra. f_equal.
      change (k * k)%R with (Rsqr k). apply sqrt_Rsqr_abs.
    - rewrite (sqrt_neg_0 V) by lra. rewrite Rmult_0_r.
      apply sqrt_neg_0. nra. }
  rewrite Hs.
  destruct (Rltb 0 k) eqn:Hk; [apply Rltb_true in Hk|apply Rltb_false in Hk].
  - rewrite Rabs_pos_eq by lra.
    destruct (Reqb (sqrt V) 0) eqn:E.
    + apply Reqb_true in E. rewrite E, Rmult_0_r.
      by rewrite (proj2 (Reqb_true 0 0)).
    + apply Reqb_false in E.
      rewrite (proj2 (Reqb_false (k * sqrt V) 0)) by nra.
      field. split; lra.
  - destruct (Rltb k 0) eqn:Hk'; [apply Rltb_true in Hk'|apply Rltb_false in Hk'].
    + rewrite Rabs_left by done.
      destruct (Reqb (sqrt V) 0) eqn:E.
      * apply Reqb_true in E. rewrite E, Rmult_0_r.
        rewrite (proj2 (Reqb_true 0 0)) by done. lra.
      * apply Reqb_false in E.
        rewrite (proj2 (Reqb_false (- k * sqrt V) 0)) by nra.
        field. split; lra.
    + assert (k = 0%R) as -> by lra.
      rewrite Rabs_R0, Rmult_0_l. by rewrite (proj2 (Reqb_true 0 0)).
Qed.

Lemma pearsonCorrelation_affine_r a b k d :
  length a <= length b ->
  pearsonCorrelation a (affine k d b)
  = (if Rltb 0 k then pearsonCorrelation a b
     else if Rltb k 0 then - pearsonCorrelation a b
     else 0)%R.
Proof.
  intros Hlen. rewrite !pearsonCorrelation_sums.
  set (n := length a) in *.
  rewrite <- (pearson_of_sums_affine (INR n) (rsum (entry a) n)
                (rsum (entry b) n)
                (rsum (fun i => entry a i * entry b i)%R n)
                (rsum (fun i => entry a i * entry a i)%R n)
                (rsum (fun i => entry b i * entry b i)%R n) k d).
  f_equal.
  - rewrite (rsum_ext (entry (affine k d b))
               (fun i => k * entry b i + d)%R)
      by (intros; apply entry_affine; lia).
    rewrite rsum_plus, rsum_scal, rsum_const. done.
  - rewrite (rsum_ext (fun i => entry a i * entry (affine k d b) i)%R
               (fun i => k * (entry a i * entry b i) + d * entry a i)%R)
      by (intros; rewrite entry_affine by lia; ring).
    rewrite rsum_plus, !rsum_scal. done.
  - rewrite (rsum_ext
               (fun i => entry (affine k d b) i * entry (affine k d b) i)%R
               (fun i => k * k * (entry b i * entry b i)
                         + (2 * k * d * entry b i + d * d))%R)
      by (intros; rewrite entry_affine by lia; ring).
    rewrite rsum_plus, rsum_scal, rsum_plus, rsum_scal, rsum_const. ring.
Qed.

(** *** Perfect correlation *)

Lemma pearsonCorrelation_self a :
  ~ constantOn (length a) a -> pearsonCorrelation a a = 1%R.
Proof.
  intros Hnc. rewrite pearsonCorrelation_sums. unfold pearson_of_sums.
  set (n := length a) in *.
  set (V := (INR n * rsum (fun i => entry a i * entry a i) n
             - rsum (entry a) n * rsum (entry a) n)%R).
  assert (0 <= V)%R as HV by apply variance_nonneg.
  assert (V <> 0%R) as HV0
    by (intros E; apply Hnc, variance_zero_constantOn, E).
  rewrite sqrt_square by done.
  rewrite (proj2 (Reqb_false V 0)) by done. field. done.
Qed.

(** ** [getMagnitudeSpectrum] (lines 69-89) *)

(** *** Shape of the result *)

Lemma magnitudeOf_length real imag fftSize :
  length (magnitudeOf real imag fftSize) = fftSize / 2.
Proof.
  unfold magnitudeOf.
  apply (for_loop_inv _ _ _ (fun m => length m = fftSize / 2)).
  - intros i m _ Hm. unfold magnitude_body. by rewrite length_insert.
  - apply repeat_length.
Qed.

Lemma magnitudeOf_nonneg real imag fftSize :
  Forall (fun x => (0 <= x)%R) (magnitudeOf real imag fftSize).
Proof.
  unfold magnitudeOf.
  apply (for_loop_inv _ _ _ (Forall (fun x => (0 <= x)%R))).
  - intros i m _ Hm. unfold magnitude_body.
    apply Forall_insert; [done|]. apply sqrt_pos.
  - apply List.Forall_forall. intros x ->%repeat_spec. lra.
Qed.

Lemma getMagnitudeSpectrum_shape samples fftSize :
  length (getMagnitudeSpectrum samples fftSize) = fftSize / 2
  /\ Forall (fun x => (0 <= x)%R) (getMagnitudeSpectrum samples fftSize).
Proof.
  unfold getMagnitudeSpectrum.
  destruct (for_loop _ _ _ (window_body _ _) _ _) as [real imag].
  destruct (fft real imag) as [real' imag'].
  split; [apply magnitudeOf_length | apply magnitudeOf_nonneg].
Qed.

(** *** The samples the spectrum depends on *)

Lemma fold_left_ext_in {A B : Type} (f g : A -> B -> A) (l : list B) (s : A) :
  (forall x s, In x l -> f s x = g s x) -> fold_left f l s = fold_left g l s.
Proof.
  revert s; induction l as [|x l IH]; intros s H; simpl; [done|].
  rewrite H by (by left). apply IH. intros. apply H. by right.
Qed.

(** The Hann window vanishes at both ends of the frame. *)
Lemma hann_first fftSize : hann fftSize 0 = 0%R.
Proof.
  unfold hann. cbn [INR]. unfold Rdiv. rewrite Rmult_0_r, Rmult_0_l, cos_0.
  lra.
Qed.

Lemma hann_last fftSize : 2 <= fftSize -> hann fftSize (fftSize - 1) = 0%R.
Proof.
  intros HF. unfold hann. rewrite minus_INR by lia. cbn [INR].
  assert (2 <= INR fftSize)%R as H by (apply (le_INR 2); done).
  replace (2 * PI * (INR fftSize - 1) / (INR fftSize - 1))%R with (2 * PI)%R
    by (field; lra).
  rewrite cos_2PI. lra.
Qed.

Lemma hann_range fftSize i : (0 <= hann fftSize i <= 1)%R.
Proof.
  unfold hann.
  pose proof (COS_bound (2 * PI * INR i / (INR fftSize - 1))) as [H1 H2].
  lra.
Qed.

(** Two frames with the same products [samples[i] * window] have the same
    spectrum. *)
Lemma getMagnitudeSpectrum_ext samples samples' fftSize :
  (forall i, i < fftSize ->
             (nth i samples 0 * hann fftSize i
              = nth i samples' 0 * hann fftSize i)%R) ->
  getMagnitudeSpectrum samples fftSize = getMagnitudeSpectrum samples' fftSize.
Proof.
  intros H. unfold getMagnitudeSpectrum.
  rewrite !for_loop_count by lia.
  rewrite (fold_left_ext_in
             (fun st i => window_body samples fftSize i st)
             (fun st i => window_body samples' fftSize i st)); [done|].
  intros i [real imag] Hi%in_seq. unfold window_body.
  by rewrite H by lia.
Qed.

Lemma getMagnitudeSpectrum_inner samples samples' fftSize :
  2 <= fftSize ->
  (forall i, 1 <= i -> i + 2 <= fftSize ->
             nth i samples 0%R = nth i samples' 0%R) ->
  getMagnitudeSpectrum samples fftSize = getMagnitudeSpectrum samples' fftSize.
Proof.
  intros HF H. apply getMagnitudeSpectrum_ext. intros i Hi.
  destruct (Nat.eq_dec i 0) as [->|H0]; [rewrite hann_first; lra|].
  destruct (Nat.eq_dec i (fftSize - 1)) as [->|H1];
    [rewrite hann_last by done; lra|].
  rewrite H by lia. done.
Qed.

Lemma getMagnitudeSpectrum_prefix samples samples' fftSize :
  (forall i, i < fftSize -> nth i samples 0%R = nth i samples' 0%R) ->
  getMagnitudeSpectrum samples fftSize = getMagnitudeSpectrum samples' fftSize.
Proof.
  intros H. apply getMagnitudeSpectrum_ext. intros i Hi. by rewrite H.
Qed.

(** *** Gain and polarity *)

Lemma scale_scale c d l : scale c (scale d l) = scale (c * d) l.
Proof.
  unfold scale. rewrite map_map. apply map_ext. intros. ring.
Qed.

Lemma scale_1 l : scale 1 l = l.
Proof.
  unfold scale. rewrite <- (map_id l) at 2. apply map_ext. intros. ring.
Qed.

Lemma magnitudeOf_neg real imag fftSize :
  magnitudeOf (scale (-1) real) (scale (-1) imag) fftSize
  = magnitudeOf real imag fftSize.
Proof.
  unfold magnitudeOf.
  apply (for_loop_morph (fun m : list R => m)).
  intros i m. unfold magnitude_body. rewrite !nth_scale. do 2 f_equal. ring.
Qed.

Lemma getMagnitudeSpectrum_neg samples fftSize :
  getMagnitudeSpectrum (scale (-1) samples) fftSize
  = getMagnitudeSpectrum samples fftSize.
Proof.
  unfold getMagnitudeSpectrum.
  rewrite <- (scale_repeat_0 (-1) fftSize) at 1 2.
  change (scale (-1) (repeat 0%R fftSize), scale (-1) (repeat 0%R fftSize))
    with (scale_arrays (-1) (repeat 0%R fftSize, repeat 0%R fftSize)).
  rewrite (for_loop_morph (scale_arrays (-1)) _ _ (window_body samples fftSize));
    [|intros; apply window_body_scale].
  destruct (for_loop _ _ _ (window_body _ _) _ _) as [real imag].
  unfold scale_arrays. cbn [fst snd]. rewrite fft_scale.
  destruct (fft real imag) as [real' imag']. unfold scale_arrays. cbn [fst snd].
  apply magnitudeOf_neg.
Qed.

(** The spectrum of the frame multiplied by [c] is the spectrum multiplied
    by [|c|]. *)
Lemma getMagnitudeSpectrum_gain c samples fftSize :
  getMagnitudeSpectrum (scale c samples) fftSize
  = scale (Rabs c) (getMagnitudeSpectrum samples fftSize).
Proof.
  destruct (Rle_dec 0 c) as [Hc|Hc].
  - rewrite Rabs_pos_eq by done. by apply getMagnitudeSpectrum_scale.
  - rewrite Rabs_left by lra.
    replace c with (- c * -1)%R at 1 by ring.
    rewrite <- scale_scale, getMagnitudeSpectrum_scale by lra.
    by rewrite getMagnitudeSpectrum_neg.
Qed.

(** ** [fft] on real input: the second half mirrors the first *)

Lemma twiddle_mirror N t u :
  0 < N -> t <= N ->
  twiddle N ((N - t) * u)
  = (fst (twiddle N (t * u)), (- snd (twiddle N (t * u)))%R).
Proof.
  intros HN Ht. unfold twiddle. cbn [fst snd].
  assert (INR N <> 0%R) as HN0 by (apply not_0_INR; lia).
  assert (INR ((N - t) * u) * (-2 * PI / INR N)
          = - (INR (t * u) * (-2 * PI / INR N) + 2 * INR u * PI))%R as ->.
  { rewrite !mult_INR, minus_INR by done. field. done. }
  rewrite cos_neg, sin_neg, cos_period, sin_period. done.
Qed.

Lemma csum_mirror (f g : nat -> R * R) n :
  (forall u, u < n -> g u = (fst (f u), (- snd (f u))%R)) ->
  csum g n = (fst (csum f n), (- snd (csum f n))%R).
Proof.
  induction n as [|n IH]; intros H; cbn [csum].
  - cbn [fst snd]. f_equal. lra.
  - rewrite IH by (intros; apply H; lia). rewrite (H n) by lia.
    unfold cadd. cbn [fst snd]. f_equal. ring.
Qed.

Lemma dft_real_mirror N (x : nat -> R) t :
  0 < N -> t <= N ->
  dft N (fun u => (x u, 0%R)) (N - t)
  = (fst (dft N (fun u => (x u, 0%R)) t),
     (- snd (dft N (fun u => (x u, 0%R)) t))%R).
Proof.
  intros HN Ht. unfold dft. apply csum_mirror. intros u _.
  rewrite twiddle_mirror by done. unfold cmul. cbn [fst snd]. f_equal; ring.
Qed.

Lemma all_zero_at_index real imag u :
  all_zero imag -> at_index real imag u = (nth u real 0%R, 0%R).
Proof. intros H. unfold at_index. rewrite (all_zero_nth imag) by done. done. Qed.

Lemma fft_real_mirror q real imag t :
  length real = 2 ^ S q -> length imag = 2 ^ S q -> all_zero imag ->
  0 < t < 2 ^ S q ->
  let '(real', imag') := fft real imag in
  nth (2 ^ S q - t) real' 0%R = nth t real' 0%R
  /\ nth (2 ^ S q - t) imag' 0%R = (- nth t imag' 0)%R.
Proof.
  intros Hr Hi Hz Ht.
  pose proof (fft_is_dft q real imag Hr Hi) as Hfft.
  destruct (fft real imag) as [real' imag'].
  destruct Hfft as (_ & _ & Hdft).
  pose proof (Hdft t ltac:(lia)) as H1.
  pose proof (Hdft (2 ^ S q - t) ltac:(lia)) as H2.
  assert (forall s, dft (2 ^ S q) (at_index real imag) s
                    = dft (2 ^ S q) (fun u => (nth u real 0%R, 0%R)) s) as E.
  { intros s. unfold dft. apply csum_ext. intros u _.
    by rewrite all_zero_at_index. }
  rewrite E in H1, H2.
  rewrite dft_real_mirror in H2 by lia. rewrite <- H1 in H2.
  unfold at_index in H2. cbn [fst snd] in H2.
  by injection H2.
Qed.

(** ** The candidates of [detectKey] are 6 different keys *)

Lemma keyCorrelations_key_modes chroma :
  map scored_key_mode (keyCorrelations chroma) = ALL_KEY_MODES.
Proof. by rewrite keyCorrelations_eq. Qed.

Lemma ALL_KEY_MODES_NoDup : List.NoDup ALL_KEY_MODES.
Proof.
  unfold ALL_KEY_MODES. cbn [KEY_NAMES flat_map app].
  repeat (constructor; [cbn [In]; intuition congruence|]).
  constructor.
Qed.

Lemma ALL_KEY_MODES_names p : In p ALL_KEY_MODES -> In (fst p) KEY_NAMES.
Proof.
  unfold ALL_KEY_MODES. intros (name & Hname & Hp)%in_flat_map.
  destruct Hp as [<-|[<-|[]]]; done.
Qed.

Lemma detectKeyWith_key_modes fftSize hopSize audioBuffer :
  let pairs := map key_mode (detectKeyWith fftSize hopSize audioBuffer) in
  length pairs = 6
  /\ List.NoDup pairs
  /\ Forall (fun p => In p ALL_KEY_MODES) pairs.
Proof.
  intros pairs.
  destruct (top_six_rescaled fftSize hopSize audioBuffer)
    as (_ & Hlen & Hperm & _ & Hres).
  assert (pairs = map scored_key_mode
                    (topSix (keyScores fftSize hopSize audioBuffer))) as ->.
  { subst pairs. rewrite Hres, map_map. done. }
  apply (Permutation_map scored_key_mode) in Hperm.
  unfold keyScores in Hperm at 1. rewrite keyCorrelations_key_modes in Hperm.
  rewrite map_app in Hperm.
  split; [by rewrite length_map|]. split.
  - eapply List.NoDup_app_remove_r. eapply Permutation_NoDup; [exact Hperm|].
    apply ALL_KEY_MODES_NoDup.
  - apply List.Forall_forall. intros p Hp.
    eapply Permutation_in; [symmetry; exact Hperm|].
    apply in_or_app. by left.
Qed.

(** ** Which frames are read *)

(** Every counter value of a loop passed its condition. *)
Lemma for_trace_cond fuel cond step i0 :
  Forall (fun k => cond k = true) (for_trace fuel cond step i0).
Proof.
  revert i0; induction fuel as [|fuel IH]; intros i0; simpl; [done|].
  destruct (cond i0) eqn:Hc; [|done]. by constructor.
Qed.

Lemma frameStarts_inside F H L start :
  In start (frameStarts F H L) -> start + F < L.
Proof.
  intros Hin. pose proof (for_trace_cond L (fun start => start + F <? L)
                            (fun start => start + H) 0) as Hall.
  rewrite List.Forall_forall in Hall.
  apply Nat.ltb_lt. by apply Hall.
Qed.

(** Frame [i] is read exactly when [i * hopSize + fftSize < data.length]. *)
Lemma frameStarts_count F H L i :
  0 < H -> i < length (frameStarts F H L) <-> i * H + F < L.
Proof.
  intros HH. split.
  - intros Hi. apply frameStarts_inside with H.
    rewrite <- (frameStarts_nth F H L i Hi). by apply nth_In.
  - intros Hlt.
    assert (In (i * H) (frameStarts F H L)) as Hin
      by (apply frameStarts_spec; [done|]; split; [by exists i | done]).
    apply (In_nth _ _ 0) in Hin as (j & Hj & Heq).
    rewrite frameStarts_nth in Heq by done.
    assert (j = i) as <- by nia. done.
Qed.

Lemma frameStarts_short F H L : L <= F -> frameStarts F H L = [].
Proof.
  intros HL. unfold frameStarts. destruct L as [|L]; [done|].
  cbn [for_trace Nat.add].
  by rewrite (proj2 (Nat.ltb_ge F (S L))) by lia.
Qed.

Lemma flux_fold_length data F l prev flux :
  length (snd (fold_left (fun st start => flux_frame data F start st) l
                 (prev, flux)))
  = length flux + length l
    - match prev with Some _ => 0 | None => Nat.min 1 (length l) end.
Proof.
  revert prev flux; induction l as [|start l IH]; intros prev flux.
  - cbn [fold_left snd length]. destruct prev; simpl; lia.
  - cbn [fold_left]. unfold flux_frame at 2. rewrite IH.
    destruct prev as [prev|]; cbn [length]; rewrite ?length_app; simpl; lia.
Qed.

(** The flux pass yields one value less than there are frames. *)
Lemma computeSpectralFlux_length data F H :
  length (computeSpectralFlux data F H)
  = length (frameStarts F H (length data)) - 1.
Proof.
  rewrite computeSpectralFlux_frames, flux_fold_length. simpl.
  destruct (frameStarts F H (length data)); simpl; lia.
Qed.

(** The guard of line 209 in terms of the length of the buffer. *)
Lemma flux_guard data F H :
  0 < H ->
  length (computeSpectralFlux data F H) < 100 <-> length data <= F + 100 * H.
Proof.
  intros HH. rewrite computeSpectralFlux_length.
  pose proof (frameStarts_count F H (length data) 100 HH) as H100.
  split; intros Hlt.
  - destruct (Nat.le_gt_cases (length data) (F + 100 * H)); [done|].
    assert (100 < length (frameStarts F H (length data))); [|lia].
    apply H100. lia.
  - destruct (Nat.le_gt_cases (length (frameStarts F H (length data))) 100);
      [lia|].
    apply H100 in H0. lia.
Qed.

Lemma detectBPMWith_short F H audioBuffer :
  0 < H ->
  length (AudioBuffer.channelData audioBuffer) <= F + 100 * H ->
  detectBPMWith F H audioBuffer = degenerate.
Proof.
  intros HH Hlen. unfold detectBPMWith. apply tempoFromFlux_short.
  by apply flux_guard.
Qed.

Lemma detectKeyWith_short F H audioBuffer :
  length (AudioBuffer.channelData audioBuffer) <= F ->
  detectKeyWith F H audioBuffer = silent_key_candidates.
Proof.
  intros Hlen. unfold detectKeyWith.
  rewrite accumulateChroma_frames, frameStarts_short by done.
  cbn [fold_left].
  rewrite normalizeChroma_silent by apply all_zero_repeat.
  apply rankCandidates_silent, all_zero_repeat.
Qed.

(** ** The range of the tempo result *)

Lemma Math_round_upper (x : R) (z : Z) :
  (x < IZR z + 1 / 2)%R -> (Math_round x <= z)%Z.
Proof.
  intros H. unfold Math_round.
  pose proof (Zfloor_bound (x + 1 / 2)) as [Hlow _].
  assert (IZR (Zfloor (x + 1 / 2)) < IZR (z + 1))%R as Hlt
    by (rewrite plus_IZR; lra).
  apply lt_IZR in Hlt. lia.
Qed.

(** Every peak found in the autocorrelation has a tempo of at most 180. *)
Lemma findPeaks_bpm_le sampleRate hopSize spectralFlux :
  (0 < sampleRate)%R -> 0 < hopSize ->
  Forall (fun p => (Peak.bpm p <= 180)%Z)
    (findPeaks sampleRate hopSize
       (autocorrelation sampleRate hopSize spectralFlux)).
Proof.
  intros Hs Hh. rewrite findPeaks_eq.
  set (correlations := autocorrelation sampleRate hopSize spectralFlux).
  apply (fold_left_inv (Forall (fun p => (Peak.bpm p <= 180)%Z))); [|done].
  intros i peaks Hi%in_seq Hpeaks. unfold peak_body.
  destruct (_ && _); [|done].
  apply Forall_app. split; [done|]. constructor; [|done]. simpl.
  pose proof (minLag_nonneg _ _ Hs Hh) as Hmin.
  pose proof (framesPerSecond_pos _ _ Hs Hh) as Hfps.
  pose proof (Zfloor_bound (60 / maxBPM * framesPerSecond sampleRate hopSize))
    as [_ Hup].
  fold (Math_floor (60 / maxBPM * framesPerSecond sampleRate hopSize)) in Hup.
  fold (minLag sampleRate hopSize) in Hup. unfold maxBPM in Hup.
  set (lag := (minLag sampleRate hopSize + Z.of_nat i)%Z).
  assert (minLag sampleRate hopSize + 1 <= lag)%Z as Hl by (unfold lag; lia).
  apply IZR_le in Hl. rewrite plus_IZR in Hl.
  set (fps := framesPerSecond sampleRate hopSize) in *.
  apply Math_round_upper.
  assert (0 < IZR lag)%R as Hpos by (apply IZR_le in Hmin; lra).
  apply Rmult_lt_reg_r with (IZR lag); [done|].
  replace (60 * fps / IZR lag * IZR lag)%R with (60 * fps)%R by (field; lra).
  lra.
Qed.

Lemma foldPrimary_range (b : Z) :
  (60 <= b <= 180)%Z -> (71 <= foldPrimary b <= 158)%Z.
Proof.
  intros Hb. unfold foldPrimary. rewrite Math_round_half.
  destruct (Z.ltb_spec 140 b).
  - destruct (Z.leb_spec 60 ((b + 1) / 2)); Z.div_mod_to_equations; lia.
  - destruct (Z.ltb_spec b 80); [|lia].
    destruct (Z.leb_spec (b * 2) 180); lia.
Qed.

Lemma foldAlternative_range (b : Z) :
  (60 <= b <= 180)%Z -> (60 <= foldAlternative b <= 180)%Z.
Proof.
  intros Hb. unfold foldAlternative. rewrite Math_round_half, Rleb_half.
  destruct (Z.ltb_spec 140 b); cbn [andb].
  - destruct (Z.leb_spec (2 * 60) b); [|lia].
    Z.div_mod_to_equations; lia.
  - destruct (Z.ltb_spec b 80); cbn [andb]; [|lia].
    destruct (Z.leb_spec (b * 2) 180); lia.
Qed.

Lemma drop_In {A : Type} n (l : list A) x : In x (drop n l) -> In x l.
Proof.
  revert n; induction l as [|y l IH]; intros [|n]; simpl; try done.
  intros H. right. by apply (IH n).
Qed.

Lemma collectAlternatives_range bpm peaks :
  (71 <= bpm <= 158)%Z ->
  Forall (fun p => (60 <= Peak.bpm p <= 180)%Z) peaks ->
  Forall (fun a => (50 <= a <= 200)%Z) (collectAlternatives bpm peaks).
Proof.
  intros Hb Hpeaks. apply List.Forall_forall. intros a Ha.
  unfold collectAlternatives in Ha. rewrite slice_0 in Ha.
  eapply Permutation_in in Ha; [|apply js_sort_perm].
  apply take_In, set_delete_In in Ha as [Ha _].
  apply alternativeSet_In in Ha as [[-> H2]|[[-> Hhalf]|(p & Hp & -> & _)]].
  - lia.
  - rewrite Math_round_half.
    assert (100 <= bpm)%Z by (apply le_IZR; lra).
    Z.div_mod_to_equations; lia.
  - unfold slice in Hp. apply take_In, drop_In in Hp.
    rewrite List.Forall_forall in Hpeaks. specialize (Hpeaks p Hp).
    pose proof (foldAlternative_range (Peak.bpm p) Hpeaks). lia.
Qed.

Lemma peakConfidence_range bestPeak correlations :
  (0 <= peakConfidence bestPeak correlations <= 1)%R.
Proof.
  unfold peakConfidence, Rmin, Rmax.
  repeat destruct (Rle_dec _ _); lra.
Qed.

Lemma tempoFromFlux_range sampleRate hopSize spectralFlux :
  (0 < sampleRate)%R -> 0 < hopSize ->
  let result := tempoFromFlux sampleRate hopSize spectralFlux in
  (71 <= BPMResult.bpm result <= 158)%Z
  /\ (0 <= BPMResult.confidence result <= 1)%R
  /\ Forall (fun a => (50 <= a <= 200)%Z) (BPMResult.alternatives result).
Proof.
  intros Hs Hh result. subst result. unfold tempoFromFlux.
  assert ((71 <= BPMResult.bpm degenerate <= 158)%Z
          /\ (0 <= BPMResult.confidence degenerate <= 1)%R
          /\ Forall (fun a => (50 <= a <= 200)%Z)
               (BPMResult.alternatives degenerate)) as Hdeg.
  { cbn. split; [lia|]. split; [lra | constructor]. }
  destruct (_ <? 100); [exact Hdeg|].
  set (flux := normalizeFlux spectralFlux).
  pose proof (findPeaks_bpm_ge sampleRate hopSize flux Hs Hh) as Hge.
  pose proof (findPeaks_bpm_le sampleRate hopSize flux Hs Hh) as Hle.
  assert (Forall (fun p => (60 <= Peak.bpm p <= 180)%Z)
            (js_sort by_value_desc
               (findPeaks sampleRate hopSize
                  (autocorrelation sampleRate hopSize flux)))) as Hr.
  { rewrite (js_sort_perm by_value_desc).
    rewrite List.Forall_forall in *. intros p Hp.
    specialize (Hge p Hp). specialize (Hle p Hp). cbv beta in *. lia. }
  destruct (js_sort by_value_desc _) as [|bestPeak others]; [exact Hdeg|].
  pose proof Hr as Hr'. apply Forall_cons_1 in Hr' as [Hbest _].
  pose proof (foldPrimary_range _ Hbest) as Hprim.
  cbn [resultFromPeaks BPMResult.bpm BPMResult.confidence
         BPMResult.alternatives].
  split; [done|]. split; [apply peakConfidence_range|].
  by apply collectAlternatives_range.
Qed.

(** ** What the detectors read of the buffer *)

(** Both detectors see the samples only through the spectra of the frames
    they read. *)
Lemma frames_ext sampleRate data data' F H :
  length data = length data' ->
  (forall start, In start (frameStarts F H (length data)) ->
     getMagnitudeSpectrum (slice data start (start + F)) F
     = getMagnitudeSpectrum (slice data' start (start + F)) F) ->
  accumulateChroma sampleRate data F H = accumulateChroma sampleRate data' F H
  /\ computeSpectralFlux data F H = computeSpectralFlux data' F H.
Proof.
  intros Hlen Hmag.
  rewrite !accumulateChroma_frames, !computeSpectralFlux_frames, <- Hlen.
  split.
  - apply fold_left_ext_in. intros start chroma Hin.
    unfold chroma_frame. by rewrite Hmag.
  - f_equal. apply fold_left_ext_in. intros start st Hin.
    unfold flux_frame. by rewrite Hmag.
Qed.

Lemma detectors_ext F H audioBuffer audioBuffer' :
  AudioBuffer.sampleRate audioBuffer = AudioBuffer.sampleRate audioBuffer' ->
  length (AudioBuffer.channelData audioBuffer)
  = length (AudioBuffer.channelData audioBuffer') ->
  (forall start,
     In start (frameStarts F H (length (AudioBuffer.channelData audioBuffer))) ->
     getMagnitudeSpectrum
       (slice (AudioBuffer.channelData audioBuffer) start (start + F)) F
     = getMagnitudeSpectrum
         (slice (AudioBuffer.channelData audioBuffer') start (start + F)) F) ->
  detectKeyWith F H audioBuffer = detectKeyWith F H audioBuffer'
  /\ detectBPMWith F H audioBuffer = detectBPMWith F H audioBuffer'.
Proof.
  intros Hrate Hlen Hmag.
  destruct (frames_ext (AudioBuffer.sampleRate audioBuffer) _ _ F H Hlen Hmag)
    as [Hchroma Hflux].
  unfold detectKeyWith, detectBPMWith.
  by rewrite <- Hrate, Hchroma, Hflux.
Qed.

(** *** Polarity *)

Lemma detectors_neg F H audioBuffer :
  detectKeyWith F H (scaleBuffer (-1) audioBuffer) = detectKeyWith F H audioBuffer
  /\ detectBPMWith F H (scaleBuffer (-1) audioBuffer)
     = detectBPMWith F H audioBuffer.
Proof.
  apply detectors_ext; unfold scaleBuffer;
    cbn [AudioBuffer.sampleRate AudioBuffer.channelData].
  - done.
  - apply length_scale.
  - intros start _. rewrite slice_scale. apply getMagnitudeSpectrum_neg.
Qed.

(** *** Gain: the flux pass *)

Lemma flux_bins_scale c magnitude prevMagnitude :
  (0 < c)%R ->
  for_loop (length (scale c magnitude))
    (fun i => i <? length (scale c magnitude)) S
    (flux_bin (scale c magnitude) (scale c prevMagnitude)) 0 0%R
  = (c * for_loop (length magnitude) (fun i => i <? length magnitude) S
           (flux_bin magnitude prevMagnitude) 0 0)%R.
Proof.
  intros Hc. rewrite length_scale.
  replace 0%R with (c * 0)%R at 1 by ring.
  apply (for_loop_morph (Rmult c)). intros i flux. unfold flux_bin.
  rewrite !nth_scale.
  set (diff := (nth i magnitude 0 - nth i prevMagnitude 0)%R).
  replace (c * nth i magnitude 0 - c * nth i prevMagnitude 0)%R
    with (c * diff)%R by (unfold diff; ring).
  destruct (Rltb 0 diff) eqn:E; [apply Rltb_true in E|apply Rltb_false in E].
  - rewrite (proj2 (Rltb_true 0 (c * diff))) by nra. ring.
  - rewrite (proj2 (Rltb_false 0 (c * diff))) by nra. ring.
Qed.

Lemma flux_frame_scale c data F start st :
  (0 < c)%R ->
  flux_frame (scale c data) F start (scale_flux_state c st)
  = scale_flux_state c (flux_frame data F start st).
Proof.
  intros Hc. destruct st as [prev flux].
  unfold flux_frame, scale_flux_state. cbn [fst snd option_map].
  rewrite slice_scale, getMagnitudeSpectrum_scale by lra.
  f_equal. destruct prev as [prev|]; cbn [option_map]; [|done].
  rewrite flux_bins_scale by done.
  unfold scale. rewrite map_app. done.
Qed.

Lemma computeSpectralFlux_scale c data F H :
  (0 < c)%R ->
  computeSpectralFlux (scale c data) F H
  = scale c (computeSpectralFlux data F H).
Proof.
  intros Hc. unfold computeSpectralFlux. rewrite length_scale.
  change (@None (list R), @nil R) with (scale_flux_state c (None, [])).
  rewrite (for_loop_morph (scale_flux_state c) _ _ (flux_frame data F));
    [done|].
  intros. by apply flux_frame_scale.
Qed.

Lemma flux_bins_nonneg magnitude prevMagnitude :
  (0 <= for_loop (length magnitude) (fun i => i <? length magnitude) S
          (flux_bin magnitude prevMagnitude) 0 0)%R.
Proof.
  apply (for_loop_inv _ _ _ (fun flux => (0 <= flux)%R)); [|lra].
  intros i flux _ Hf. unfold flux_bin.
  destruct (Rltb 0 _) eqn:E; [apply Rltb_true in E|]; lra.
Qed.

(** No flux value is negative. *)
Lemma computeSpectralFlux_nonneg data F H :
  Forall (fun x => (0 <= x)%R) (computeSpectralFlux data F H).
Proof.
  unfold computeSpectralFlux.
  apply (for_loop_inv _ _ _
           (fun st : option (list R) * list R =>
              Forall (fun x => (0 <= x)%R) (snd st))); [|constructor].
  intros start [prev flux] _ Hf. cbn [snd] in Hf.
  unfold flux_frame. cbn [snd]. destruct prev as [prev|]; [|done].
  apply Forall_app. split; [done|]. constructor; [|done].
  apply flux_bins_nonneg.
Qed.

Lemma normalizeFlux_scaled spectralFlux :
  (0 < Math_max spectralFlux)%R ->
  normalizeFlux spectralFlux
  = map (fun x => (x / Math_max spectralFlux)%R) spectralFlux.
Proof.
  intros Hm. unfold normalizeFlux. rewrite (proj2 (Rltb_true _ _) Hm).
  by apply (inplace_map (fun x => (x / Math_max spectralFlux)%R)
              (length spectralFlux) (length spectralFlux)).
Qed.

Lemma normalizeFlux_unscaled spectralFlux :
  (Math_max spectralFlux <= 0)%R -> normalizeFlux spectralFlux = spectralFlux.
Proof.
  intros Hm. unfold normalizeFlux. by rewrite (proj2 (Rltb_false _ _) Hm).
Qed.

Lemma normalizeFlux_scale c spectralFlux :
  (0 < c)%R -> Forall (fun x => (0 <= x)%R) spectralFlux ->
  normalizeFlux (scale c spectralFlux) = normalizeFlux spectralFlux.
Proof.
  intros Hc Hpos.
  pose proof (Math_max_scale c spectralFlux ltac:(lra)) as Hmax.
  fold (scale c spectralFlux) in Hmax.
  destruct (Rlt_dec 0 (Math_max spectralFlux)) as [Hm|Hm].
  - rewrite !normalizeFlux_scaled; [|done|rewrite Hmax; nra].
    rewrite Hmax. unfold scale. rewrite map_map. apply map_ext.
    intros x. field. lra.
  - assert (scale c spectralFlux = spectralFlux) as ->; [|done].
    rewrite List.Forall_forall in Hpos.
    unfold scale. rewrite <- (map_id spectralFlux) at 2.
    apply map_ext_in. intros x Hx.
    pose proof (Hpos x Hx). pose proof (Math_max_upper spectralFlux x Hx).
    assert (x = 0%R) as -> by lra. ring.
Qed.

Lemma detectBPMWith_scale c F H audioBuffer :
  (0 < c)%R ->
  detectBPMWith F H (scaleBuffer c audioBuffer) = detectBPMWith F H audioBuffer.
Proof.
  intros Hc. unfold detectBPMWith, scaleBuffer.
  cbn [AudioBuffer.sampleRate AudioBuffer.channelData].
  rewrite computeSpectralFlux_scale by done.
  unfold tempoFromFlux. rewrite length_scale.
  rewrite normalizeFlux_scale; [done | done |].
  apply computeSpectralFlux_nonneg.
Qed.

Lemma scaleBuffer_scaleBuffer c d audioBuffer :
  scaleBuffer c (scaleBuffer d audioBuffer) = scaleBuffer (c * d) audioBuffer.
Proof.
  unfold scaleBuffer. cbn [AudioBuffer.sampleRate AudioBuffer.channelData].
  by rewrite scale_scale.
Qed.

(** A gain of any sign, except 0, changes neither result. *)
Lemma detectors_gain c F H audioBuffer :
  c <> 0%R ->
  detectKeyWith F H (scaleBuffer c audioBuffer) = detectKeyWith F H audioBuffer
  /\ detectBPMWith F H (scaleBuffer c audioBuffer)
     = detectBPMWith F H audioBuffer.
Proof.
  intros Hc. destruct (Rlt_dec 0 c) as [Hpos|Hneg].
  - split; [by apply detectKeyWith_scale | by apply detectBPMWith_scale].
  - replace c with (- c * -1)%R by ring.
    rewrite <- scaleBuffer_scaleBuffer.
    rewrite detectKeyWith_scale, detectBPMWith_scale by lra.
    apply detectors_neg.
Qed.

(** *** The two ends of the buffer *)

Lemma nth_slice (l : list R) start F i :
  i < F -> nth i (slice l start (start + F)) 0%R = nth (start + i) l 0%R.
Proof.
  intros Hi. unfold slice. replace (start + F - start) with F by lia.
  rewrite nth_firstn, (proj2 (Nat.ltb_lt i F)) by done.
  apply nth_skipn.
Qed.

Lemma detectors_ends x y F H audioBuffer :
  2 <= F ->
  detectKeyWith F H (withEnds x y audioBuffer) = detectKeyWith F H audioBuffer
  /\ detectBPMWith F H (withEnds x y audioBuffer)
     = detectBPMWith F H audioBuffer.
Proof.
  intros HF. apply detectors_ext; unfold withEnds;
    cbn [AudioBuffer.sampleRate AudioBuffer.channelData].
  - done.
  - by rewrite !length_insert.
  - rewrite !length_insert. intros start Hin%frameStarts_inside.
    apply getMagnitudeSpectrum_inner; [done|]. intros i Hi1 Hi2.
    rewrite !nth_slice by lia. rewrite !nth_insert, length_insert.
    rewrite (proj2 (Nat.eqb_neq (start + i) _)) by lia.
    rewrite (proj2 (Nat.eqb_neq (start + i) 0)) by lia. done.
Qed.

(** ** The Essentia variant: tempo *)

Lemma includes_In x l : includes x l = true <-> In x l.
Proof.
  unfold includes. rewrite existsb_exists. split.
  - intros (y & Hy & ->%Z.eqb_eq). done.
  - intros H. exists x. split; [done | apply Z.eqb_refl].
Qed.

Lemma includes_not_In x l : includes x l = false <-> ~ In x l.
Proof.
  rewrite <- includes_In. destruct (includes x l); split; (done || congruence).
Qed.

Lemma fold_set_add_NoDup l s :
  List.NoDup s -> List.NoDup (fold_left (fun s b => set_add b s) l s).
Proof.
  revert s; induction l as [|x l IH]; intros s Hs; simpl; [done|].
  apply IH. by apply set_add_NoDup.
Qed.

Lemma fold_set_add_In l s x :
  In x (fold_left (fun s b => set_add b s) l s) <-> In x s \/ In x l.
Proof.
  revert s; induction l as [|y l IH]; intros s; simpl; [tauto|].
  rewrite IH, set_add_In. intuition.
Qed.

Lemma uniqueRounded_NoDup estimates : List.NoDup (uniqueRounded estimates).
Proof. apply fold_set_add_NoDup. constructor. Qed.

Lemma uniqueRounded_In estimates x :
  In x (uniqueRounded estimates) <-> exists b, In b estimates /\ x = Math_round b.
Proof.
  unfold uniqueRounded. rewrite fold_set_add_In, in_map_iff. split.
  - intros [[]|(b & <- & Hb)]. by exists b.
  - intros (b & Hb & ->). right. by exists b.
Qed.

Lemma push_NoDup (x : Z) l :
  List.NoDup l -> ~ In x l -> List.NoDup (l ++ [x]).
Proof.
  intros Hl Hx. apply List.NoDup_app; [done | repeat constructor; by intros [] |].
  intros y Hy [<-|[]]. done.
Qed.

(** The array before [slice(0, 3).sort(...)]: no value twice, and every
    value is the double of [bpm], its rounded half, or a rounded estimate
    that passed the filter. *)
Lemma essentia_collected bpm bpmIntervals :
  exists collected,
    essentiaAlternatives bpm bpmIntervals
    = js_sort ascending (take 3 collected)
    /\ List.NoDup collected
    /\ forall x, In x collected ->
         (x = bpm * 2 /\ bpm * 2 <= 200)%Z
         \/ (x = Math_round (IZR bpm / 2) /\ (60 <= IZR bpm / 2)%R)
         \/ ((exists b, In b bpmIntervals /\ x = Math_round b)
             /\ (5 < Z.abs (x - bpm))%Z /\ (60 <= x <= 200)%Z).
Proof.
  unfold essentiaAlternatives.
  set (kept := if 0 <? length bpmIntervals
               then slice (List.filter (keepEstimate bpm)
                             (uniqueRounded bpmIntervals)) 0 3
               else []).
  assert (List.NoDup kept
          /\ forall x, In x kept ->
               (exists b, In b bpmIntervals /\ x = Math_round b)
               /\ (5 < Z.abs (x - bpm))%Z /\ (60 <= x <= 200)%Z)
    as [Hnd Hin].
  { subst kept. destruct (0 <? length bpmIntervals);
      [|split; [constructor | by intros x []]].
    rewrite slice_0. split.
    - apply take_NoDup, List.NoDup_filter, uniqueRounded_NoDup.
    - intros x [Hx Hk]%take_In%filter_In. split; [by apply uniqueRounded_In|].
      unfold keepEstimate in Hk. apply andb_true_iff in Hk as [Hk H200].
      apply andb_true_iff in Hk as [H5 H60]. lia. }
  set (withDouble := if (bpm * 2 <=? 200)%Z && negb (includes (bpm * 2) kept)
                     then kept ++ [(bpm * 2)%Z] else kept).
  assert (List.NoDup withDouble
          /\ forall x, In x withDouble ->
               (x = bpm * 2 /\ bpm * 2 <= 200)%Z \/ In x kept) as [Hnd2 Hin2].
  { subst withDouble. destruct (Z.leb_spec (bpm * 2) 200); cbn [andb];
      [|by split; [|right]].
    destruct (includes (bpm * 2)%Z kept) eqn:E; cbn [negb];
      [by split; [|right]|].
    apply includes_not_In in E. split; [by apply push_NoDup|].
    intros x [Hx|[<-|[]]]%in_app_or; [by right | by left]. }
  set (collected := if Rleb 60 (IZR bpm / 2)
                       && negb (includes (Math_round (IZR bpm / 2)) withDouble)
                    then withDouble ++ [Math_round (IZR bpm / 2)]
                    else withDouble).
  exists collected. split; [by rewrite slice_0|].
  assert (List.NoDup collected
          /\ forall x, In x collected ->
               (x = Math_round (IZR bpm / 2) /\ (60 <= IZR bpm / 2)%R)
               \/ In x withDouble) as [Hnd3 Hin3].
  { subst collected. destruct (Rleb 60 (IZR bpm / 2)) eqn:Hh; cbn [andb];
      [apply Rleb_true in Hh|by split; [|right]].
    destruct (includes _ withDouble) eqn:E; cbn [negb]; [by split; [|right]|].
    apply includes_not_In in E. split; [by apply push_NoDup|].
    intros x [Hx|[<-|[]]]%in_app_or; [by right | by left]. }
  split; [done|]. intros x Hx.
  apply Hin3 in Hx as [Hx|Hx]; [tauto|].
  apply Hin2 in Hx as [Hx|Hx]; [tauto|].
  right. right. by apply Hin.
Qed.

Lemma essentiaAlternatives_spec bpm bpmIntervals :
  let alternatives := essentiaAlternatives bpm bpmIntervals in
  length alternatives <= 3
  /\ StronglySorted Z.lt alternatives
  /\ (forall x, In x alternatives ->
        (x = bpm * 2 /\ bpm * 2 <= 200)%Z
        \/ (x = Math_round (IZR bpm / 2) /\ (60 <= IZR bpm / 2)%R)
        \/ ((exists b, In b bpmIntervals /\ x = Math_round b)
            /\ (5 < Z.abs (x - bpm))%Z /\ (60 <= x <= 200)%Z))
  /\ (bpm <> 0%Z -> ~ In bpm alternatives).
Proof.
  intros alternatives. subst alternatives.
  destruct (essentia_collected bpm bpmIntervals) as (collected & -> & Hnd & Hin).
  assert (forall x, In x (js_sort ascending (take 3 collected)) ->
                    In x collected) as Hsub.
  { intros x Hx. apply (take_In 3).
    eapply Permutation_in; [apply js_sort_perm | done]. }
  split; [|split; [|split]].
  - rewrite js_sort_length, length_take. lia.
  - apply sorted_NoDup_strict; [apply ascending_sorted|].
    eapply Permutation_NoDup; [symmetry; apply js_sort_perm|].
    by apply take_NoDup.
  - intros x Hx. apply Hin, Hsub, Hx.
  - intros Hne Hx. apply Hsub, Hin in Hx as [[H1 _]|[[H1 Hh]|(_ & H5 & _)]].
    + lia.
    + rewrite Math_round_half in H1.
      assert (120 <= bpm)%Z by (apply le_IZR; lra).
      Z.div_mod_to_equations; lia.
    + lia.
Qed.

(** ** The Essentia variant: key candidates *)

Lemma essentiaKeys_length toLowerCase keyResult :
  length (essentiaKeys toLowerCase keyResult) = 5.
Proof. destruct keyResult; reflexivity. Qed.

Lemma essentiaKeys_confidences toLowerCase keyResult :
  (forall k, keyResult = Some k -> (0 <= KeyResult.strength k)%R) ->
  exists c0 c1 c2 c3 c4 : R,
    map NamedCandidate.confidence (essentiaKeys toLowerCase keyResult)
    = [c0; c1; c2; c3; c4]
    /\ (0 < c4 < c3)%R /\ (c3 < c2 < c1)%R /\ (c1 < c0)%R.
Proof.
  intros Hpos. destruct keyResult as [k|].
  - specialize (Hpos k eq_refl). cbn [essentiaKeys map NamedCandidate.confidence].
    do 5 eexists. split; [reflexivity|].
    assert (0 < or_default (KeyResult.strength k) 0.8)%R as Hs.
    { unfold or_default. destruct (Reqb _ 0) eqn:E; [lra|].
      apply Reqb_false in E. lra. }
    lra.
  - cbn. do 5 eexists. split; [reflexivity|]. lra.
Qed.

(** The keys a half step below and above, and the relative key, of the
    [i]-th of the twelve keys. *)
Lemma indexOf_ALL_KEYS i :
  i < 12 -> indexOf (nth i ALL_KEYS ""%string) ALL_KEYS = Z.of_nat i.
Proof.
  intros Hi. do 12 (destruct i as [|i]; [reflexivity|]). lia.
Qed.

Lemma keyAt_index i offset :
  i < 12 -> offset < 12 ->
  keyAt (Z.of_nat i) (Z.of_nat offset)
  = nth ((i + offset) mod 12) ALL_KEYS ""%string.
Proof.
  intros Hi Ho. unfold keyAt. f_equal.
  rewrite <- Nat2Z.inj_add, Z.rem_mod_nonneg by lia.
  change 12%Z with (Z.of_nat 12). rewrite <- Nat2Z.inj_mod. apply Nat2Z.id.
Qed.

Ltac pick_key i :=
  first [ exists i; split; [lia | reflexivity]
        | lazymatch i with
          | 11 => fail
          | _ => pick_key (S i)
          end ].

Lemma KEY_MAP_values key v :
  property key KEY_MAP = Some v ->
  exists i, i < 12 /\ v = nth i ALL_KEYS ""%string.
Proof.
  unfold KEY_MAP. cbn [property].
  repeat (destruct (String.eqb key _); [intros [= <-]; pick_key 0|]).
  intros [=].
Qed.

Lemma KEY_MAP_fixes_ALL_KEYS i :
  i < 12 ->
  property_or_key (nth i ALL_KEYS ""%string) KEY_MAP = nth i ALL_KEYS ""%string.
Proof.
  intros Hi. do 12 (destruct i as [|i]; [reflexivity|]). lia.
Qed.

(** ** [BPMRadar] *)

Lemma allBPMs_length bpm alternatives : length (allBPMs bpm alternatives) = 6.
Proof.
  unfold allBPMs. rewrite slice_0.
  match goal with |- length (take 6 (?l ++ _)) = _ => set (bpms := l) end.
  rewrite length_take, length_app, repeat_length. lia.
Qed.

Lemma allBPMs_head bpm alternatives :
  exists rest,
    allBPMs bpm alternatives = BPMOption.mk bpm 1 true :: rest
    /\ Forall (fun b => BPMOption.isMain b = false) rest.
Proof.
  unfold allBPMs. rewrite slice_0.
  set (others := imap (fun i alt => BPMOption.mk alt (0.7 - INR i * 0.15) false)
                   alternatives).
  assert (Forall (fun b => BPMOption.isMain b = false) others) as Ho.
  { subst others. apply List.Forall_forall. intros b Hb.
    apply list_elem_of_In, elem_of_lookup_imap in Hb as (i & alt & -> & _).
    done. }
  match goal with
  | |- context [take 6 (?l ++ repeat ?p ?n)] =>
      assert (exists tail, l = BPMOption.mk bpm 1 true :: tail
                           /\ Forall (fun b => BPMOption.isMain b = false) tail)
        as (tail & -> & Ht)
  end.
  { destruct (_ <? 4); [|by exists others].
    destruct (_ && _); destruct (_ && _);
      eexists; (split; [reflexivity|]);
      rewrite ?Forall_app; repeat split; try done; by repeat constructor. }
  cbn [app take]. eexists. split; [reflexivity|].
  apply Forall_take, Forall_app. split; [done|].
  apply List.Forall_forall. intros b ->%repeat_spec. done.
Qed.

(** *** The options that are shown *)

Lemma map_value_imap (f : nat -> R) alternatives :
  map BPMOption.value
    (imap (fun i alt => BPMOption.mk alt (f i) false) alternatives)
  = alternatives.
Proof.
  revert f; induction alternatives as [|a l IH]; intros f; [done|].
  cbn [imap map BPMOption.value]. f_equal. apply (IH (fun i => f (S i))).
Qed.

Lemma hasValue_In x bpms :
  hasValue x bpms = true <-> In x (map BPMOption.value bpms).
Proof.
  unfold hasValue. rewrite existsb_exists, in_map_iff. split.
  - intros (b & Hb & E%Z.eqb_eq). by exists b.
  - intros (b & E & Hb). exists b. split; [done | by apply Z.eqb_eq].
Qed.

Lemma hasValue_not_In x bpms :
  hasValue x bpms = false <-> ~ In x (map BPMOption.value bpms).
Proof.
  rewrite <- hasValue_In. destruct (hasValue x bpms); split; (done || congruence).
Qed.

Lemma filter_repeat_zero n :
  List.filter (fun v => negb (Z.eqb v 0)) (repeat 0%Z n) = [].
Proof. induction n as [|n IH]; [done|]. simpl. done. Qed.

Lemma take_repeat {A : Type} (x : A) m k :
  take m (repeat x k) = repeat x (Nat.min m k).
Proof.
  revert k; induction m as [|m IH]; intros [|k]; simpl; try done.
  by rewrite IH.
Qed.

(** The values of the options: those of [bpm] and of the alternatives, then
    the double and the half added by lines 41-48 when they are new, cut to
    six and padded with zeros. *)
Lemma allBPMs_values bpm alternatives :
  exists extras n,
    map BPMOption.value (allBPMs bpm alternatives)
    = take 6 (bpm :: alternatives ++ extras) ++ repeat 0%Z n
    /\ (List.NoDup (bpm :: alternatives) ->
        List.NoDup (bpm :: alternatives ++ extras))
    /\ (forall x, In x extras ->
          (x = bpm * 2 /\ bpm * 2 <= 200)%Z
          \/ (x = Math_round (IZR bpm / 2) /\ (50 <= IZR bpm / 2)%R)).
Proof.
  unfold allBPMs. rewrite slice_0.
  set (first := BPMOption.mk bpm 1 true
                :: imap (fun i alt => BPMOption.mk alt (0.7 - INR i * 0.15) false)
                     alternatives).
  assert (map BPMOption.value first = bpm :: alternatives) as Hfirst
    by (subst first; cbn [map BPMOption.value]; by rewrite map_value_imap).
  match goal with
  | |- context [take 6 (?l ++ repeat ?p ?n)] => set (bpms := l)
  end.
  assert (exists extras,
             map BPMOption.value bpms = bpm :: alternatives ++ extras
             /\ (List.NoDup (bpm :: alternatives) ->
                 List.NoDup (bpm :: alternatives ++ extras))
             /\ (forall x, In x extras ->
                   (x = bpm * 2 /\ bpm * 2 <= 200)%Z
                   \/ (x = Math_round (IZR bpm / 2) /\ (50 <= IZR bpm / 2)%R)))
    as (extras & Hvalues & Hnd & Hextras).
  { subst bpms. destruct (length first <? 4).
    2:{ exists []. rewrite app_nil_r. split; [done|]. split; [done|].
        by intros x []. }
    set (withDouble := if (bpm * 2 <=? 200)%Z && negb (hasValue (bpm * 2) first)
                       then first ++ [BPMOption.mk (bpm * 2) 0.4 false]
                       else first).
    assert (exists e1,
               map BPMOption.value withDouble = (bpm :: alternatives) ++ e1
               /\ (List.NoDup (bpm :: alternatives) ->
                   List.NoDup ((bpm :: alternatives) ++ e1))
               /\ (forall x, In x e1 -> (x = bpm * 2 /\ bpm * 2 <= 200)%Z))
      as (e1 & Hv1 & Hnd1 & He1).
    { subst withDouble. destruct (Z.leb_spec (bpm * 2) 200); cbn [andb].
      2:{ exists []. rewrite app_nil_r. split; [done|]. split; [done|].
          by intros x []. }
      destruct (hasValue (bpm * 2) first) eqn:E; cbn [negb].
      { exists []. rewrite app_nil_r. split; [done|]. split; [done|].
        by intros x []. }
      apply hasValue_not_In in E. rewrite Hfirst in E.
      exists [(bpm * 2)%Z]. rewrite map_app, Hfirst. split; [done|].
      split; [intros; by apply push_NoDup|].
      intros x [<-|[]]. done. }
    destruct (Rleb 50 (IZR bpm / 2)) eqn:Hh; cbn [andb];
      [apply Rleb_true in Hh|].
    2:{ exists e1. split; [done|]. split; [done|]. intros x Hx. left. auto. }
    destruct (hasValue _ withDouble) eqn:E; cbn [negb].
    { exists e1. split; [done|]. split; [done|]. intros x Hx. left. auto. }
    apply hasValue_not_In in E. rewrite Hv1 in E.
    exists (e1 ++ [Math_round (IZR bpm / 2)]).
    rewrite map_app, Hv1. cbn [map BPMOption.value].
    split; [by rewrite <- app_assoc|]. split.
    - intros Hnd. change (bpm :: alternatives ++ e1 ++ [Math_round (IZR bpm / 2)])
        with ((bpm :: alternatives) ++ e1 ++ [Math_round (IZR bpm / 2)]).
      rewrite app_assoc. apply push_NoDup; [by apply Hnd1 | done].
    - intros x [Hx|[<-|[]]]%in_app_or; [left; auto | right; done]. }
  exists extras. eexists.
  rewrite <- firstn_map, map_app, Hvalues, map_repeat, firstn_app.
  cbn [BPMOption.value]. rewrite take_repeat. split; [reflexivity|].
  split; done.
Qed.

Lemma allBPMs_shown bpm alternatives :
  List.NoDup (bpm :: alternatives) ->
  List.NoDup (shownValues (allBPMs bpm alternatives))
  /\ (bpm <> 0%Z -> In bpm (shownValues (allBPMs bpm alternatives)))
  /\ (forall x, In x (shownValues (allBPMs bpm alternatives)) ->
        x = bpm \/ In x alternatives
        \/ (x = bpm * 2 /\ bpm * 2 <= 200)%Z
        \/ (x = Math_round (IZR bpm / 2) /\ (50 <= IZR bpm / 2)%R)).
Proof.
  intros Hnd.
  destruct (allBPMs_values bpm alternatives) as (extras & n & Hv & Hnd' & Hex).
  unfold shownValues. rewrite Hv, List.filter_app, filter_repeat_zero, app_nil_r.
  split; [|split].
  - apply List.NoDup_filter, take_NoDup. auto.
  - intros Hne. apply filter_In. split; [by left|].
    by apply negb_true_iff, Z.eqb_neq.
  - intros x [Hx _]%filter_In. apply take_In in Hx as [<-|Hx]; [by left|].
    apply in_app_or in Hx as [Hx|Hx]; [tauto|].
    right. right. by apply Hex.
Qed.

Lemma StronglySorted_lt_NoDup l : StronglySorted Z.lt l -> List.NoDup l.
Proof.
  induction 1 as [|x l Hs IH Hall]; constructor; [|done].
  intros Hin. rewrite List.Forall_forall in Hall. specialize (Hall x Hin). lia.
Qed.

(** The radar fed with the result of [detectBPM]. *)
Lemma radar_of_detectBPMWith F H audioBuffer :
  (0 < AudioBuffer.sampleRate audioBuffer)%R -> 0 < H ->
  let result := detectBPMWith F H audioBuffer in
  let options := allBPMs (BPMResult.bpm result) (BPMResult.alternatives result) in
  length options = 6
  /\ List.NoDup (shownValues options)
  /\ In (BPMResult.bpm result) (shownValues options)
  /\ Forall (fun x => (50 <= x <= 200)%Z) (shownValues options).
Proof.
  intros Hs HH result options.
  destruct (tempoFromFlux_invariant (AudioBuffer.sampleRate audioBuffer) H
              (computeSpectralFlux (AudioBuffer.channelData audioBuffer) F H)
              Hs HH) as (Hnot & _ & Hsorted & _).
  destruct (tempoFromFlux_range (AudioBuffer.sampleRate audioBuffer) H
              (computeSpectralFlux (AudioBuffer.channelData audioBuffer) F H)
              Hs HH) as (Hbpm & _ & Halts).
  fold (detectBPMWith F H audioBuffer) in Hnot, Hsorted, Hbpm, Halts.
  fold result in Hnot, Hsorted, Hbpm, Halts.
  assert (List.NoDup (BPMResult.bpm result :: BPMResult.alternatives result))
    as Hnd by (constructor; [done | by apply StronglySorted_lt_NoDup]).
  destruct (allBPMs_shown _ _ Hnd) as (Hnd' & Hin & Hfrom).
  fold options in Hnd', Hin, Hfrom.
  split; [apply allBPMs_length|]. split; [done|].
  split; [apply Hin; lia|].
  apply List.Forall_forall. intros x Hx.
  rewrite List.Forall_forall in Halts.
  destruct (Hfrom x Hx) as [->|[Ha|[[-> H2]|[-> Hh]]]].
  - lia.
  - by apply Halts.
  - lia.
  - rewrite Math_round_half.
    assert (100 <= BPMResult.bpm result)%Z by (apply le_IZR; lra).
    Z.div_mod_to_equations; lia.
Qed.

(** *** The neighbours of a key *)

Lemma essentiaKeys_neighbours toLowerCase key scale strength i :
  i < 12 ->
  property key KEY_MAP = Some (nth i ALL_KEYS ""%string) ->
  let minor := String.eqb (toLowerCase scale) "minor" in
  map (fun c => (NamedCandidate.key c, NamedCandidate.mode c))
    (essentiaKeys toLowerCase (Some (KeyResult.mk key scale strength)))
  = [(nth i ALL_KEYS "", toLowerCase scale);
     (nth ((i + (if minor then 3 else 9)) mod 12) ALL_KEYS "",
      if minor then "major" else "minor");
     (nth i ALL_KEYS "", if minor then "major" else "minor");
     (nth ((i + 11) mod 12) ALL_KEYS "", toLowerCase scale);
     (nth ((i + 1) mod 12) ALL_KEYS "", toLowerCase scale)]%string.
Proof.
  intros Hi Hkey minor. subst minor.
  unfold essentiaKeys. cbn [KeyResult.key KeyResult.scale KeyResult.strength].
  unfold property_or_key. rewrite Hkey, indexOf_ALL_KEYS by done.
  cbn [map NamedCandidate.key NamedCandidate.mode].
  change 3%Z with (Z.of_nat 3). change 9%Z with (Z.of_nat 9).
  change 1%Z with (Z.of_nat 1). change 11%Z with (Z.of_nat 11).
  rewrite !keyAt_index by lia.
  destruct (String.eqb (toLowerCase scale) "minor"); reflexivity.
Qed.

Lemma ALL_KEYS_property i :
  i < 12 ->
  property (nth i ALL_KEYS ""%string) KEY_MAP = Some (nth i ALL_KEYS ""%string).
Proof.
  intros Hi. do 12 (destruct i as [|i]; [reflexivity|]). lia.
Qed.

(** *** The spelling with flats *)

Lemma formatKey_round_trip useFlats key :
  In key ALL_KEYS -> property_or_key (formatKey useFlats key) KEY_MAP = key.
Proof.
  intros Hin. destruct useFlats; cbn [In ALL_KEYS] in Hin;
    repeat (destruct Hin as [<-|Hin]; [reflexivity|]); destruct Hin.
Qed.

(** ** The strongest peak *)

Lemma by_value_desc_true a b :
  by_value_desc a b = true <-> (Peak.value a < Peak.value b)%R.
Proof. unfold by_value_desc. rewrite Rltb_true. lra. Qed.

Lemma by_value_desc_false a b :
  by_value_desc a b = false <-> (Peak.value b <= Peak.value a)%R.
Proof. unfold by_value_desc. rewrite Rltb_false. lra. Qed.

(** The stable sort by decreasing value starts with the first of the
    strongest peaks. *)
Lemma js_sort_first_strongest (peaks : list Peak.t) :
  peaks = []
  \/ exists l1 best l2 rest,
       peaks = l1 ++ best :: l2
       /\ js_sort by_value_desc peaks = best :: rest
       /\ Forall (fun p => (Peak.value p < Peak.value best)%R) l1
       /\ Forall (fun p => (Peak.value p <= Peak.value best)%R) l2.
Proof.
  induction peaks as [|x l IH]; [by left|]. right.
  destruct IH as [->|(l1 & h & l2 & rest & Hl & Hsort & H1 & H2)].
  - exists [], x, [], []. repeat split; constructor.
  - cbn [js_sort fold_right]. fold (js_sort by_value_desc l).
    rewrite Hsort. cbn [sort_insert].
    destruct (by_value_desc x h) eqn:E.
    + apply by_value_desc_true in E.
      exists (x :: l1), h, l2, (sort_insert by_value_desc x rest).
      rewrite Hl. repeat split; [|done]. by constructor.
    + apply by_value_desc_false in E.
      exists [], x, l, (h :: rest). repeat split; [constructor|].
      rewrite Hl. apply Forall_app. split.
      * eapply Forall_impl; [exact H1|]. intros p Hp. cbv beta in *. lra.
      * constructor; [done|].
        eapply Forall_impl; [exact H2|]. intros p Hp. cbv beta in *. lra.
Qed.

Lemma tempoFromFlux_best sampleRate hopSize spectralFlux :
  let correlations :=
    autocorrelation sampleRate hopSize (normalizeFlux spectralFlux) in
  let peaks := findPeaks sampleRate hopSize correlations in
  let result := tempoFromFlux sampleRate hopSize spectralFlux in
  result = degenerate
  \/ exists l1 best l2,
       peaks = l1 ++ best :: l2
       /\ Forall (fun p => (Peak.value p < Peak.value best)%R) l1
       /\ Forall (fun p => (Peak.value p <= Peak.value best)%R) l2
       /\ BPMResult.bpm result = foldPrimary (Peak.bpm best)
       /\ BPMResult.confidence result = peakConfidence best correlations.
Proof.
  intros correlations peaks result. subst result. unfold tempoFromFlux.
  destruct (_ <? 100); [by left|].
  fold correlations. fold peaks.
  destruct (js_sort_first_strongest peaks)
    as [->|(l1 & best & l2 & rest & Hl & Hsort & H1 & H2)]; [by left|].
  right. exists l1, best, l2. rewrite Hsort.
  cbn [resultFromPeaks BPMResult.bpm BPMResult.confidence]. done.
Qed.

(** ** The octave relatives among the alternatives *)

Lemma alternative_body_prefix bpm peaks s :
  exists rest, fold_left (alternative_body bpm) peaks s = s ++ rest.
Proof.
  revert s; induction peaks as [|p peaks IH]; intros s; cbn [fold_left].
  - exists []. by rewrite app_nil_r.
  - assert (exists e, alternative_body bpm s p = s ++ e) as (e & ->).
    { unfold alternative_body. destruct (5 <? _)%Z;
        [|exists []; by rewrite app_nil_r].
      unfold set_add. destruct (existsb _ s);
        [exists []; by rewrite app_nil_r | by eexists]. }
    destruct (IH (s ++ e)) as (rest & ->). exists (e ++ rest).
    by rewrite app_assoc.
Qed.

Lemma take_app_In {A : Type} (x : A) n l1 l2 :
  In x l1 -> length l1 <= n -> In x (take n (l1 ++ l2)).
Proof.
  intros Hin Hlen. rewrite firstn_app, firstn_all2 by done.
  apply in_or_app. by left.
Qed.

Lemma collect_keeps bpm init rest x :
  In x init -> x <> bpm -> length init <= 3 ->
  In x (js_sort ascending (slice (set_delete bpm (init ++ rest)) 0 3)).
Proof.
  intros Hin Hne Hlen. eapply Permutation_in; [symmetry; apply js_sort_perm|].
  rewrite slice_0. unfold set_delete. rewrite List.filter_app.
  apply take_app_In.
  - apply filter_In. split; [done|]. by apply negb_true_iff, Z.eqb_neq.
  - etransitivity; [apply List.filter_length_le | done].
Qed.

Lemma collectAlternatives_octaves bpm peaks :
  (0 < bpm)%Z ->
  ((bpm * 2 <= 200)%Z -> In (bpm * 2)%Z (collectAlternatives bpm peaks))
  /\ ((100 <= bpm)%Z ->
      In ((bpm + 1) / 2)%Z (collectAlternatives bpm peaks)).
Proof.
  intros Hpos. unfold collectAlternatives, alternativeSet.
  rewrite Math_round_half, (Rleb_half 50 bpm).
  match goal with
  | |- context [fold_left _ _ ?i] => set (init := i)
  end.
  destruct (alternative_body_prefix bpm (slice peaks 1 4) init) as (rest & ->).
  assert (length init <= 3) as Hlen.
  { assert (forall x s, length (set_add x s) <= S (length s)) as Hadd
      by (intros; unfold set_add; destruct (existsb _ _);
          rewrite ?length_app; simpl; lia).
    pose proof (Hadd (bpm * 2)%Z []) as Ha.
    pose proof (Hadd ((bpm + 1) / 2)%Z []) as Hb.
    pose proof (Hadd ((bpm + 1) / 2)%Z (set_add (bpm * 2)%Z [])) as Hc.
    subst init. destruct (_ <=? _)%Z; destruct (_ <=? _)%Z; simpl in *; lia. }
  split; intros Hb.
  - apply collect_keeps; [|lia|done].
    subst init. rewrite (proj2 (Z.leb_le (bpm * 2) 200)) by done.
    destruct (2 * 50 <=? bpm)%Z; [apply set_add_In; right|]; by left.
  - apply collect_keeps; [|Z.div_mod_to_equations; lia|done].
    subst init. rewrite (proj2 (Z.leb_le (2 * 50) bpm)) by lia.
    apply set_add_In. by left.
Qed.

Lemma tempoFromFlux_octaves sampleRate hopSize spectralFlux :
  (0 < sampleRate)%R -> 0 < hopSize ->
  let result := tempoFromFlux sampleRate hopSize spectralFlux in
  let bpm := BPMResult.bpm result in
  result = degenerate
  \/ (((bpm <= 100)%Z -> In (bpm * 2)%Z (BPMResult.alternatives result))
      /\ ((100 <= bpm)%Z -> In ((bpm + 1) / 2)%Z (BPMResult.alternatives result))
      /\ BPMResult.alternatives result <> []).
Proof.
  intros Hs Hh result bpm.
  pose proof (tempoFromFlux_range sampleRate hopSize spectralFlux Hs Hh)
    as (Hrange & _). fold result in Hrange. fold bpm in Hrange.
  subst bpm result. unfold tempoFromFlux in *.
  destruct (_ <? 100); [by left|].
  destruct (js_sort by_value_desc _) as [|bestPeak others]; [by left|].
  right. cbn [resultFromPeaks BPMResult.bpm BPMResult.alternatives] in *.
  set (bpm := foldPrimary (Peak.bpm bestPeak)) in *.
  destruct (collectAlternatives_octaves bpm (bestPeak :: others) ltac:(lia))
    as [Hdouble Hhalf].
  split; [intros; apply Hdouble; lia|]. split; [done|].
  intros Hnil. destruct (Z.le_gt_cases bpm 100) as [Hle|Hgt].
  - specialize (Hdouble ltac:(lia)). rewrite Hnil in Hdouble. done.
  - specialize (Hhalf ltac:(lia)). rewrite Hnil in Hhalf. done.
Qed.

(** ** Rotating the chroma vector *)

Lemma nth_shiftChroma chroma shift i :
  i < 12 ->
  nth i (shiftChroma chroma shift) 0%R = nth ((i + shift) mod 12) chroma 0%R.
Proof.
  intros Hi. rewrite shiftChroma_eq.
  rewrite (nth_indep _ 0%R (nth ((0 + shift) mod 12) chroma 0%R))
    by by rewrite length_map, length_seq.
  rewrite (map_nth (fun i => nth ((i + shift) mod 12) chroma 0%R)).
  by rewrite seq_nth.
Qed.

Lemma shiftChroma_shiftChroma chroma a b :
  shiftChroma (shiftChroma chroma a) b = shiftChroma chroma ((b + a) mod 12).
Proof.
  rewrite (shiftChroma_eq (shiftChroma chroma a) b),
    (shiftChroma_eq chroma ((b + a) mod 12)).
  apply map_ext_in. intros i Hi%in_seq.
  rewrite nth_shiftChroma by (apply Nat.mod_upper_bound; lia).
  f_equal. rewrite Nat.Div0.add_mod_idemp_l, Nat.Div0.add_mod_idemp_r.
  f_equal. lia.
Qed.

Lemma keyScore_rotate chroma mode r shift :
  keyScore (shiftChroma chroma r) mode shift
  = keyScore chroma mode ((shift + r) mod 12).
Proof. unfold keyScore. by rewrite shiftChroma_shiftChroma. Qed.

Lemma scores_of_shift_keyScore chroma shift :
  map Scored.correlation (scores_of_shift chroma shift)
  = [keyScore chroma major shift; keyScore chroma minor shift].
Proof. reflexivity. Qed.

(** ** A chroma vector that is a key profile *)

Lemma profile_not_constant mode :
  ~ constantOn (length (profileOf mode)) (profileOf mode).
Proof.
  intros H. specialize (H 0 1).
  destruct mode; cbn in H; specialize (H ltac:(lia) ltac:(lia)); lra.
Qed.

Lemma keyScore_of_profile chroma mode shift k d :
  (0 < k)%R -> shiftChroma chroma shift = affine k d (profileOf mode) ->
  keyScore chroma mode shift = 1%R.
Proof.
  intros Hk Hc. unfold keyScore. rewrite Hc.
  rewrite pearsonCorrelation_affine_r by done.
  rewrite (proj2 (Rltb_true 0 k)) by done.
  apply pearsonCorrelation_self, profile_not_constant.
Qed.

Lemma keyScore_le_1 chroma mode shift : (keyScore chroma mode shift <= 1)%R.
Proof. unfold keyScore. apply pearsonCorrelation_range. Qed.

Lemma keyCorrelations_keyScore chroma c :
  In c (keyCorrelations chroma) ->
  exists mode shift, shift < 12
    /\ c = Scored.mk (nth shift KEY_NAMES ""%string) mode
             (keyScore chroma mode shift).
Proof.
  rewrite keyCorrelations_eq. intros (shift & Hs%in_seq & Hc)%in_flat_map.
  destruct Hc as [<-|[<-|[]]]; [exists major | exists minor];
    exists shift; (split; [lia | reflexivity]).
Qed.

Lemma keyScore_in_keyCorrelations chroma mode shift :
  shift < 12 ->
  In (Scored.mk (nth shift KEY_NAMES ""%string) mode (keyScore chroma mode shift))
    (keyCorrelations chroma).
Proof.
  intros Hs. rewrite keyCorrelations_eq. apply in_flat_map.
  exists shift. split; [apply in_seq; lia|].
  destruct mode; [by left | right; by left].
Qed.

(** ** [fft] is linear *)

Lemma nth_axpy a x b y t :
  t < length x -> length x = length y ->
  nth t (axpy a x b y) 0%R = (a * nth t x 0 + b * nth t y 0)%R.
Proof.
  intros Ht Hlen. unfold axpy.
  rewrite (nth_indep _ 0%R (a * fst (0, 0) + b * snd (0, 0))%R)
    by (rewrite length_map, length_combine; lia).
  rewrite (map_nth (fun p => a * fst p + b * snd p)%R), combine_nth by done.
  done.
Qed.

Lemma length_axpy a x b y :
  length x = length y -> length (axpy a x b y) = length x.
Proof. intros H. unfold axpy. rewrite length_map, length_combine. lia. Qed.

Lemma csum_linear (f g h : nat -> R * R) a b n :
  (forall u, u < n ->
     h u = ((a * fst (f u) + b * fst (g u))%R, (a * snd (f u) + b * snd (g u))%R)) ->
  csum h n
  = ((a * fst (csum f n) + b * fst (csum g n))%R,
     (a * snd (csum f n) + b * snd (csum g n))%R).
Proof.
  intros Hh. induction n as [|n IH]; cbn [csum].
  - cbn [fst snd]. f_equal; ring.
  - rewrite IH by (intros; apply Hh; lia). rewrite (Hh n) by lia.
    unfold cadd. cbn [fst snd]. f_equal; ring.
Qed.

Lemma dft_linear N (f g h : nat -> R * R) a b t :
  (forall u, u < N ->
     h u = ((a * fst (f u) + b * fst (g u))%R, (a * snd (f u) + b * snd (g u))%R)) ->
  dft N h t
  = ((a * fst (dft N f t) + b * fst (dft N g t))%R,
     (a * snd (dft N f t) + b * snd (dft N g t))%R).
Proof.
  intros Hh. unfold dft. apply csum_linear. intros u Hu.
  rewrite (Hh u Hu). unfold cmul. cbn [fst snd]. f_equal; ring.
Qed.

Lemma fft_linear q a b real1 imag1 real2 imag2 :
  length real1 = 2 ^ S q -> length imag1 = 2 ^ S q ->
  length real2 = 2 ^ S q -> length imag2 = 2 ^ S q ->
  forall t, t < 2 ^ S q ->
    at_index (fst (fft (axpy a real1 b real2) (axpy a imag1 b imag2)))
      (snd (fft (axpy a real1 b real2) (axpy a imag1 b imag2))) t
    = ((a * nth t (fst (fft real1 imag1)) 0
        + b * nth t (fst (fft real2 imag2)) 0)%R,
       (a * nth t (snd (fft real1 imag1)) 0
        + b * nth t (snd (fft real2 imag2)) 0)%R).
Proof.
  intros Hr1 Hi1 Hr2 Hi2 t Ht.
  pose proof (fft_is_dft q real1 imag1 Hr1 Hi1) as H1.
  pose proof (fft_is_dft q real2 imag2 Hr2 Hi2) as H2.
  pose proof (fft_is_dft q (axpy a real1 b real2) (axpy a imag1 b imag2)) as H3.
  destruct (fft real1 imag1) as [R1 I1].
  destruct (fft real2 imag2) as [R2 I2].
  destruct (fft (axpy a real1 b real2) (axpy a imag1 b imag2)) as [R3 I3].
  destruct H1 as (_ & _ & H1). destruct H2 as (_ & _ & H2).
  destruct H3 as (_ & _ & H3);
    [rewrite length_axpy; congruence | rewrite length_axpy; congruence |].
  cbn [fst snd]. rewrite H3 by done.
  rewrite (dft_linear _ (at_index real1 imag1) (at_index real2 imag2) _ a b).
  - rewrite <- H1, <- H2 by done. done.
  - intros u Hu. unfold at_index. cbn [fst snd].
    rewrite !nth_axpy by congruence. done.
Qed.

(** ** The onset signal and its autocorrelation lie in [[0,1]] *)

Lemma normalizeFlux_range spectralFlux :
  Forall (fun x => (0 <= x)%R) spectralFlux ->
  Forall (fun x => (0 <= x <= 1)%R) (normalizeFlux spectralFlux)
  /\ ((0 < Math_max spectralFlux)%R -> In 1%R (normalizeFlux spectralFlux)).
Proof.
  intros Hpos. rewrite List.Forall_forall in Hpos.
  destruct (Rlt_dec 0 (Math_max spectralFlux)) as [Hm|Hm].
  - rewrite normalizeFlux_scaled by done. split.
    + apply List.Forall_forall. intros y (x & <- & Hx)%in_map_iff.
      pose proof (Hpos x Hx). pose proof (Math_max_upper spectralFlux x Hx).
      split.
      * apply Rmult_le_pos; [done|]. left. by apply Rinv_0_lt_compat.
      * apply Rmult_le_reg_r with (Math_max spectralFlux); [done|].
        replace (x / Math_max spectralFlux * Math_max spectralFlux)%R
          with x by (field; lra).
        lra.
    + intros _. apply in_map_iff. exists (Math_max spectralFlux). split.
      * field. lra.
      * apply Math_max_in. intros ->. simpl in Hm. lra.
  - rewrite normalizeFlux_unscaled by lra. split; [|intros; lra].
    apply List.Forall_forall. intros x Hx.
    pose proof (Hpos x Hx). pose proof (Math_max_upper spectralFlux x Hx). lra.
Qed.

Lemma unit_nth (l : list R) i :
  Forall (fun x => (0 <= x <= 1)%R) l -> (0 <= nth i l 0 <= 1)%R.
Proof.
  intros H. destruct (nth_in_or_default i l 0%R) as [Hin|E]; [|rewrite E; lra].
  rewrite List.Forall_forall in H. by apply H.
Qed.

Lemma correlation_sum_range (spectralFlux : list R) lag k :
  Forall (fun x => (0 <= x <= 1)%R) spectralFlux ->
  let sum :=
    fold_left
      (fun sum i =>
         (sum + nth i spectralFlux 0 * nth (i + lag) spectralFlux 0)%R)
      (seq 0 k) 0%R in
  (0 <= sum <= INR k)%R.
Proof.
  intros Hunit. induction k as [|k IH]; [simpl; lra|].
  rewrite seq_S, fold_left_app. cbn [fold_left Nat.add]. cbv zeta in IH.
  rewrite S_INR.
  pose proof (unit_nth spectralFlux k Hunit).
  pose proof (unit_nth spectralFlux (k + lag) Hunit).
  nra.
Qed.

Lemma autocorrelation_range sampleRate hopSize spectralFlux :
  Forall (fun x => (0 <= x <= 1)%R) spectralFlux ->
  Forall (fun x => (0 <= x <= 1)%R)
    (autocorrelation sampleRate hopSize spectralFlux).
Proof.
  intros Hunit. unfold autocorrelation.
  apply for_loop_inv; [|constructor].
  intros lag correlations Hc Hall.
  apply andb_true_iff in Hc as [_ Hlag%Rltb_true].
  unfold correlation_body. apply Forall_app. split; [done|].
  constructor; [|done].
  set (n := length spectralFlux) in *.
  assert (0 <= INR lag)%R by apply pos_INR.
  assert (lag < n) as Hlt by (apply INR_lt; lra).
  rewrite for_loop_count by lia. rewrite Nat.sub_0_r.
  pose proof (correlation_sum_range spectralFlux lag (n - lag) Hunit) as Hs.
  cbv zeta in Hs. rewrite minus_INR in Hs by lia.
  set (sum := fold_left _ _ _) in *.
  assert (0 < INR n - INR lag)%R as Hpos.
  { apply lt_INR in Hlt. lra. }
  split.
  - apply Rmult_le_pos; [lra|]. left. by apply Rinv_0_lt_compat.
  - apply Rmult_le_reg_r with (INR n - INR lag)%R; [done|].
    replace (sum / (INR n - INR lag) * (INR n - INR lag))%R with sum
      by (field; lra).
    lra.
Qed.

Lemma onset_signal_range sampleRate data F H :
  let spectralFlux := normalizeFlux (computeSpectralFlux data F H) in
  Forall (fun x => (0 <= x <= 1)%R) spectralFlux
  /\ ((exists x, In x (computeSpectralFlux data F H) /\ x <> 0%R) ->
      In 1%R spectralFlux)
  /\ Forall (fun x => (0 <= x <= 1)%R)
       (autocorrelation sampleRate H spectralFlux).
Proof.
  intros spectralFlux. subst spectralFlux.
  pose proof (computeSpectralFlux_nonneg data F H) as Hpos.
  destruct (normalizeFlux_range _ Hpos) as [Hunit Hone].
  split; [done|]. split; [|by apply autocorrelation_range].
  intros (x & Hx & Hne). apply Hone.
  rewrite List.Forall_forall in Hpos. pose proof (Hpos x Hx).
  pose proof (Math_max_upper _ x Hx). lra.
Qed.

(** ** The chroma vector is the sum of the chroma vectors of the frames *)

Lemma length_vadd a b : length a = length b -> length (vadd a b) = length a.
Proof. intros H. unfold vadd. rewrite length_map, length_combine. lia. Qed.

Lemma nth_vadd a b i :
  length a = length b -> nth i (vadd a b) 0%R = (nth i a 0 + nth i b 0)%R.
Proof.
  intros Hlen. destruct (Nat.lt_ge_cases i (length a)) as [Hi|Hi].
  - unfold vadd.
    rewrite (nth_indep _ 0%R (fst (0, 0) + snd (0, 0))%R)
      by (rewrite length_map, length_combine; lia).
    rewrite (map_nth (fun p => fst p + snd p)%R), combine_nth by done. done.
  - rewrite !nth_overflow; [lra | lia | lia | rewrite length_vadd; lia].
Qed.

Lemma list_R_ext (a b : list R) :
  length a = length b -> (forall i, nth i a 0%R = nth i b 0%R) -> a = b.
Proof. intros Hlen H. apply (nth_ext a b 0%R 0%R); [done|]. intros. apply H. Qed.

Lemma vadd_comm a b : length a = length b -> vadd a b = vadd b a.
Proof.
  intros H. apply list_R_ext; [by rewrite !length_vadd|].
  intros i. rewrite !nth_vadd by done. lra.
Qed.

Lemma vadd_assoc a b c :
  length a = length b -> length b = length c ->
  vadd (vadd a b) c = vadd a (vadd b c).
Proof.
  intros H1 H2. apply list_R_ext.
  - rewrite !length_vadd; rewrite ?length_vadd; congruence.
  - intros i. rewrite !nth_vadd; rewrite ?length_vadd; try congruence. lra.
Qed.

Lemma vadd_zero a n : length a = n -> vadd a (repeat 0%R n) = a.
Proof.
  intros H. apply list_R_ext; [rewrite length_vadd; by rewrite ?repeat_length|].
  intros i. rewrite nth_vadd by by rewrite repeat_length.
  rewrite (all_zero_nth (repeat 0%R n)) by apply all_zero_repeat. lra.
Qed.

Lemma insert_vadd c d k e :
  length c = length d ->
  <[k := (nth k (vadd c d) 0 + e)%R]> (vadd c d)
  = vadd c (<[k := (nth k d 0 + e)%R]> d).
Proof.
  intros Hlen. apply list_R_ext.
  - rewrite length_insert, !length_vadd; by rewrite ?length_insert.
  - intros i. rewrite nth_insert, !nth_vadd, nth_insert, length_vadd
      by by rewrite ?length_insert.
    rewrite <- Hlen. destruct ((i =? k) && (k <? length c)) eqn:E; [|done].
    apply andb_true_iff in E as [->%Nat.eqb_eq _]. lra.
Qed.

Lemma chroma_bin_vadd sampleRate fftSize magnitude bin c d :
  length c = length d ->
  chroma_bin sampleRate fftSize magnitude bin (vadd c d)
  = vadd c (chroma_bin sampleRate fftSize magnitude bin d).
Proof.
  intros Hlen. unfold chroma_bin. destruct (_ || _); [done|].
  by apply insert_vadd.
Qed.

Lemma chroma_bin_length sampleRate fftSize magnitude bin d :
  length (chroma_bin sampleRate fftSize magnitude bin d) = length d.
Proof.
  unfold chroma_bin. destruct (_ || _); [done|]. apply length_insert.
Qed.

Lemma chroma_frame_vadd sampleRate data fftSize start c d :
  length c = length d ->
  chroma_frame sampleRate data fftSize start (vadd c d)
  = vadd c (chroma_frame sampleRate data fftSize start d).
Proof.
  intros Hlen. unfold chroma_frame.
  set (magnitude := getMagnitudeSpectrum _ _).
  apply (for_loop_rel (fun s1 s2 => length s2 = length d /\ s1 = vadd c s2)
           _ _ (chroma_bin sampleRate fftSize magnitude)
           (chroma_bin sampleRate fftSize magnitude)); [|done].
  intros i s1 s2 _ [Hl ->]. split; [by rewrite chroma_bin_length|].
  apply chroma_bin_vadd. congruence.
Qed.

Lemma frameChroma_length sampleRate data fftSize start :
  length (frameChroma sampleRate data fftSize start) = 12.
Proof.
  unfold frameChroma, chroma_frame.
  apply (for_loop_inv _ _ _ (fun c => length c = 12)); [|done].
  intros i c _ Hc. by rewrite chroma_bin_length.
Qed.

(** One iteration of the frame loop adds the chroma vector of the frame. *)
Lemma chroma_frame_adds sampleRate data fftSize start chroma :
  length chroma = 12 ->
  chroma_frame sampleRate data fftSize start chroma
  = vadd chroma (frameChroma sampleRate data fftSize start).
Proof.
  intros Hlen. rewrite <- (vadd_zero chroma 12 Hlen) at 1.
  apply chroma_frame_vadd. by rewrite repeat_length.
Qed.

Lemma fold_frames_adds sampleRate data fftSize starts chroma :
  length chroma = 12 ->
  fold_left (fun chroma start => chroma_frame sampleRate data fftSize start chroma)
    starts chroma
  = fold_left (fun chroma start =>
                 vadd chroma (frameChroma sampleRate data fftSize start))
      starts chroma
  /\ length (fold_left
               (fun chroma start =>
                  vadd chroma (frameChroma sampleRate data fftSize start))
               starts chroma) = 12.
Proof.
  revert chroma; induction starts as [|s starts IH]; intros chroma Hlen;
    cbn [fold_left]; [done|].
  rewrite chroma_frame_adds by done. apply IH.
  rewrite length_vadd; by rewrite ?frameChroma_length.
Qed.

Lemma fold_vadd_perm (g : nat -> list R) starts starts' chroma :
  (forall s, length (g s) = 12) -> length chroma = 12 ->
  Permutation starts starts' ->
  fold_left (fun chroma start => vadd chroma (g start)) starts chroma
  = fold_left (fun chroma start => vadd chroma (g start)) starts' chroma.
Proof.
  intros Hg Hlen Hperm. revert chroma Hlen.
  induction Hperm as [|s l l' Hp IH|s s' l|l l' l'' H1 IH1 H2 IH2];
    intros chroma Hlen; cbn [fold_left].
  - done.
  - apply IH. rewrite length_vadd; by rewrite ?Hg.
  - f_equal. rewrite !vadd_assoc by by rewrite ?Hg.
    f_equal. apply vadd_comm. by rewrite !Hg.
  - by rewrite IH1, IH2.
Qed.

Lemma accumulateChroma_any_order sampleRate data fftSize hopSize order :
  Permutation order (frameStarts fftSize hopSize (length data)) ->
  fold_left (fun chroma start => chroma_frame sampleRate data fftSize start chroma)
    order (repeat 0%R 12)
  = accumulateChroma sampleRate data fftSize hopSize.
Proof.
  intros Hperm. rewrite accumulateChroma_frames.
  destruct (fold_frames_adds sampleRate data fftSize order (repeat 0%R 12))
    as [-> _]; [done|].
  destruct (fold_frames_adds sampleRate data fftSize
              (frameStarts fftSize hopSize (length data)) (repeat 0%R 12))
    as [-> _]; [done|].
  apply fold_vadd_perm; [|done|done].
  intros s. apply frameChroma_length.
Qed.

(** ** [fft] keeps the energy, up to the factor [N] *)

Lemma rsum_mul f g n m :
  (rsum f n * rsum g m)%R = rsum (fun u => rsum (fun v => f u * g v)%R m) n.
Proof.
  induction n as [|n IH]; cbn [rsum]; [lra|].
  rewrite <- IH, rsum_scal. ring.
Qed.

Lemma rsum_swap (F : nat -> nat -> R) n m :
  rsum (fun u => rsum (fun v => F u v) m) n
  = rsum (fun v => rsum (fun u => F u v) n) m.
Proof.
  induction n as [|n IH]; cbn [rsum].
  - symmetry. rewrite rsum_const. lra.
  - by rewrite IH, <- rsum_plus.
Qed.

Lemma rsum_delta (g : nat -> R) u n :
  u < n -> rsum (fun v => if v =? u then g v else 0%R) n = g u.
Proof.
  induction n as [|n IH]; intros Hu; [lia|]. cbn [rsum].
  destruct (Nat.eqb_spec n u) as [->|Hne].
  - rewrite (rsum_ext _ (fun _ => 0%R)), rsum_const; [lra|].
    intros v Hv. by rewrite (proj2 (Nat.eqb_neq v u)) by lia.
  - rewrite IH by lia. lra.
Qed.

(** The complex exponentials of two different bins are orthogonal. *)
Lemma bins_orthogonal N u v :
  u < N -> v < N ->
  rsum (fun t => cos (INR t * (bin_angle N u - bin_angle N v))) N
  = (if v =? u then INR N else 0%R)
  /\ rsum (fun t => sin (INR t * (bin_angle N u - bin_angle N v))) N = 0%R.
Proof.
  intros Hu Hv. assert (0 < N) as HN by lia.
  destruct (Nat.lt_trichotomy u v) as [Hlt|[->|Hgt]].
  - rewrite (proj2 (Nat.eqb_neq v u)) by lia.
    assert (bin_angle N u - bin_angle N v = - bin_angle N (v - u))%R as ->
      by (rewrite bin_angle_minus by lia; ring).
    split.
    + rewrite (rsum_ext _ (fun t => cos (INR t * bin_angle N (v - u))))
        by (intros; rewrite Ropp_mult_distr_r_reverse; apply cos_neg).
      apply rsum_cos_period. lia.
    + rewrite (rsum_ext _ (fun t => (-1 * sin (INR t * bin_angle N (v - u)))%R))
        by (intros; rewrite Ropp_mult_distr_r_reverse, sin_neg; ring).
      rewrite rsum_scal, rsum_sin_period by done. ring.
  - rewrite Nat.eqb_refl.
    replace (bin_angle N v - bin_angle N v)%R with 0%R by ring. split.
    + rewrite (rsum_ext _ (fun _ => 1%R)), rsum_const; [ring|].
      intros. rewrite Rmult_0_r. apply cos_0.
    + rewrite (rsum_ext _ (fun _ => 0%R)), rsum_const; [ring|].
      intros. rewrite Rmult_0_r. apply sin_0.
  - rewrite (proj2 (Nat.eqb_neq v u)) by lia.
    rewrite <- bin_angle_minus by lia. split.
    + apply rsum_cos_period. lia.
    + by apply rsum_sin_period.
Qed.

Lemma dft_parseval N (x : nat -> R * R) :
  0 < N ->
  rsum (fun t => norm2 (dft N x t)) N = (INR N * rsum (fun u => norm2 (x u)) N)%R.
Proof.
  intros HN.
  set (A := fun t u =>
              (fst (x u) * cos (INR t * bin_angle N u)
               + snd (x u) * sin (INR t * bin_angle N u))%R).
  set (B := fun t u =>
              (- fst (x u) * sin (INR t * bin_angle N u)
               + snd (x u) * cos (INR t * bin_angle N u))%R).
  assert (forall t, norm2 (dft N x t)
                    = rsum (fun u => rsum (fun v => A t u * A t v + B t u * B t v)%R N) N)
    as Hnorm.
  { intros t. unfold dft. rewrite csum_components. unfold norm2. cbn [fst snd].
    rewrite (rsum_ext _ (A t)), (rsum_ext (fun u => snd _) (B t)).
    - rewrite !rsum_mul, <- rsum_plus. apply rsum_ext. intros u _.
      by rewrite <- rsum_plus.
    - intros u _. rewrite (Nat.mul_comm t u), twiddle_bin_angle by done.
      unfold cmul, B. cbn [fst snd]. ring.
    - intros u _. rewrite (Nat.mul_comm t u), twiddle_bin_angle by done.
      unfold cmul, A. cbn [fst snd]. ring. }
  rewrite (rsum_ext _ _ N (fun t _ => Hnorm t)).
  rewrite rsum_swap.
  rewrite (rsum_ext _ (fun u => (INR N * norm2 (x u))%R)); [by rewrite rsum_scal|].
  intros u Hu. rewrite rsum_swap.
  rewrite (rsum_ext _ (fun v => if v =? u then (INR N * norm2 (x v))%R else 0%R));
    [by apply rsum_delta|].
  intros v Hv. destruct (bins_orthogonal N u v Hu Hv) as [Hcos Hsin].
  rewrite (rsum_ext _
             (fun t => (fst (x u) * fst (x v) + snd (x u) * snd (x v))
                       * cos (INR t * (bin_angle N u - bin_angle N v))
                       + (snd (x u) * fst (x v) - fst (x u) * snd (x v))
                         * sin (INR t * (bin_angle N u - bin_angle N v)))%R).
  - rewrite rsum_plus, !rsum_scal, Hcos, Hsin.
    destruct (Nat.eqb_spec v u) as [->|Hne]; unfold norm2; ring.
  - intros t _. unfold A, B.
    rewrite !Rmult_minus_distr_l, cos_minus, sin_minus. ring.
Qed.

Lemma fft_parseval q real imag :
  length real = 2 ^ S q -> length imag = 2 ^ S q ->
  let '(real', imag') := fft real imag in
  rsum (fun t => norm2 (at_index real' imag' t)) (2 ^ S q)
  = (INR (2 ^ S q) * rsum (fun u => norm2 (at_index real imag u)) (2 ^ S q))%R.
Proof.
  intros Hr Hi. pose proof (fft_is_dft q real imag Hr Hi) as Hfft.
  destruct (fft real imag) as [real' imag']. destruct Hfft as (_ & _ & Hdft).
  rewrite (rsum_ext _ (fun t => norm2 (dft (2 ^ S q) (at_index real imag) t)))
    by (intros t Ht; by rewrite Hdft).
  apply dft_parseval. pose proof (Nat.pow_nonzero 2 (S q)). lia.
Qed.

(** ** Further properties of the module and of its callers *)

(** *** [fft] (lines 21-67) *)

(** X1.  On two arrays of the same power-of-two length [N = 2 ^ (q + 1)]
    (below [2 ^ 30]), [fft] leaves in them the discrete Fourier transform of
    the complex sequence they held: bin [t] is the sum over [u] of
    [x(u) * exp(-2 pi i t u / N)]; the lengths are unchanged. *)
Theorem X1_fft_computes_the_discrete_Fourier_transform
  (q : nat) (real imag : list R) :
  S q < 30 -> length real = 2 ^ S q -> length imag = 2 ^ S q ->
  let '(real', imag') := fft real imag in
  length real' = 2 ^ S q /\ length imag' = 2 ^ S q
  /\ forall t, t < 2 ^ S q ->
       at_index real' imag' t = dft (2 ^ S q) (at_index real imag) t.
Proof. intros _. apply fft_is_dft. Qed.

Lemma X1_witness_two_samples :
  let '(real', imag') := fft [1; 2]%R [0; 0]%R in
  length real' = 2 ^ 1 /\ length imag' = 2 ^ 1
  /\ forall t, t < 2 ^ 1 ->
       at_index real' imag' t = dft (2 ^ 1) (at_index [1; 2]%R [0; 0]%R) t.
Proof.
  apply (X1_fft_computes_the_discrete_Fourier_transform 0 [1; 2]%R [0; 0]%R);
    [lia | reflexivity | reflexivity].
Defined.

(** X2.  [fft] is linear: on arrays of length [2 ^ (q + 1)], the transform
    of [a * x + b * y] is [a] times the transform of [x] plus [b] times the
    transform of [y], in every bin, for the real and the imaginary parts. *)
Theorem X2_fft_is_linear
  (q : nat) (a b : R) (real1 imag1 real2 imag2 : list R) (t : nat) :
  S q < 30 ->
  length real1 = 2 ^ S q -> length imag1 = 2 ^ S q ->
  length real2 = 2 ^ S q -> length imag2 = 2 ^ S q ->
  t < 2 ^ S q ->
  at_index (fst (fft (axpy a real1 b real2) (axpy a imag1 b imag2)))
    (snd (fft (axpy a real1 b real2) (axpy a imag1 b imag2))) t
  = ((a * nth t (fst (fft real1 imag1)) 0
      + b * nth t (fst (fft real2 imag2)) 0)%R,
     (a * nth t (snd (fft real1 imag1)) 0
      + b * nth t (snd (fft real2 imag2)) 0)%R).
Proof. intros _ H1 H2 H3 H4 Ht. by apply (fft_linear q). Qed.

Lemma X2_witness_two_samples :
  at_index
    (fst (fft (axpy 2 [1; 2]%R 3 [0; 1]%R) (axpy 2 [0; 0]%R 3 [1; 0]%R)))
    (snd (fft (axpy 2 [1; 2]%R 3 [0; 1]%R) (axpy 2 [0; 0]%R 3 [1; 0]%R))) 1
  = ((2 * nth 1 (fst (fft [1; 2]%R [0; 0]%R)) 0
      + 3 * nth 1 (fst (fft [0; 1]%R [1; 0]%R)) 0)%R,
     (2 * nth 1 (snd (fft [1; 2]%R [0; 0]%R)) 0
      + 3 * nth 1 (snd (fft [0; 1]%R [1; 0]%R)) 0)%R).
Proof.
  apply (X2_fft_is_linear 0 2 3 [1; 2]%R [0; 0]%R [0; 1]%R [1; 0]%R 1);
    [lia | reflexivity | reflexivity | reflexivity | reflexivity | simpl; lia].
Defined.



(** *** [getMagnitudeSpectrum] (lines 69-89) *)

(** X4.  Whatever the samples and the frame size, the spectrum has
    [floor(fftSize / 2)] entries and none of them is negative. *)
Theorem X4_spectrum_has_half_the_frame_size_and_no_negative_entry
  (samples : list R) (fftSize : nat) :
  length (getMagnitudeSpectrum samples fftSize) = fftSize / 2
  /\ Forall (fun x => (0 <= x)%R) (getMagnitudeSpectrum samples fftSize).
Proof. apply getMagnitudeSpectrum_shape. Qed.

(** X5.  The spectrum depends on the samples at the indices
    [1 .. fftSize - 2] only: samples past the frame are not read, a missing
    sample counts as 0 ([samples[i] || 0]), and the first and the last
    sample of the frame are multiplied by a Hann coefficient that is 0. *)
Theorem X5_spectrum_depends_on_the_inner_samples_only
  (samples samples' : list R) (fftSize : nat) :
  2 <= fftSize ->
  (forall i, 1 <= i -> i + 2 <= fftSize ->
             nth i samples 0%R = nth i samples' 0%R) ->
  getMagnitudeSpectrum samples fftSize = getMagnitudeSpectrum samples' fftSize.
Proof. apply getMagnitudeSpectrum_inner. Qed.

Lemma X5_witness_four_samples :
  getMagnitudeSpectrum [1; 2; 3; 4]%R 4
  = getMagnitudeSpectrum [9; 2; 3; 7; 5]%R 4.
Proof.
  apply (X5_spectrum_depends_on_the_inner_samples_only
           [1; 2; 3; 4]%R [9; 2; 3; 7; 5]%R 4); [lia|].
  intros [|[|[|i]]] H1 H2; (reflexivity || lia).
Defined.

(** X6.  Multiplying every sample by [c] multiplies every magnitude by
    [|c|]; in particular inverting the polarity of the frame leaves its
    spectrum unchanged. *)
Theorem X6_spectrum_scales_with_the_absolute_gain
  (c : R) (samples : list R) (fftSize : nat) :
  getMagnitudeSpectrum (scale c samples) fftSize
  = scale (Rabs c) (getMagnitudeSpectrum samples fftSize)
  /\ getMagnitudeSpectrum (scale (-1) samples) fftSize
     = getMagnitudeSpectrum samples fftSize.
Proof.
  split; [apply getMagnitudeSpectrum_gain | apply getMagnitudeSpectrum_neg].
Qed.

(** *** [pearsonCorrelation] (lines 91-106) *)

(** X7.  When [b] is at least as long as [a], the value returned lies
    between -1 and 1. *)
Theorem X7_pearson_correlation_lies_between_minus_one_and_one
  (a b : list R) :
  length a <= length b -> (-1 <= pearsonCorrelation a b <= 1)%R.
Proof. intros _. apply pearsonCorrelation_range. Qed.

Lemma X7_witness_two_entries :
  (-1 <= pearsonCorrelation [1; 2]%R [3; 5]%R <= 1)%R.
Proof.
  apply (X7_pearson_correlation_lies_between_minus_one_and_one
           [1; 2]%R [3; 5]%R).
  simpl. lia.
Defined.

(** X8.  On two arrays of the same length the correlation is symmetric. *)
Theorem X8_pearson_correlation_is_symmetric (a b : list R) :
  length a = length b -> pearsonCorrelation a b = pearsonCorrelation b a.
Proof. apply pearsonCorrelation_swap. Qed.

Lemma X8_witness_two_entries :
  pearsonCorrelation [1; 2]%R [3; 5]%R = pearsonCorrelation [3; 5]%R [1; 2]%R.
Proof.
  apply (X8_pearson_correlation_is_symmetric [1; 2]%R [3; 5]%R). reflexivity.
Defined.







(** *** [detectKey] (lines 108-173) *)

(** X12.  The six candidates are six different pairs of a key and a mode,
    each of them one of the 24 pairs of a name of [KEY_NAMES] and a mode. *)
Theorem X12_key_candidates_are_six_different_keys
  (audioBuffer : AudioBuffer.t) :
  let pairs := map key_mode (detectKey audioBuffer) in
  length pairs = 6
  /\ List.NoDup pairs
  /\ Forall (fun p => In p ALL_KEY_MODES) pairs.
Proof. exact (detectKeyWith_key_modes 8192 4096 audioBuffer). Qed.

(** X13.  A buffer of at most 8192 samples holds no frame for [detectKey]:
    whatever its samples and its sample rate, the candidates are C major,
    C minor, C# major, C# minor, D major and D minor, each with
    confidence 0, as on silence. *)
Theorem X13_key_of_a_buffer_without_a_frame
  (audioBuffer : AudioBuffer.t) :
  length (AudioBuffer.channelData audioBuffer) <= 8192 ->
  detectKey audioBuffer = silent_key_candidates.
Proof. exact (detectKeyWith_short 8192 4096 audioBuffer). Qed.

Lemma X13_witness_three_samples :
  detectKey (AudioBuffer.mk 44100 [0.5; -0.25; 0.125]%R)
  = silent_key_candidates.
Proof.
  apply (X13_key_of_a_buffer_without_a_frame
           (AudioBuffer.mk 44100 [0.5; -0.25; 0.125]%R)).
  apply Nat.leb_le. vm_compute. reflexivity.
Defined.

(** *** [detectBPM] (lines 181-298) *)

(** X14.  The flux pass of [detectBPM] yields fewer than 100 values exactly
    when the buffer has at most [2048 + 100 * 512 = 53248] samples, and
    then the result is the fallback [{bpm: 120, confidence: 0,
    alternatives: []}], whatever the samples and the sample rate. *)
Theorem X14_tempo_of_a_buffer_of_at_most_53248_samples
  (audioBuffer : AudioBuffer.t) :
  let data := AudioBuffer.channelData audioBuffer in
  (length (computeSpectralFlux data 2048 512) < 100
   <-> length data <= 2048 + 100 * 512)
  /\ (length data <= 2048 + 100 * 512 -> detectBPM audioBuffer = degenerate).
Proof.
  intros data. split.
  - apply flux_guard. lia.
  - apply (detectBPMWith_short 2048 512 audioBuffer). lia.
Qed.

(** X15.  At a positive sample rate the tempo returned lies between 71 and
    158, its confidence between 0 and 1, and every alternative between 50
    and 200. *)
Theorem X15_tempo_confidence_and_alternatives_are_bounded
  (audioBuffer : AudioBuffer.t) :
  (0 < AudioBuffer.sampleRate audioBuffer)%R ->
  let result := detectBPM audioBuffer in
  (71 <= BPMResult.bpm result <= 158)%Z
  /\ (0 <= BPMResult.confidence result <= 1)%R
  /\ Forall (fun a => (50 <= a <= 200)%Z) (BPMResult.alternatives result).
Proof. intros Hs. apply tempoFromFlux_range; [done | lia]. Qed.

Lemma X15_witness_empty_buffer :
  let result := detectBPM (AudioBuffer.mk 44100 []) in
  (71 <= BPMResult.bpm result <= 158)%Z
  /\ (0 <= BPMResult.confidence result <= 1)%R
  /\ Forall (fun a => (50 <= a <= 200)%Z) (BPMResult.alternatives result).
Proof.
  apply (X15_tempo_confidence_and_alternatives_are_bounded
           (AudioBuffer.mk 44100 [])).
  simpl. lra.
Defined.

(** X18.  Unless the result is the fallback, the tempo comes from the
    strongest peak of the autocorrelation and, among equally strong peaks,
    from the first one found (the smallest lag): every peak before it is
    strictly weaker, none after it is stronger.  Its tempo is folded by
    lines 263-270, and the confidence is computed from its value. *)
Theorem X18_tempo_comes_from_the_first_of_the_strongest_peaks
  (audioBuffer : AudioBuffer.t) :
  let sampleRate := AudioBuffer.sampleRate audioBuffer in
  let spectralFlux :=
    computeSpectralFlux (AudioBuffer.channelData audioBuffer) 2048 512 in
  let correlations := autocorrelation sampleRate 512 (normalizeFlux spectralFlux) in
  let peaks := findPeaks sampleRate 512 correlations in
  let result := detectBPM audioBuffer in
  result = degenerate
  \/ exists l1 best l2,
       peaks = l1 ++ best :: l2
       /\ Forall (fun p => (Peak.value p < Peak.value best)%R) l1
       /\ Forall (fun p => (Peak.value p <= Peak.value best)%R) l2
       /\ BPMResult.bpm result = foldPrimary (Peak.bpm best)
       /\ BPMResult.confidence result = peakConfidence best correlations.
Proof.
  exact (tempoFromFlux_best (AudioBuffer.sampleRate audioBuffer) 512
           (computeSpectralFlux (AudioBuffer.channelData audioBuffer) 2048 512)).
Qed.

(** X19.  At a positive sample rate, unless the result is the fallback, the
    alternatives are not empty: they contain the double of the tempo when
    the tempo is at most 100, and its half (rounded, halves upwards) when
    the tempo is at least 100. *)
Theorem X19_alternatives_contain_the_octave_relatives
  (audioBuffer : AudioBuffer.t) :
  (0 < AudioBuffer.sampleRate audioBuffer)%R ->
  let result := detectBPM audioBuffer in
  let bpm := BPMResult.bpm result in
  result = degenerate
  \/ (((bpm <= 100)%Z -> In (bpm * 2)%Z (BPMResult.alternatives result))
      /\ ((100 <= bpm)%Z -> In ((bpm + 1) / 2)%Z (BPMResult.alternatives result))
      /\ BPMResult.alternatives result <> []).
Proof. intros Hs. apply tempoFromFlux_octaves; [done | lia]. Qed.

Lemma X19_witness_empty_buffer :
  let result := detectBPM (AudioBuffer.mk 44100 []) in
  let bpm := BPMResult.bpm result in
  result = degenerate
  \/ (((bpm <= 100)%Z -> In (bpm * 2)%Z (BPMResult.alternatives result))
      /\ ((100 <= bpm)%Z -> In ((bpm + 1) / 2)%Z (BPMResult.alternatives result))
      /\ BPMResult.alternatives result <> []).
Proof.
  apply (X19_alternatives_contain_the_octave_relatives
           (AudioBuffer.mk 44100 [])).
  simpl. lra.
Defined.

(** *** [analyzeAudio] (lines 300-319), once the file is decoded *)

(** X16.  Multiplying every sample by a constant other than 0, negative
    ones included, changes nothing in the result of the analysis (exact
    arithmetic): tempo, confidence, alternatives and key candidates are the
    same. *)
Theorem X16_analysis_is_invariant_under_gain_and_polarity
  (c : R) (audioBuffer : AudioBuffer.t) :
  c <> 0%R -> analyze (scaleBuffer c audioBuffer) = analyze audioBuffer.
Proof.
  intros Hc.
  destruct (detectors_gain c 8192 4096 audioBuffer Hc) as [Hkey _].
  destruct (detectors_gain c 2048 512 audioBuffer Hc) as [_ Hbpm].
  unfold analyze, detectKey, detectBPM. rewrite Hkey, Hbpm. reflexivity.
Qed.

Lemma X16_witness_inverted_and_doubled :
  analyze (scaleBuffer (-2) (AudioBuffer.mk 44100 [0.5; -0.25; 0.125]%R))
  = analyze (AudioBuffer.mk 44100 [0.5; -0.25; 0.125]%R).
Proof.
  apply (X16_analysis_is_invariant_under_gain_and_polarity (-2)
           (AudioBuffer.mk 44100 [0.5; -0.25; 0.125]%R)).
  lra.
Defined.

(** X17.  The first and the last sample of the buffer have no influence on
    the result: the first is only ever the first sample of a frame, which
    the Hann window multiplies by 0, and the last is never read, since both
    frame loops stop at [start + fftSize < data.length]. *)
Theorem X17_first_and_last_sample_have_no_influence
  (x y : R) (audioBuffer : AudioBuffer.t) :
  analyze (withEnds x y audioBuffer) = analyze audioBuffer.
Proof.
  assert (2 <= 8192) as H8192 by (apply Nat.leb_le; vm_compute; reflexivity).
  destruct (detectors_ends x y 8192 4096 audioBuffer H8192) as [Hkey _].
  destruct (detectors_ends x y 2048 512 audioBuffer ltac:(lia)) as [_ Hbpm].
  unfold analyze, detectKey, detectBPM. rewrite Hkey, Hbpm. reflexivity.
Qed.

(** *** The key scores (lines 146-157) *)

(** X20.  Rotating the chroma vector by [r] pitch classes moves every score
    by [r] keys: the two correlations pushed for the key [shift] on the
    rotated vector are those pushed for the key [(shift + r) mod 12] on the
    vector itself. *)
Theorem X20_rotating_the_chroma_rotates_the_key_scores
  (chroma : list R) (r shift : nat) :
  map Scored.correlation (scores_of_shift (shiftChroma chroma r) shift)
  = map Scored.correlation (scores_of_shift chroma ((shift + r) mod 12))
  /\ shiftChroma (shiftChroma chroma r) shift
     = shiftChroma chroma ((shift + r) mod 12).
Proof.
  split; [|apply shiftChroma_shiftChroma].
  rewrite !scores_of_shift_keyScore. by rewrite !keyScore_rotate.
Qed.



(** *** [analyzeAudio], Essentia variant (lines 364-488) *)


(** X23.  The variant always returns 5 key candidates, also in its fallback
    branch, and when the strength Essentia reports is not negative their
    confidences are positive and strictly decreasing. *)
Theorem X23_essentia_key_candidates_are_five_with_decreasing_confidence
  (toLowerCase : string -> string) (keyResult : option KeyResult.t) :
  (forall k, keyResult = Some k -> (0 <= KeyResult.strength k)%R) ->
  length (essentiaKeys toLowerCase keyResult) = 5
  /\ exists c0 c1 c2 c3 c4 : R,
       map NamedCandidate.confidence (essentiaKeys toLowerCase keyResult)
       = [c0; c1; c2; c3; c4]
       /\ (0 < c4 < c3)%R /\ (c3 < c2 < c1)%R /\ (c1 < c0)%R.
Proof.
  intros H. split;
    [apply essentiaKeys_length | by apply essentiaKeys_confidences].
Qed.

Lemma X23_witness_a_minor :
  length (essentiaKeys (fun s => s)
            (Some (KeyResult.mk "A" "minor" 0.9%R))) = 5
  /\ exists c0 c1 c2 c3 c4 : R,
       map NamedCandidate.confidence
         (essentiaKeys (fun s => s) (Some (KeyResult.mk "A" "minor" 0.9%R)))
       = [c0; c1; c2; c3; c4]
       /\ (0 < c4 < c3)%R /\ (c3 < c2 < c1)%R /\ (c1 < c0)%R.
Proof.
  apply (X23_essentia_key_candidates_are_five_with_decreasing_confidence
           (fun s => s) (Some (KeyResult.mk "A" "minor" 0.9%R))).
  intros k [= <-]. simpl. lra.
Defined.

(** X24.  For each of the 17 spellings of [KEY_MAP], the candidates are the
    key in its sharp spelling, its relative key (3 keys up for a minor
    key, 9 keys up otherwise) in the other mode, the same key in the other
    mode, and the keys a half step below and above.  These relations are
    mutual: the relative key of the relative key is the key itself, and the
    key a half step above the key a half step below is the key itself. *)
Theorem X24_essentia_neighbour_keys
  (toLowerCase : string -> string) (key scale : string) (strength : R)
  (i : nat) :
  i < 12 ->
  property key KEY_MAP = Some (nth i ALL_KEYS ""%string) ->
  let minor := String.eqb (toLowerCase scale) "minor" in
  let relative := (i + (if minor then 3 else 9)) mod 12 in
  map (fun c => (NamedCandidate.key c, NamedCandidate.mode c))
    (essentiaKeys toLowerCase (Some (KeyResult.mk key scale strength)))
  = [(nth i ALL_KEYS "", toLowerCase scale);
     (nth relative ALL_KEYS "", if minor then "major" else "minor");
     (nth i ALL_KEYS "", if minor then "major" else "minor");
     (nth ((i + 11) mod 12) ALL_KEYS "", toLowerCase scale);
     (nth ((i + 1) mod 12) ALL_KEYS "", toLowerCase scale)]%string
  /\ (relative + (if minor then 9 else 3)) mod 12 = i
  /\ ((i + 11) mod 12 + 1) mod 12 = i.
Proof.
  intros Hi Hkey minor relative. split.
  - by apply essentiaKeys_neighbours.
  - subst relative. destruct minor;
      do 12 (destruct i as [|i]; [split; reflexivity|]); lia.
Qed.

Lemma X24_witness_b_flat_minor :
  let minor := String.eqb "minor" "minor" in
  let relative := (10 + (if minor then 3 else 9)) mod 12 in
  map (fun c => (NamedCandidate.key c, NamedCandidate.mode c))
    (essentiaKeys (fun s => s) (Some (KeyResult.mk "Bb" "minor" 0.9%R)))
  = [(nth 10 ALL_KEYS "", "minor");
     (nth relative ALL_KEYS "", if minor then "major" else "minor");
     (nth 10 ALL_KEYS "", if minor then "major" else "minor");
     (nth ((10 + 11) mod 12) ALL_KEYS "", "minor");
     (nth ((10 + 1) mod 12) ALL_KEYS "", "minor")]%string
  /\ (relative + (if minor then 9 else 3)) mod 12 = 10
  /\ ((10 + 11) mod 12 + 1) mod 12 = 10.
Proof.
  apply (X24_essentia_neighbour_keys (fun s => s) "Bb" "minor" 0.9%R 10);
    [lia | reflexivity].
Defined.

(** *** [BPMRadar] and [KeyRadar] *)

(** X25.  [allBPMs] always holds exactly 6 options; the first is the main
    one, with the tempo as its value, and no other is marked as main.
    When the alternatives passed are distinct and differ from the tempo,
    the options that are shown (value not 0) have distinct values, each of
    them the tempo, an alternative, the double of the tempo (at most 200)
    or its rounded half (at least 50). *)
Theorem X25_radar_options
  (bpm : Z) (alternatives : list Z) :
  length (allBPMs bpm alternatives) = 6
  /\ (exists rest,
        allBPMs bpm alternatives = BPMOption.mk bpm 1 true :: rest
        /\ Forall (fun b => BPMOption.isMain b = false) rest)
  /\ (List.NoDup (bpm :: alternatives) ->
      List.NoDup (shownValues (allBPMs bpm alternatives))
      /\ forall x, In x (shownValues (allBPMs bpm alternatives)) ->
           x = bpm \/ In x alternatives
           \/ (x = bpm * 2 /\ bpm * 2 <= 200)%Z
           \/ (x = Math_round (IZR bpm / 2) /\ (50 <= IZR bpm / 2)%R)).
Proof.
  split; [apply allBPMs_length|]. split; [apply allBPMs_head|].
  intros Hnd. destruct (allBPMs_shown bpm alternatives Hnd) as (H1 & _ & H3).
  by split.
Qed.

(** X26.  Fed with the result of [detectBPM] at a positive sample rate, the
    radar shows options with pairwise different values, all between 50 and
    200, the detected tempo among them. *)
Theorem X26_radar_of_the_detected_tempo (audioBuffer : AudioBuffer.t) :
  (0 < AudioBuffer.sampleRate audioBuffer)%R ->
  let result := detectBPM audioBuffer in
  let options := allBPMs (BPMResult.bpm result) (BPMResult.alternatives result) in
  length options = 6
  /\ List.NoDup (shownValues options)
  /\ In (BPMResult.bpm result) (shownValues options)
  /\ Forall (fun x => (50 <= x <= 200)%Z) (shownValues options).
Proof.
  intros Hs. apply (radar_of_detectBPMWith 2048 512 audioBuffer Hs). lia.
Qed.

Lemma X26_witness_empty_buffer :
  let result := detectBPM (AudioBuffer.mk 44100 []) in
  let options := allBPMs (BPMResult.bpm result) (BPMResult.alternatives result) in
  length options = 6
  /\ List.NoDup (shownValues options)
  /\ In (BPMResult.bpm result) (shownValues options)
  /\ Forall (fun x => (50 <= x <= 200)%Z) (shownValues options).
Proof.
  apply (X26_radar_of_the_detected_tempo (AudioBuffer.mk 44100 [])).
  simpl. lra.
Defined.

(** X27.  Every key [detectKey] returns is spelled by [formatKey], with or
    without flats, in a way that [KEY_MAP] reads back as the same key. *)
Theorem X27_flat_spelling_reads_back_as_the_same_key
  (useFlats : bool) (audioBuffer : AudioBuffer.t) :
  Forall (fun c =>
            property_or_key (formatKey useFlats (KeyCandidate.key c)) KEY_MAP
            = KeyCandidate.key c)
    (detectKey audioBuffer).
Proof.
  destruct (detectKeyWith_key_modes 8192 4096 audioBuffer) as (_ & _ & Hall).
  rewrite List.Forall_forall in Hall. apply List.Forall_forall. intros c Hc.
  apply formatKey_round_trip.
  apply (ALL_KEY_MODES_names (key_mode c)), Hall, in_map, Hc.
Qed.

(** *** Energy, onsets and the order of the frames *)

(** X28.  [fft] keeps the energy up to the factor [N]: on arrays of length
    [N = 2 ^ (q + 1)], the sum over the bins of [re^2 + im^2] after the
    transform is [N] times the sum over the entries of [re^2 + im^2]
    before it (Parseval's identity). *)
Theorem X28_fft_multiplies_the_energy_by_the_length
  (q : nat) (real imag : list R) :
  S q < 30 -> length real = 2 ^ S q -> length imag = 2 ^ S q ->
  let '(real', imag') := fft real imag in
  rsum (fun t => norm2 (at_index real' imag' t)) (2 ^ S q)
  = (INR (2 ^ S q) * rsum (fun u => norm2 (at_index real imag u)) (2 ^ S q))%R.
Proof. intros _. apply fft_parseval. Qed.

Lemma X28_witness_two_samples :
  let '(real', imag') := fft [1; 2]%R [0; 3]%R in
  rsum (fun t => norm2 (at_index real' imag' t)) (2 ^ 1)
  = (INR (2 ^ 1)
     * rsum (fun u => norm2 (at_index [1; 2]%R [0; 3]%R u)) (2 ^ 1))%R.
Proof.
  apply (X28_fft_multiplies_the_energy_by_the_length 0 [1; 2]%R [0; 3]%R);
    [lia | reflexivity | reflexivity].
Defined.

(** X29.  No flux value of [detectBPM] is negative; after the normalisation
    of lines 213-219 every value lies in [[0,1]], with a 1 among them as
    soon as one flux value is not 0; and every value of the autocorrelation
    of lines 228-235 lies in [[0,1]] as well. *)
Theorem X29_onset_signal_and_autocorrelation_lie_in_the_unit_interval
  (audioBuffer : AudioBuffer.t) :
  let sampleRate := AudioBuffer.sampleRate audioBuffer in
  let spectralFlux :=
    computeSpectralFlux (AudioBuffer.channelData audioBuffer) 2048 512 in
  let normalized := normalizeFlux spectralFlux in
  Forall (fun x => (0 <= x)%R) spectralFlux
  /\ Forall (fun x => (0 <= x <= 1)%R) normalized
  /\ ((exists x, In x spectralFlux /\ x <> 0%R) -> In 1%R normalized)
  /\ Forall (fun x => (0 <= x <= 1)%R)
       (autocorrelation sampleRate 512 normalized).
Proof.
  intros sampleRate spectralFlux normalized.
  split; [apply computeSpectralFlux_nonneg|].
  exact (onset_signal_range sampleRate
           (AudioBuffer.channelData audioBuffer) 2048 512).
Qed.


